(** * DynamoDB table provider (lib/aws/provider/dynamodb/table.go)

    A shallow embedding of the table provider's lifecycle operations
    (Check, Create, Get, Update, Delete) and of the helpers they use,
    together with the properties the specification states about them.

    Conventions of the embedding:
    - a Go pointer that the code tests against nil or dereferences is an
      [option]; dereferencing [None] is a panic;
    - a Go [error] value is an [option error] ([None] is nil);
    - a [float64] capacity is a number, an infinity or NaN; the numbers are
      rationals, which every finite float64 is.  The conversions [int(x)]
      and [int64(x)] discard the fraction and, where the integer part does
      not fit 64 bits, yield the smallest int64, as the gc compiler does on
      amd64 (the language leaves that result to the implementation);
      [float64(n)] rounds to 53 bits of mantissa;
    - Go strings are byte strings ([string]); [len] is [String.length];
    - remote calls thread an abstract world and emit the call as an event,
      so that the sequence of calls an operation issues can be stated;
    - [fmt.Printf] progress messages are not modelled. *)

From Stdlib Require Import ZArith QArith List String Ascii Bool Lia.
From stdpp Require Import base option list gmap strings.

Local Open Scope string_scope.
Local Open Scope list_scope.
Local Open Scope Z_scope.

(** ** Go-level plumbing *)

(** A computation either yields a value or panics ([contract.Assert],
    [contract.Failf], nil dereference). *)
Inductive result (A : Type) : Type :=
| Val (a : A)
| Panic (msg : string).
Arguments Val {A} a.
Arguments Panic {A} msg.

(** Go's [error] interface, as far as the provider looks at it: an AWS SDK
    error carries a code and a message ([awserr.Error]); any other error is
    opaque text. *)
Inductive error : Type :=
| AwsError (code message : string)
| PlainError (message : string).

Definition len (s : string) : Z := Z.of_nat (String.length s).

(** A [float64]: a number, an infinity or NaN.  The numbers are taken from
    the rationals.  The two zeros are one number here: the provider compares
    a capacity with a constant and converts it to an integer, and neither
    tells them apart. *)
Inductive float64 : Type :=
| Number (q : Q)
| PlusInf
| MinusInf
| NaN.

Definition MinInt64 : Z := - 2 ^ 63.
Definition MaxInt64 : Z := 2 ^ 63 - 1.

(** [int(x)] / [int64(x)] on a float64 ([int] has 64 bits on the targets of
    the provider): the fraction is discarded.  Where the integer part does
    not fit an int64, and for the infinities and NaN, the language leaves the
    result to the implementation; the gc compiler on amd64 yields the
    smallest int64. *)
Definition float_to_int (x : float64) : Z :=
  match x with
  | Number q =>
      let z := Z.quot (Qnum q) (Z.pos (Qden q)) in
      if (MinInt64 <=? z) && (z <=? MaxInt64) then z else MinInt64
  | PlusInf | MinusInf | NaN => MinInt64
  end.

(** The float64 nearest to an integer: integers of more than 53 bits are
    rounded to 53 bits, ties to the even mantissa. *)
Definition nearestFloat (n : Z) : Z :=
  let a := Z.abs n in
  if a <=? 2 ^ 53 then n
  else
    let e := Z.log2 a - 52 in
    let m := Z.shiftr a e in
    let r := Z.land a (Z.ones e) in
    let half := Z.shiftl 1 (e - 1) in
    let m' := if (half <? r) || ((r =? half) && Z.odd m) then m + 1 else m in
    Z.sgn n * Z.shiftl m' e.

(** [float64(n)] on an int64. *)
Definition int_to_float (n : Z) : float64 := Number (inject_Z (nearestFloat n)).

(** [x < n] for a float64 [x] and an untyped integer constant [n]: false of
    NaN, as every comparison with NaN is. *)
Definition float_lt_const (x : float64) (n : Z) : bool :=
  match x with
  | Number q => Qnum q <? n * Z.pos (Qden q)
  | MinusInf => true
  | PlusInf | NaN => false
  end.

(** ** Resource types (package lib/aws/rpc/dynamodb)

    The generated declarations are not part of this file's sources; the
    records list the fields table.go reads and writes. *)

Record Attribute : Type := mkAttribute {
  Attribute_name : string;
  Attribute_type : string }.

Module GSI.
Record t : Type := mk {
  IndexName : string;
  HashKey : string;
  RangeKey : option string;
  ReadCapacity : float64;
  WriteCapacity : float64;
  NonKeyAttributes : list string;
  ProjectionType : string }.
End GSI.
Abbreviation GlobalSecondaryIndex := GSI.t.

Module Tab.
Record t : Type := mk {
  Name : option string;
  TableName : option string;
  HashKey : string;
  RangeKey : option string;
  Attributes : list Attribute;
  ReadCapacity : float64;
  WriteCapacity : float64;
  GlobalSecondaryIndexes : option (list GlobalSecondaryIndex) }.
End Tab.
Abbreviation Table := Tab.t.

(** The property-name constants of the rpc package.  table.go uses them as
    keys only, so they are an enumeration here. *)
Inductive PropertyKey : Type :=
| Table_Name
| Table_ReadCapacity
| Table_WriteCapacity
| Table_GlobalSecondaryIndexes
| Attribute_Name
| Attribute_Type
| GlobalSecondaryIndex_IndexName
| GlobalSecondaryIndex_ReadCapacity
| GlobalSecondaryIndex_WriteCapacity.

Global Instance PropertyKey_eq_dec : EqDecision PropertyKey.
Proof. solve_decision. Defined.

(** ** Table limits *)

Definition minTableName : Z := 3.
Definition maxTableName : Z := 255.
Definition minTableAttributeName : Z := 1.
Definition maxTableAttributeName : Z := 255.
Definition minReadCapacity : Z := 1.
Definition minWriteCapacity : Z := 1.
Definition maxGlobalSecondaryIndexes : Z := 5.

Definition hashKeyAttribute : string := "HASH".
Definition rangeKeyAttribute : string := "RANGE".

(** ** Check *)

(** [mapper.NewFieldErr(reflect.TypeOf(v), field, err)]: the Go type of the
    offending value, the field and the reason. *)
Record FieldError : Type := NewFieldErr {
  fe_type : string;
  fe_field : PropertyKey;
  fe_reason : string }.

(** [if cond { failures = append(failures, e) }] contributes [e] or nothing. *)
Definition failing (cond : bool) (e : FieldError) : list FieldError :=
  if cond then [e] else [].

Definition validAttributeType (ty : string) : bool :=
  String.eqb ty "S" || String.eqb ty "N" || String.eqb ty "B".

Definition checkAttribute (attribute : Attribute) : list FieldError :=
  failing (len (Attribute_name attribute) <? minTableAttributeName)
    (NewFieldErr "dynamodb.Attribute" Attribute_Name "less than minimum length of 1")
  ++ failing (maxTableAttributeName <? len (Attribute_name attribute))
    (NewFieldErr "dynamodb.Attribute" Attribute_Name "exceeded maximum length of 255")
  ++ failing (negb (validAttributeType (Attribute_type attribute)))
    (NewFieldErr "dynamodb.Attribute" Attribute_Type
       "not one of valid values S (string), N (number) or B (binary)").

Definition checkGlobalSecondaryIndex (gsi : GlobalSecondaryIndex) : list FieldError :=
  failing (len (GSI.IndexName gsi) <? minTableName)
    (NewFieldErr "dynamodb.GlobalSecondaryIndex" GlobalSecondaryIndex_IndexName
       "less than minimum length of 3")
  ++ failing (maxTableName <? len (GSI.IndexName gsi))
    (NewFieldErr "dynamodb.GlobalSecondaryIndex" GlobalSecondaryIndex_IndexName
       "exceeded maximum length of 255")
  ++ failing (float_lt_const (GSI.ReadCapacity gsi) minReadCapacity)
    (NewFieldErr "dynamodb.GlobalSecondaryIndex" GlobalSecondaryIndex_ReadCapacity
       "less than minimum of 1")
  ++ failing (float_lt_const (GSI.WriteCapacity gsi) minWriteCapacity)
    (NewFieldErr "dynamodb.GlobalSecondaryIndex" GlobalSecondaryIndex_WriteCapacity
       "less than minimum of 1").

(** The body of [Check]; the loops over attributes and indexes append the
    failures of each element in order. *)
Definition Check (obj : Table) : list FieldError * option error :=
  let failures :=
    match Tab.TableName obj with
    | Some name =>
        failing (len name <? minTableName)
          (NewFieldErr "*dynamodb.Table" Table_Name "less than minimum length of 3")
        ++ failing (maxTableName <? len name)
          (NewFieldErr "*dynamodb.Table" Table_Name "exceeded maximum length of 255")
    | None => []
    end
    ++ failing (float_lt_const (Tab.ReadCapacity obj) minReadCapacity)
      (NewFieldErr "*dynamodb.Table" Table_ReadCapacity "less than minimum of 1")
    ++ failing (float_lt_const (Tab.WriteCapacity obj) minWriteCapacity)
      (NewFieldErr "*dynamodb.Table" Table_WriteCapacity "less than minimum of 1")
    ++ concat (map checkAttribute (Tab.Attributes obj))
    ++ match Tab.GlobalSecondaryIndexes obj with
       | Some gsis =>
           failing (maxGlobalSecondaryIndexes <? Z.of_nat (length gsis))
             (NewFieldErr "*dynamodb.Table" Table_GlobalSecondaryIndexes
                "more than 5 global secondary indexes requested")
           ++ concat (map checkGlobalSecondaryIndex gsis)
       | None => []
       end in
  (failures, None).

(** ** AWS SDK request and response shapes (aws-sdk-go, service/dynamodb)

    Only the fields table.go sets or reads.  Scalar fields are pointers in the
    SDK, hence options; slices of pointers are lists of records. *)

Record AttributeDefinition : Type := mkAttributeDefinition {
  ad_AttributeName : option string;
  ad_AttributeType : option string }.

Record KeySchemaElement : Type := mkKeySchemaElement {
  kse_AttributeName : option string;
  kse_KeyType : option string }.

Record ProvisionedThroughput : Type := mkProvisionedThroughput {
  pt_ReadCapacityUnits : option Z;
  pt_WriteCapacityUnits : option Z }.

Record Projection : Type := mkProjection {
  pj_NonKeyAttributes : list (option string);
  pj_ProjectionType : option string }.

(** [awsdynamodb.GlobalSecondaryIndex], [CreateGlobalSecondaryIndexAction]
    and [GlobalSecondaryIndexDescription] carry the same four fields. *)
Record IndexDefinition : Type := mkIndexDefinition {
  ix_IndexName : option string;
  ix_KeySchema : list KeySchemaElement;
  ix_ProvisionedThroughput : option ProvisionedThroughput;
  ix_Projection : option Projection }.

Record CreateTableInput : Type := mkCreateTableInput {
  cti_TableName : option string;
  cti_AttributeDefinitions : list AttributeDefinition;
  cti_KeySchema : list KeySchemaElement;
  cti_ProvisionedThroughput : option ProvisionedThroughput;
  cti_GlobalSecondaryIndexes : list IndexDefinition }.

Record TableDescription : Type := mkTableDescription {
  td_TableName : option string;
  td_TableArn : option string;
  td_TableStatus : option string;
  td_AttributeDefinitions : list AttributeDefinition;
  td_KeySchema : list KeySchemaElement;
  td_ProvisionedThroughput : option ProvisionedThroughput;
  td_GlobalSecondaryIndexes : list IndexDefinition }.

Record CreateTableOutput : Type := mkCreateTableOutput {
  cto_TableDescription : option TableDescription }.

Record DescribeTableOutput : Type := mkDescribeTableOutput {
  dto_Table : option TableDescription }.

Record UpdateGlobalSecondaryIndexAction : Type := mkUpdateIndexAction {
  ua_IndexName : option string;
  ua_ProvisionedThroughput : option ProvisionedThroughput }.

Record DeleteGlobalSecondaryIndexAction : Type := mkDeleteIndexAction {
  da_IndexName : option string }.

Record GlobalSecondaryIndexUpdate : Type := mkGlobalSecondaryIndexUpdate {
  gsu_Create : option IndexDefinition;
  gsu_Update : option UpdateGlobalSecondaryIndexAction;
  gsu_Delete : option DeleteGlobalSecondaryIndexAction }.

Record UpdateTableInput : Type := mkUpdateTableInput {
  uti_TableName : option string;
  uti_AttributeDefinitions : list AttributeDefinition;
  uti_ProvisionedThroughput : option ProvisionedThroughput;
  uti_GlobalSecondaryIndexUpdates : list GlobalSecondaryIndexUpdate }.

Definition ErrCodeResourceNotFoundException : string := "ResourceNotFoundException".
Definition ErrCodeResourceInUseException : string := "ResourceInUseException".

(** [aws.StringValue]: nil reads as the empty string. *)
Definition StringValue (p : option string) : string := default "" p.
(** [aws.StringSlice] and [aws.StringValueSlice]. *)
Definition StringSlice (l : list string) : list (option string) := map Some l.
Definition StringValueSlice (l : list (option string)) : list string := map StringValue l.

(** ** Remote calls *)

(** One call to the remote API, with what it answered. *)
Inductive Event : Type :=
| CallCreateTable (input : CreateTableInput)
    (resp : option CreateTableOutput) (err : option error)
| CallDescribeTable (tableName : string)
    (resp : option DescribeTableOutput) (err : option error)
| CallUpdateTable (input : UpdateTableInput) (err : option error)
| CallDeleteTable (tableName : string) (err : option error).

(** The DynamoDB client: each operation answers from the current state of
    the remote world and moves it.  [UpdateTable] and [DeleteTable] responses
    are discarded by table.go, so only their error is kept. *)
Record DynamoDBAPI (W : Type) : Type := mkDynamoDBAPI {
  CreateTable : CreateTableInput -> W -> option CreateTableOutput * option error * W;
  DescribeTable : string -> W -> option DescribeTableOutput * option error * W;
  UpdateTable : UpdateTableInput -> W -> option error * W;
  DeleteTable : string -> W -> option error * W }.
Arguments CreateTable {W} _ _ _.
Arguments DescribeTable {W} _ _ _.
Arguments UpdateTable {W} _ _ _.
Arguments DeleteTable {W} _ _ _.

(** [awsctx.Context]: the client, and the two retry budgets of the
    convergence poller (number of attempts of the short and of the long
    profile). *)
Record Context (W : Type) : Type := mkContext {
  DynamoDB : DynamoDBAPI W;
  shortTries : nat;
  longTries : nat }.
Arguments DynamoDB {W} _.
Arguments shortTries {W} _.
Arguments longTries {W} _.

(** A provider computation runs against the remote world: it yields a value
    or panics, the calls it issued (oldest first), and the world it leaves. *)
Definition M (W A : Type) : Type := W -> result A * list Event * W.

Definition ret {W A} (a : A) : M W A := fun w => (Val a, [], w).

Definition bind {W A B} (m : M W A) (f : A -> M W B) : M W B :=
  fun w =>
    match m w with
    | (Val a, t, w') =>
        match f a w' with
        | (r, t', w'') => (r, t ++ t', w'')
        end
    | (Panic msg, t, w') => (Panic msg, t, w')
    end.

Definition panic {W A} (msg : string) : M W A := fun w => (Panic msg, [], w).

Notation "x <- m ;; k" := (bind m (fun x => k))
  (at level 100, m at next level, right associativity).

(** [*p]: a nil pointer dereference is a run-time panic. *)
Definition deref {W A} (p : option A) : M W A :=
  match p with
  | Some a => ret a
  | None => panic "invalid memory address or nil pointer dereference"
  end.

(** [if err := m; err != nil { return err }; k]. *)
Definition orReturn {W} (m : M W (option error)) (k : M W (option error))
  : M W (option error) :=
  err <- m ;;
  match err with
  | Some e => ret (Some e)
  | None => k
  end.
Notation "'try!' m ;; k" := (orReturn m k)
  (at level 100, m at next level, right associativity).

(** [for _, x := range l { if err := body(x); err != nil { return err } }]. *)
Fixpoint forEach {W A} (l : list A) (body : A -> M W (option error))
  : M W (option error) :=
  match l with
  | [] => ret None
  | x :: rest => try! body x ;; forEach rest body
  end.

Fixpoint mapM {W A B} (f : A -> M W B) (l : list A) : M W (list B) :=
  match l with
  | [] => ret []
  | x :: rest => y <- f x ;; ys <- mapM f rest ;; ret (y :: ys)
  end.

(** A pure helper that may panic, run inside a provider computation. *)
Definition liftResult {W A} (r : result A) : M W A := fun w => (r, [], w).

(** [contract.Assert(p != nil)] followed by the use of [*p]. *)
Definition assertNotNil {W A} (p : option A) : M W A :=
  match p with
  | Some a => ret a
  | None => panic "An assertion has failed"
  end.

(** Modelled from the spec: [awsctx.IsAWSError] is not among the sources.
    The spec (section 6) has the core classify a remote failure by its named
    error code; an error that is not an AWS SDK error matches no code. *)
Definition IsAWSError (err : error) (codes : list string) : bool :=
  match err with
  | AwsError code _ => existsb (String.eqb code) codes
  | PlainError _ => false
  end.

(** Modelled from the spec: the convergence poller behind [awsctx.RetryUntil]
    and [awsctx.RetryUntilLong] is not among the sources.  Section 4.1: invoke
    the predicate until it reports done, returns a non-nil error (handed back
    at once) or the attempt budget is used up.  The callers in table.go read
    the result as [(succ, err)] and build the exhaustion error themselves
    from [succ = false] with a nil error, so exhaustion is [(false, nil)]. *)
Fixpoint retryLoop {W} (tries : nat) (acceptor : M W (bool * option error))
  : M W (bool * option error) :=
  match tries with
  | O => ret (false, None)
  | S n =>
      r <- acceptor ;;
      match r with
      | (_, Some err) => ret (false, Some err)
      | (true, None) => ret (true, None)
      | (false, None) => retryLoop n acceptor
      end
  end.

(** ** Key schema readback *)

(** The loop of [getHashRangeKeys], carrying the two pointers found so far. *)
Fixpoint getHashRangeKeys_loop (schema : list KeySchemaElement)
    (hashKey rangeKey : option string) : result (option string * option string) :=
  match schema with
  | [] => Val (hashKey, rangeKey)
  | elem :: rest =>
      match kse_KeyType elem with
      | None => Panic "invalid memory address or nil pointer dereference"
      | Some keyType =>
          if String.eqb keyType hashKeyAttribute then
            getHashRangeKeys_loop rest (kse_AttributeName elem) rangeKey
          else if String.eqb keyType rangeKeyAttribute then
            getHashRangeKeys_loop rest hashKey (kse_AttributeName elem)
          else Panic ("Unexpected key schema attribute type: " +:+ keyType)
      end
  end.

Definition getHashRangeKeys (schema : list KeySchemaElement)
  : result (string * option string) :=
  match getHashRangeKeys_loop schema None None with
  | Val (Some hashKey, rangeKey) => Val (hashKey, rangeKey)
  | Val (None, _) => Panic "Expected to discover a hash partition key"
  | Panic msg => Panic msg
  end.

(** ** Keyed-set diff (package awsctx) *)

(** [awsctx.Hash] is a string type. *)
Abbreviation Hash := string.

(** [awsctx.Hashable], the interface [globalSecondaryIndexHash] implements. *)
Class Hashable (A : Type) : Type := {
  HashKey : A -> Hash;
  HashValue : A -> Hash }.

Record HashSetDiff (A : Type) : Type := mkHashSetDiff {
  Adds : list A;
  Updates : list A;
  Deletes : list A }.
Arguments mkHashSetDiff {A} _ _ _.
Arguments Adds {A} _.
Arguments Updates {A} _.
Arguments Deletes {A} _.

(** Modelled from the spec: [awsctx.HashSet] ([NewHashSet], [Add], [Diff]) is
    not among the sources.  Section 9 has the old and new collections as maps
    keyed by name; section 3 has the diff split them into additions (present
    only in new), removals (present only in old) and modifications (present in
    both, with a different comparison key).  A modification carries the new
    entry, since [Update] sends its capacities.  Go ranges over a map in no
    fixed order; the lists here come in the order of [map_to_list]. *)
Definition NewHashSet {A} : gmap Hash A := ∅.

(** Modelled from the spec: [HashSet.Add] puts the entry under its key; a
    later entry with the same key takes the place of the earlier one. *)
Definition Add {A} `{Hashable A} (item : A) (set : gmap Hash A) : gmap Hash A :=
  <[HashKey item := item]> set.

(** Modelled from the spec: [HashSet.Diff], the three parts of section 3. *)
Definition Diff {A} `{Hashable A} (set other : gmap Hash A) : HashSetDiff A :=
  {| Adds := omap (fun kv : Hash * A =>
               match set !! kv.1 with
               | None => Some kv.2
               | Some _ => None
               end) (map_to_list other);
     Updates := omap (fun kv : Hash * A =>
               match set !! kv.1 with
               | Some old =>
                   if String.eqb (HashValue old) (HashValue kv.2) then None
                   else Some kv.2
               | None => None
               end) (map_to_list other);
     Deletes := omap (fun kv : Hash * A =>
               match other !! kv.1 with
               | None => Some kv.2
               | Some _ => None
               end) (map_to_list set) |}.

(** ** The comparison key of a secondary index *)

(** [string(n)] on an integer: the UTF-8 encoding of the code point [n], and
    of U+FFFD when [n] is no valid code point (Go's conversion rule; the
    run-time's [intstring] and [encoderune]). *)
Definition runeError : Z := 0xFFFD.

Definition byte_of (b : Z) : ascii := ascii_of_N (Z.to_N (Z.land b 0xFF)).

Definition encoderune (r : Z) : string :=
  if r <=? 0x7F then
    String (byte_of r) ""
  else if r <=? 0x7FF then
    String (byte_of (Z.lor 0xC0 (Z.shiftr r 6)))
      (String (byte_of (Z.lor 0x80 (Z.land r 0x3F))) "")
  else if r <=? 0xFFFF then
    String (byte_of (Z.lor 0xE0 (Z.shiftr r 12)))
      (String (byte_of (Z.lor 0x80 (Z.land (Z.shiftr r 6) 0x3F)))
         (String (byte_of (Z.lor 0x80 (Z.land r 0x3F))) ""))
  else
    String (byte_of (Z.lor 0xF0 (Z.shiftr r 18)))
      (String (byte_of (Z.lor 0x80 (Z.land (Z.shiftr r 12) 0x3F)))
         (String (byte_of (Z.lor 0x80 (Z.land (Z.shiftr r 6) 0x3F)))
            (String (byte_of (Z.lor 0x80 (Z.land r 0x3F))) ""))).

Definition intstring (v : Z) : string :=
  if (v <? 0) || (0x10FFFF <? v) || ((0xD800 <=? v) && (v <=? 0xDFFF))
  then encoderune runeError
  else encoderune v.

Record globalSecondaryIndexHash : Type := mkGlobalSecondaryIndexHash {
  item : GlobalSecondaryIndex }.

Global Instance globalSecondaryIndexHash_Hashable : Hashable globalSecondaryIndexHash := {
  HashKey opt := GSI.IndexName (item opt);
  HashValue opt :=
    intstring (float_to_int (GSI.ReadCapacity (item opt)))
    +:+ ":" +:+ intstring (float_to_int (GSI.WriteCapacity (item opt))) }.

Definition newGlobalSecondaryIndexHashSet (options : option (list GlobalSecondaryIndex))
  : gmap Hash globalSecondaryIndexHash :=
  match options with
  | None => NewHashSet
  | Some l =>
      fold_left (fun set opt => Add (mkGlobalSecondaryIndexHash opt) set)
        l NewHashSet
  end.

(** ** The provider operations *)

(** [resource.ObjectDiff] is used through [Changed] alone. *)
Definition ObjectDiff : Type := PropertyKey -> bool.
Definition Changed (diff : ObjectDiff) (k : PropertyKey) : bool := diff k.

Definition sha1_Size : Z := 20.

(** The request pieces table.go builds in more than one place. *)
Definition attributeDefinitionsOf (attrs : list Attribute) : list AttributeDefinition :=
  map (fun attr =>
         mkAttributeDefinition (Some (Attribute_name attr)) (Some (Attribute_type attr)))
      attrs.

Definition keySchemaOf (hashKey : string) (rangeKey : option string)
  : list KeySchemaElement :=
  [mkKeySchemaElement (Some hashKey) (Some hashKeyAttribute)]
  ++ match rangeKey with
     | Some _ => [mkKeySchemaElement rangeKey (Some rangeKeyAttribute)]
     | None => []
     end.

Definition throughputOf (read write : float64) : ProvisionedThroughput :=
  mkProvisionedThroughput (Some (float_to_int read)) (Some (float_to_int write)).

Definition indexDefinitionOf (gsi : GlobalSecondaryIndex) : IndexDefinition :=
  {| ix_IndexName := Some (GSI.IndexName gsi);
     ix_KeySchema := keySchemaOf (GSI.HashKey gsi) (GSI.RangeKey gsi);
     ix_ProvisionedThroughput :=
       Some (throughputOf (GSI.ReadCapacity gsi) (GSI.WriteCapacity gsi));
     ix_Projection :=
       Some (mkProjection (StringSlice (GSI.NonKeyAttributes gsi))
               (Some (GSI.ProjectionType gsi))) |}.

Section Provider.
Context {W : Type}.

(** [arn.ParseResourceName] (package lib/aws/provider/arn) and
    [resource.NewUniqueHex] (package pkg/resource) are not among the
    sources; the provider is stated for any such pair.  [NewUniqueHex]
    draws a random suffix: one function stands for one draw, which is all
    a single [Create] makes. *)
Variable ParseResourceName : string -> string * option error.
Variable NewUniqueHex : string -> Z -> Z -> string.

(** The provider's [ctx] field. *)
Variable ctx : Context W.

Definition callCreateTable (input : CreateTableInput)
  : M W (option CreateTableOutput * option error) :=
  fun w =>
    match CreateTable (DynamoDB ctx) input w with
    | (resp, err, w') => (Val (resp, err), [CallCreateTable input resp err], w')
    end.

Definition callDescribeTable (tableName : string)
  : M W (option DescribeTableOutput * option error) :=
  fun w =>
    match DescribeTable (DynamoDB ctx) tableName w with
    | (resp, err, w') => (Val (resp, err), [CallDescribeTable tableName resp err], w')
    end.

Definition callUpdateTable (input : UpdateTableInput) : M W (option error) :=
  fun w =>
    match UpdateTable (DynamoDB ctx) input w with
    | (err, w') => (Val err, [CallUpdateTable input err], w')
    end.

Definition callDeleteTable (tableName : string) : M W (option error) :=
  fun w =>
    match DeleteTable (DynamoDB ctx) tableName w with
    | (err, w') => (Val err, [CallDeleteTable tableName err], w')
    end.

(** Modelled from the spec: the poller with the short profile. *)
Definition RetryUntil (acceptor : M W (bool * option error))
  : M W (bool * option error) :=
  retryLoop (shortTries ctx) acceptor.

(** Modelled from the spec: the poller with the long profile. *)
Definition RetryUntilLong (acceptor : M W (bool * option error))
  : M W (bool * option error) :=
  retryLoop (longTries ctx) acceptor.

(** The probe of [waitForTableState]. *)
Definition tableStateProbe (name : string) (exist : bool)
  : M W (bool * option error) :=
  d <- callDescribeTable name ;;
  match d with
  | (description, Some err) =>
      if IsAWSError err ["ResourceNotFoundException"] then ret (negb exist, None)
      else ret (false, Some err)
  | (description, None) =>
      if exist then
        desc <- deref description ;;
        tab <- deref (dto_Table desc) ;;
        if negb (String.eqb (StringValue (td_TableStatus tab)) "ACTIVE")
        then ret (false, None)
        else ret (exist, None)
      else ret (exist, None)
  end.

Definition waitForTableState (name : string) (exist : bool) : M W (option error) :=
  r <- RetryUntilLong (tableStateProbe name exist) ;;
  match r with
  | (_, Some err) => ret (Some err)
  | (succ, None) =>
      if negb succ then
        ret (Some (PlainError ("DynamoDB table '" +:+ name +:+ "' did not become "
                               +:+ (if exist then "active" else "deleted"))))
      else ret None
  end.

(** The attempt of [updateTable]. *)
Definition updateAttempt (update : UpdateTableInput) : M W (bool * option error) :=
  err <- callUpdateTable update ;;
  match err with
  | Some e =>
      if IsAWSError e ["ResourceNotFoundException"; "ResourceInUseException"]
      then ret (false, None)
      else ret (false, Some e)
  | None => ret (true, None)
  end.

Definition updateTable (name : string) (update : UpdateTableInput)
  : M W (option error) :=
  r <- RetryUntil (updateAttempt update) ;;
  match r with
  | (_, Some err) => ret (Some err)
  | (succ, None) =>
      if negb succ then
        ret (Some (PlainError ("DynamoDB table '" +:+ name +:+ "' could not be updated")))
      else
        try! waitForTableState name true ;;
        ret None
  end.

Definition Create (obj : Table) : M W (string * option error) :=
  name <- match Tab.TableName obj with
          | Some n => ret n
          | None =>
              n <- deref (Tab.Name obj) ;;
              ret (NewUniqueHex (n +:+ "-") maxTableName sha1_Size)
          end ;;
  let create :=
    {| cti_TableName := Some name;
       cti_AttributeDefinitions := attributeDefinitionsOf (Tab.Attributes obj);
       cti_KeySchema := keySchemaOf (Tab.HashKey obj) (Tab.RangeKey obj);
       cti_ProvisionedThroughput :=
         Some (throughputOf (Tab.ReadCapacity obj) (Tab.WriteCapacity obj));
       cti_GlobalSecondaryIndexes :=
         match Tab.GlobalSecondaryIndexes obj with
         | Some gsis => map indexDefinitionOf gsis
         | None => []
         end |} in
  c <- callCreateTable create ;;
  match c with
  | (_, Some err) => ret ("", Some err)
  | (resp, None) =>
      resp <- assertNotNil resp ;;
      desc <- assertNotNil (cto_TableDescription resp) ;;
      arn <- assertNotNil (td_TableArn desc) ;;
      err <- waitForTableState name true ;;
      match err with
      | Some e => ret ("", Some e)
      | None => ret (arn, None)
      end
  end.

(** The reverse mapping of one remote index description in [Get]. *)
Definition readIndex (gsid : IndexDefinition) : M W GlobalSecondaryIndex :=
  k <- liftResult (getHashRangeKeys (ix_KeySchema gsid)) ;;
  indexName <- deref (ix_IndexName gsid) ;;
  throughput <- deref (ix_ProvisionedThroughput gsid) ;;
  read <- deref (pt_ReadCapacityUnits throughput) ;;
  write <- deref (pt_WriteCapacityUnits throughput) ;;
  projection <- deref (ix_Projection gsid) ;;
  projectionType <- deref (pj_ProjectionType projection) ;;
  ret {| GSI.IndexName := indexName;
         GSI.HashKey := k.1;
         GSI.RangeKey := k.2;
         GSI.ReadCapacity := int_to_float read;
         GSI.WriteCapacity := int_to_float write;
         GSI.NonKeyAttributes := StringValueSlice (pj_NonKeyAttributes projection);
         GSI.ProjectionType := projectionType |}.

Definition Get (id : string) : M W (option Table * option error) :=
  match ParseResourceName id with
  | (name, Some err) =>
      if IsAWSError err ["ResourceNotFoundException"] then ret (None, None)
      else ret (None, Some err)
  | (name, None) =>
      d <- callDescribeTable name ;;
      match d with
      | (_, Some err) => ret (None, Some err)
      | (resp, None) =>
          resp <- assertNotNil resp ;;
          tab <- assertNotNil (dto_Table resp) ;;
          attributes <- mapM (fun attr =>
                                n <- deref (ad_AttributeName attr) ;;
                                t <- deref (ad_AttributeType attr) ;;
                                ret (mkAttribute n t))
                             (td_AttributeDefinitions tab) ;;
          k <- liftResult (getHashRangeKeys (td_KeySchema tab)) ;;
          gsis <- (if 0 <? Z.of_nat (length (td_GlobalSecondaryIndexes tab))
                   then gis <- mapM readIndex (td_GlobalSecondaryIndexes tab) ;;
                        ret (Some gis)
                   else ret None) ;;
          throughput <- deref (td_ProvisionedThroughput tab) ;;
          read <- deref (pt_ReadCapacityUnits throughput) ;;
          write <- deref (pt_WriteCapacityUnits throughput) ;;
          ret (Some {| Tab.Name := None;
                       Tab.TableName := td_TableName tab;
                       Tab.HashKey := k.1;
                       Tab.RangeKey := k.2;
                       Tab.Attributes := attributes;
                       Tab.ReadCapacity := int_to_float read;
                       Tab.WriteCapacity := int_to_float write;
                       Tab.GlobalSecondaryIndexes := gsis |}, None)
      end
  end.

(** The three index requests [Update] builds in its loops. *)
Definition createIndexUpdate (name : string) (new : Table)
    (o : globalSecondaryIndexHash) : UpdateTableInput :=
  let gsi := item o in
  {| uti_TableName := Some name;
     uti_AttributeDefinitions := attributeDefinitionsOf (Tab.Attributes new);
     uti_ProvisionedThroughput := None;
     uti_GlobalSecondaryIndexUpdates :=
       [ {| gsu_Create := Some (indexDefinitionOf gsi);
            gsu_Update := None;
            gsu_Delete := None |} ] |}.

Definition updateIndexUpdate (name : string) (o : globalSecondaryIndexHash)
  : UpdateTableInput :=
  let gsi := item o in
  {| uti_TableName := Some name;
     uti_AttributeDefinitions := [];
     uti_ProvisionedThroughput := None;
     uti_GlobalSecondaryIndexUpdates :=
       [ {| gsu_Create := None;
            gsu_Update :=
              Some (mkUpdateIndexAction (Some (GSI.IndexName gsi))
                      (Some (throughputOf (GSI.ReadCapacity gsi)
                               (GSI.WriteCapacity gsi))));
            gsu_Delete := None |} ] |}.

Definition deleteIndexUpdate (name : string) (o : globalSecondaryIndexHash)
  : UpdateTableInput :=
  let gsi := item o in
  {| uti_TableName := Some name;
     uti_AttributeDefinitions := [];
     uti_ProvisionedThroughput := None;
     uti_GlobalSecondaryIndexUpdates :=
       [ {| gsu_Create := None;
            gsu_Update := None;
            gsu_Delete := Some (mkDeleteIndexAction (Some (GSI.IndexName gsi))) |} ] |}.

Definition throughputUpdate (name : string) (new : Table) : UpdateTableInput :=
  {| uti_TableName := Some name;
     uti_AttributeDefinitions := [];
     uti_ProvisionedThroughput :=
       Some (throughputOf (Tab.ReadCapacity new) (Tab.WriteCapacity new));
     uti_GlobalSecondaryIndexUpdates := [] |}.

Definition Update (id : string) (old new : Table) (diff : ObjectDiff)
  : M W (option error) :=
  match ParseResourceName id with
  | (name, Some err) => ret (Some err)
  | (name, None) =>
      (* First modify provisioned throughput if needed. *)
      try! (if Changed diff Table_ReadCapacity || Changed diff Table_WriteCapacity
            then updateTable name (throughputUpdate name new)
            else ret None) ;;
      (* Next, delete and create global secondary indexes. *)
      if Changed diff Table_GlobalSecondaryIndexes then
        let newGlobalSecondaryIndexes :=
          newGlobalSecondaryIndexHashSet (Tab.GlobalSecondaryIndexes new) in
        let oldGlobalSecondaryIndexes :=
          newGlobalSecondaryIndexHashSet (Tab.GlobalSecondaryIndexes old) in
        let d := Diff oldGlobalSecondaryIndexes newGlobalSecondaryIndexes in
        try! forEach (Adds d)
               (fun o => updateTable name (createIndexUpdate name new o)) ;;
        try! forEach (Updates d)
               (fun o => updateTable name (updateIndexUpdate name o)) ;;
        try! forEach (Deletes d)
               (fun o => updateTable name (deleteIndexUpdate name o)) ;;
        try! waitForTableState name true ;;
        ret None
      else ret None
  end.

(** The attempt of [Delete]. *)
Definition deleteAttempt (name : string) : M W (bool * option error) :=
  err <- callDeleteTable name ;;
  match err with
  | Some e =>
      if IsAWSError e [ErrCodeResourceNotFoundException] then ret (true, None)
      else if IsAWSError e [ErrCodeResourceInUseException] then ret (false, None)
      else ret (false, Some e)
  | None => ret (true, None)
  end.

Definition Delete (id : string) : M W (option error) :=
  match ParseResourceName id with
  | (name, Some err) => ret (Some err)
  | (name, None) =>
      r <- RetryUntilLong (deleteAttempt name) ;;
      match r with
      | (_, Some err) => ret (Some err)
      | (succ, None) =>
          if negb succ then
            ret (Some (PlainError ("DynamoDB table '" +:+ name
                                   +:+ "' could not be deleted")))
          else waitForTableState name false
      end
  end.

End Provider.

(** * Vocabulary of the properties *)

(** ** Key schema readback *)

Definition isHash (e : KeySchemaElement) : Prop := kse_KeyType e = Some hashKeyAttribute.
Definition isRange (e : KeySchemaElement) : Prop := kse_KeyType e = Some rangeKeyAttribute.
Definition otherRole (e : KeySchemaElement) : Prop := ¬ isHash e ∧ ¬ isRange e.

(** A key schema as a well-formed remote state has it: every entry names its
    attribute and is a HASH or a RANGE entry, and a HASH entry is there. *)
Definition wellFormedSchema (schema : list KeySchemaElement) : Prop :=
  Forall (fun e => (isHash e ∨ isRange e) ∧ is_Some (kse_AttributeName e)) schema
  ∧ Exists isHash schema.

Definition sampleSchema : list KeySchemaElement :=
  [ mkKeySchemaElement (Some "id") (Some "HASH");
    mkKeySchemaElement (Some "created") (Some "RANGE") ].

(** ** The static rules of a table description *)

Definition inRange (lo hi n : Z) : Prop := lo ≤ n ≤ hi.

Global Instance inRange_dec lo hi n : Decision (inRange lo hi n).
Proof. unfold inRange. apply _. Defined.

Global Instance Qle_dec (x y : Q) : Decision (x <= y)%Q.
Proof. unfold Qle. apply _. Defined.

(** The rule [capacity >= 1] on a float64: NaN breaks it, as it breaks
    every comparison. *)
Definition atLeastOne (x : float64) : Prop :=
  match x with
  | Number q => (1 <= q)%Q
  | PlusInf => True
  | MinusInf | NaN => False
  end.

Global Instance atLeastOne_dec (x : float64) : Decision (atLeastOne x).
Proof. destruct x; simpl; apply _. Defined.

Definition validAttribute (a : Attribute) : Prop :=
  inRange 1 255 (len (Attribute_name a))
  ∧ Attribute_type a ∈ ["S"; "N"; "B"].

Definition validIndex (g : GlobalSecondaryIndex) : Prop :=
  inRange 3 255 (len (GSI.IndexName g))
  ∧ atLeastOne (GSI.ReadCapacity g)
  ∧ atLeastOne (GSI.WriteCapacity g).

(** A fully valid description: every listed rule holds. *)
Definition validTable (obj : Table) : Prop :=
  (∀ name, Tab.TableName obj = Some name → inRange 3 255 (len name))
  ∧ atLeastOne (Tab.ReadCapacity obj)
  ∧ atLeastOne (Tab.WriteCapacity obj)
  ∧ Forall validAttribute (Tab.Attributes obj)
  ∧ (∀ gsis, Tab.GlobalSecondaryIndexes obj = Some gsis →
       (length gsis ≤ 5)%nat ∧ Forall validIndex gsis).

(** The number of elements of [l] that break a rule. *)
Definition breaking {A} (rule : A → Prop) `{∀ a, Decision (rule a)} (l : list A) : nat :=
  length (List.filter (fun a => negb (bool_decide (rule a))) l).

(** The number of violations of the rule on [field]: each rule counts once
    for the table, and once for every attribute or index that breaks it. *)
Definition violationsOn (obj : Table) (field : PropertyKey) : nat :=
  let gsis := default [] (Tab.GlobalSecondaryIndexes obj) in
  match field with
  | Table_Name =>
      match Tab.TableName obj with
      | Some name => if decide (inRange 3 255 (len name)) then 0 else 1
      | None => 0
      end
  | Table_ReadCapacity => if decide (atLeastOne (Tab.ReadCapacity obj)) then 0 else 1
  | Table_WriteCapacity => if decide (atLeastOne (Tab.WriteCapacity obj)) then 0 else 1
  | Attribute_Name =>
      breaking (fun a => inRange 1 255 (len (Attribute_name a))) (Tab.Attributes obj)
  | Attribute_Type =>
      breaking (fun a => Attribute_type a ∈ ["S"; "N"; "B"]) (Tab.Attributes obj)
  | Table_GlobalSecondaryIndexes => if decide (length gsis ≤ 5)%nat then 0 else 1
  | GlobalSecondaryIndex_IndexName =>
      breaking (fun g => inRange 3 255 (len (GSI.IndexName g))) gsis
  | GlobalSecondaryIndex_ReadCapacity =>
      breaking (fun g => atLeastOne (GSI.ReadCapacity g)) gsis
  | GlobalSecondaryIndex_WriteCapacity =>
      breaking (fun g => atLeastOne (GSI.WriteCapacity g)) gsis
  end%nat.

(** The number of reported failures on [field]. *)
Definition errorsOn (failures : list FieldError) (field : PropertyKey) : nat :=
  length (List.filter (fun e => bool_decide (fe_field e = field)) failures).

(** ** Traces of remote calls *)

(** The value, the calls and the final world of a run. *)
Definition outcome {W A} (run : result A * list Event * W) : result A := run.1.1.
Definition calls {W A} (run : result A * list Event * W) : list Event := run.1.2.
Definition world {W A} (run : result A * list Event * W) : W := run.2.

(** Every call a computation issues, from any world, satisfies [P]. *)
Definition issuesOnly {W A} (P : Event → Prop) (m : M W A) : Prop :=
  ∀ w, Forall P (calls (m w)).

(** A describe call on table [name]. *)
Definition describes (name : string) (e : Event) : Prop :=
  ∃ resp err, e = CallDescribeTable name resp err.

(** A describe call on [name] that found the table in state ACTIVE. *)
Definition reportsActive (name : string) (e : Event) : Prop :=
  ∃ resp tab,
    e = CallDescribeTable name (Some resp) None
    ∧ dto_Table resp = Some tab
    ∧ td_TableStatus tab = Some "ACTIVE".

(** The remote answers [updateTable] retries on. *)
Definition transient (err : error) : Prop :=
  IsAWSError err ["ResourceNotFoundException"; "ResourceInUseException"] = true.

(** An UpdateTable request [u] turned down with a transient answer. *)
Definition rejected (u : UpdateTableInput) (e : Event) : Prop :=
  ∃ err, e = CallUpdateTable u (Some err) ∧ transient err.

(** The answer of one attempt of [updateTable]. *)
Definition attemptAnswer (err : option error) : bool * option error :=
  match err with
  | Some e =>
      if IsAWSError e ["ResourceNotFoundException"; "ResourceInUseException"]
      then (false, None)
      else (false, Some e)
  | None => (true, None)
  end.

(** One step carried through: the request [u], re-sent while the remote
    turned it down with a transient answer, accepted once, then describe
    calls up to one that reports the table ACTIVE. *)
Definition completeStep (name : string) (u : UpdateTableInput) (t : list Event) : Prop :=
  ∃ retries polls last,
    t = retries ++ CallUpdateTable u None :: polls ++ [last]
    ∧ Forall (rejected u) retries
    ∧ Forall (describes name) polls
    ∧ reportsActive name last.

(** One step given up: the retries ran out, or the remote answered with a
    permanent error, or the request was accepted and the wait for ACTIVE
    did not succeed. *)
Definition abortedStep (name : string) (u : UpdateTableInput) (t : list Event) : Prop :=
  Forall (rejected u) t
  ∨ (∃ retries err,
       t = retries ++ [CallUpdateTable u (Some err)]
       ∧ Forall (rejected u) retries ∧ ¬ transient err)
  ∨ (∃ retries polls,
       t = retries ++ CallUpdateTable u None :: polls
       ∧ Forall (rejected u) retries ∧ Forall (describes name) polls).

(** The calls of a run through a list of steps: complete steps in the order
    of the list, and, when the run does not get through ([ok = false]), one
    aborted step after which nothing more is issued. *)
Inductive planTrace (name : string)
  : list UpdateTableInput → bool → list Event → Prop :=
| planTrace_done : planTrace name [] true []
| planTrace_step u rest ok t ts :
    completeStep name u t →
    planTrace name rest ok ts →
    planTrace name (u :: rest) ok (t ++ ts)
| planTrace_abort u rest t :
    abortedStep name u t →
    planTrace name (u :: rest) false t.

(** Every entry of a hash set sits under its own key. *)
Definition keyed {A} `{Hashable A} (m : gmap Hash A) : Prop :=
  ∀ k o, m !! k = Some o → HashKey o = k.

(** The secondary-index names of a collection. *)
Definition indexNames (options : option (list GlobalSecondaryIndex)) : list string :=
  map GSI.IndexName (default [] options).

(** The index names of a part of the diff. *)
Definition names (part : list globalSecondaryIndexHash) : list string :=
  map HashKey part.

(** The diff [Update] computes between the old and the new collection. *)
Definition indexDiff (old new : Table) : HashSetDiff globalSecondaryIndexHash :=
  Diff (newGlobalSecondaryIndexHashSet (Tab.GlobalSecondaryIndexes old))
       (newGlobalSecondaryIndexHashSet (Tab.GlobalSecondaryIndexes new)).

(** The index steps, in the order the specification fixes: one create-index
    request per addition, one update-index-capacity request per modification,
    one delete-index request per removal. *)
Definition indexSteps (name : string) (old new : Table) : list UpdateTableInput :=
  map (createIndexUpdate name new) (Adds (indexDiff old new))
  ++ map (updateIndexUpdate name) (Updates (indexDiff old new))
  ++ map (deleteIndexUpdate name) (Deletes (indexDiff old new)).

Definition throughputStep (name : string) (new : Table) (diff : ObjectDiff)
  : list UpdateTableInput :=
  if Changed diff Table_ReadCapacity || Changed diff Table_WriteCapacity
  then [throughputUpdate name new] else [].

(** The steps [Update] goes through: it looks at the indexes only when the
    orchestrator's diff reports the collection as changed. *)
Definition issuedPlan (name : string) (old new : Table) (diff : ObjectDiff)
  : list UpdateTableInput :=
  throughputStep name new diff
  ++ (if Changed diff Table_GlobalSecondaryIndexes then indexSteps name old new else []).

(** A run through the steps of [plan] followed by describe calls only. *)
Definition runsPlan {W} (name : string) (plan : list UpdateTableInput)
    (m : M W (option error)) : Prop :=
  ∀ w, ∃ ok steps tail,
    calls (m w) = steps ++ tail
    ∧ planTrace name plan ok steps
    ∧ Forall (describes name) tail
    ∧ (ok = false → tail = [] ∧ outcome (m w) ≠ Val None)
    ∧ (outcome (m w) = Val None → ok = true).

(** An UpdateTable request the remote accepted. *)
Definition isAcceptedUpdate (e : Event) : bool :=
  match e with
  | CallUpdateTable _ None => true
  | _ => false
  end.

(** A request that creates, updates or deletes a secondary index. *)
Definition isIndexCall (e : Event) : Prop :=
  ∃ u err, e = CallUpdateTable u err ∧ uti_GlobalSecondaryIndexUpdates u ≠ [].

(** An update-index-capacity request for the index [k]. *)
Definition updatesIndexCapacity (k : string) (e : Event) : Prop :=
  ∃ u err g a,
    e = CallUpdateTable u err
    ∧ g ∈ uti_GlobalSecondaryIndexUpdates u
    ∧ gsu_Update g = Some a
    ∧ ua_IndexName a = Some k.

(** ** Sample identifiers, tables and remote worlds *)

(** An identifier parser for the samples: the name follows ["table/"]. *)
Definition sampleParseResourceName (id : string) : string * option error :=
  if String.prefix "table/" id
  then (String.substring 6 (String.length id - 6) id, None)
  else ("", Some (PlainError "not the identifier of a table")).

Definition sampleNewUniqueHex (prefix : string) (maxlen randlen : Z) : string :=
  prefix +:+ "0f3a".

Definition describedTable (name status : string) : DescribeTableOutput :=
  {| dto_Table :=
       Some {| td_TableName := Some name;
               td_TableArn := Some ("table/" +:+ name);
               td_TableStatus := Some status;
               td_AttributeDefinitions := [];
               td_KeySchema := [];
               td_ProvisionedThroughput := None;
               td_GlobalSecondaryIndexes := [] |} |}.

Definition notFound : error :=
  AwsError "ResourceNotFoundException" "Requested resource not found".
Definition inUse : error :=
  AwsError "ResourceInUseException" "Attempt to change a resource which is still in use".

(** Remote worlds for the samples; the world counts the calls made. *)

(** Every request is accepted and every table is ACTIVE. *)
Definition calmAPI : DynamoDBAPI nat :=
  {| CreateTable input n :=
       (Some {| cto_TableDescription :=
                  dto_Table (describedTable (StringValue (cti_TableName input)) "ACTIVE") |},
        None, S n);
     DescribeTable name n := (Some (describedTable name "ACTIVE"), None, S n);
     UpdateTable input n := (None, S n);
     DeleteTable name n := (None, S n) |}.

(** No table is there: describe answers not-found. *)
Definition goneAPI : DynamoDBAPI nat :=
  {| CreateTable input n := (None, Some inUse, S n);
     DescribeTable name n := (None, Some notFound, S n);
     UpdateTable input n := (Some notFound, S n);
     DeleteTable name n := (Some notFound, S n) |}.

(** The table stays in use: delete is always turned down. *)
Definition stubbornAPI : DynamoDBAPI nat :=
  {| CreateTable input n := (None, Some inUse, S n);
     DescribeTable name n := (Some (describedTable name "ACTIVE"), None, S n);
     UpdateTable input n := (Some inUse, S n);
     DeleteTable name n := (Some inUse, S n) |}.

Definition calmCtx : Context nat := mkContext nat calmAPI 2 5.
Definition goneCtx : Context nat := mkContext nat goneAPI 2 5.
Definition stubbornCtx : Context nat := mkContext nat stubbornAPI 1 3.

Definition sampleIndex (name : string) (read write : Q) : GlobalSecondaryIndex :=
  {| GSI.IndexName := name;
     GSI.HashKey := "user";
     GSI.RangeKey := None;
     GSI.ReadCapacity := Number read;
     GSI.WriteCapacity := Number write;
     GSI.NonKeyAttributes := [];
     GSI.ProjectionType := "ALL" |}.

Definition sampleTable (read write : Q) (gsis : option (list GlobalSecondaryIndex))
  : Table :=
  {| Tab.Name := Some "orders";
     Tab.TableName := Some "orders";
     Tab.HashKey := "id";
     Tab.RangeKey := None;
     Tab.Attributes := [mkAttribute "id" "S"; mkAttribute "user" "S"];
     Tab.ReadCapacity := Number read;
     Tab.WriteCapacity := Number write;
     Tab.GlobalSecondaryIndexes := gsis |}.

(** A description that is valid but for its read capacity, which is NaN. *)
Definition nanCapacityTable : Table :=
  {| Tab.Name := Some "orders";
     Tab.TableName := Some "orders";
     Tab.HashKey := "id";
     Tab.RangeKey := None;
     Tab.Attributes := [mkAttribute "id" "S"];
     Tab.ReadCapacity := NaN;
     Tab.WriteCapacity := Number 5;
     Tab.GlobalSecondaryIndexes := None |}.

(** The orchestrator's diff that reports exactly the listed properties. *)
Definition changedExactly (keys : list PropertyKey) : ObjectDiff :=
  fun k => bool_decide (k ∈ keys).

Definition ordersBefore : Table :=
  sampleTable 5 5 (Some [sampleIndex "byUser" 5 5; sampleIndex "byDate" 5 5]).
Definition ordersAfter : Table :=
  sampleTable 10 10 (Some [sampleIndex "byUser" 7 5; sampleIndex "byStatus" 5 5]).

(** Capacity raised from 5 to 10, indexes untouched. *)
Definition ordersScaled : Table :=
  sampleTable 10 10 (Some [sampleIndex "byUser" 5 5; sampleIndex "byDate" 5 5]).

(** One index whose read capacity moves from 5 to 5.5. *)
Definition fractionBefore : Table := sampleTable 5 5 (Some [sampleIndex "byUser" 5 5]).
Definition fractionAfter : Table := sampleTable 5 5 (Some [sampleIndex "byUser" (11 # 2) 5]).

(** ** Vocabulary of the delete and create claims *)

(** A DeleteTable call on [name] turned down because the table is in use. *)
Definition busyDelete (name : string) (e : Event) : Prop :=
  ∃ err, e = CallDeleteTable name (Some err)
         ∧ IsAWSError err [ErrCodeResourceNotFoundException] = false
         ∧ IsAWSError err [ErrCodeResourceInUseException] = true.

(** The answers that end the delete attempts with success: the request was
    accepted, or the table was absent already. *)
Definition acceptedOrAbsent (res : option error) : Prop :=
  res = None
  ∨ ∃ err, res = Some err ∧ IsAWSError err [ErrCodeResourceNotFoundException] = true.

(** Any other remote error. *)
Definition permanentDeleteError (err : error) : Prop :=
  IsAWSError err [ErrCodeResourceNotFoundException] = false
  ∧ IsAWSError err [ErrCodeResourceInUseException] = false.

(** The answer of one attempt of [Delete]. *)
Definition deleteAnswer (res : option error) : bool * option error :=
  match res with
  | Some e =>
      if IsAWSError e [ErrCodeResourceNotFoundException] then (true, None)
      else if IsAWSError e [ErrCodeResourceInUseException] then (false, None)
      else (false, Some e)
  | None => (true, None)
  end.

Definition couldNotDelete (name : string) : error :=
  PlainError ("DynamoDB table '" +:+ name +:+ "' could not be deleted").

(** The error of a wait that ran out of attempts. *)
Definition convergenceTimeout (name : string) (exist : bool) : error :=
  PlainError ("DynamoDB table '" +:+ name +:+ "' did not become "
              +:+ (if exist then "active" else "deleted")).

Definition isCreateCall (e : Event) : bool :=
  match e with
  | CallCreateTable _ _ _ => true
  | _ => false
  end.

Definition isDeleteCall (e : Event) : bool :=
  match e with
  | CallDeleteTable _ _ => true
  | _ => false
  end.

(** ** Reading a comparison key back *)

Definition byte_val (c : ascii) : Z := Z.of_N (N_of_ascii c).

(** The code point at the head of a UTF-8 string of up to three bytes per
    character, and the rest of the string. *)
Definition decodePrefix (s : string) : option (Z * string) :=
  match s with
  | EmptyString => None
  | String a t =>
      if byte_val a <? 0x80 then Some (byte_val a, t)
      else if byte_val a <? 0xE0 then
        match t with
        | String b t' =>
            Some (Z.lor (Z.shiftl (Z.land (byte_val a) 0x1F) 6)
                        (Z.land (byte_val b) 0x3F), t')
        | EmptyString => None
        end
      else
        match t with
        | String b (String c t') =>
            Some (Z.lor (Z.shiftl (Z.land (byte_val a) 0x0F) 12)
                    (Z.lor (Z.shiftl (Z.land (byte_val b) 0x3F) 6)
                           (Z.land (byte_val c) 0x3F)), t')
        | _ => None
        end
  end.

(** [intstring r] has one of the three shapes [decodePrefix] reads, and reads
    back as [r]. *)
Definition readsBack (r : Z) : bool :=
  match intstring r with
  | String a EmptyString => (byte_val a <? 0x80) && (byte_val a =? r)
  | String a (String b EmptyString) =>
      negb (byte_val a <? 0x80) && (byte_val a <? 0xE0)
      && (Z.lor (Z.shiftl (Z.land (byte_val a) 0x1F) 6) (Z.land (byte_val b) 0x3F) =? r)
  | String a (String b (String c EmptyString)) =>
      negb (byte_val a <? 0x80) && negb (byte_val a <? 0xE0)
      && (Z.lor (Z.shiftl (Z.land (byte_val a) 0x0F) 12)
            (Z.lor (Z.shiftl (Z.land (byte_val b) 0x3F) 6)
                   (Z.land (byte_val c) 0x3F)) =? r)
  | _ => false
  end.

(** [readsBack] on the [fuel] numbers from [r] on. *)
Fixpoint readBackFrom (fuel : nat) (r : Z) : bool :=
  match fuel with
  | O => true
  | S fuel' => readsBack r && readBackFrom fuel' (r + 1)
  end.

(** The capacities whose comparison key reads back: the code points below
    the surrogates. *)
Definition keyRange (r : Z) : Prop := 0 ≤ r < 0xD800.

Definition capacitiesInKeyRange (o : globalSecondaryIndexHash) : Prop :=
  keyRange (float_to_int (GSI.ReadCapacity (item o)))
  ∧ keyRange (float_to_int (GSI.WriteCapacity (item o))).

(** One index added and another removed. *)
Definition swapBefore : Table := sampleTable 5 5 (Some [sampleIndex "byDate" 5 5]).
Definition swapAfter : Table := sampleTable 5 5 (Some [sampleIndex "byStatus" 5 5]).

(** The kind of an UpdateTable request, and nothing for other calls. *)
Inductive RequestKind : Type :=
| ThroughputRequest
| CreateIndexRequest (index : string)
| UpdateIndexRequest (index : string)
| DeleteIndexRequest (index : string)
| WaitPoll
| OtherCall.

Definition requestKind (e : Event) : RequestKind :=
  match e with
  | CallUpdateTable u _ =>
      match uti_GlobalSecondaryIndexUpdates u with
      | [] => ThroughputRequest
      | g :: _ =>
          match gsu_Create g, gsu_Update g, gsu_Delete g with
          | Some c, _, _ => CreateIndexRequest (StringValue (ix_IndexName c))
          | None, Some a, _ => UpdateIndexRequest (StringValue (ua_IndexName a))
          | None, None, Some d => DeleteIndexRequest (StringValue (da_IndexName d))
          | None, None, None => OtherCall
          end
      end
  | CallDescribeTable _ _ _ => WaitPoll
  | _ => OtherCall
  end.

(** ** Vocabulary of the further properties *)

(** A describe answer that leaves a wait undecided: while the table is
    awaited, a not-found answer or a table in a state other than ACTIVE;
    while its absence is awaited, a table that is still described. *)
Definition notYet (name : string) (exist : bool) (e : Event) : Prop :=
  if exist then
    (∃ resp err,
       e = CallDescribeTable name resp (Some err)
       ∧ IsAWSError err ["ResourceNotFoundException"] = true)
    ∨ (∃ resp tab,
         e = CallDescribeTable name (Some resp) None
         ∧ dto_Table resp = Some tab
         ∧ StringValue (td_TableStatus tab) ≠ "ACTIVE")
  else ∃ resp, e = CallDescribeTable name resp None.

(** The describe answer that ends a wait with success: the table ACTIVE
    when it is awaited, a not-found answer when its absence is. *)
Definition reached (name : string) (exist : bool) (e : Event) : Prop :=
  if exist then reportsActive name e
  else ∃ resp err,
         e = CallDescribeTable name resp (Some err)
         ∧ IsAWSError err ["ResourceNotFoundException"] = true.

(** A describe call that failed with an error other than not-found. *)
Definition describeFailure (name : string) (err : error) (e : Event) : Prop :=
  ∃ resp,
    e = CallDescribeTable name resp (Some err)
    ∧ IsAWSError err ["ResourceNotFoundException"] = false.

(** A describe answer with neither an error nor a table. *)
Definition emptyAnswer (name : string) (e : Event) : Prop :=
  e = CallDescribeTable name None None
  ∨ ∃ resp, e = CallDescribeTable name (Some resp) None ∧ dto_Table resp = None.

Definition couldNotUpdate (name : string) : error :=
  PlainError ("DynamoDB table '" +:+ name +:+ "' could not be updated").

(** The name [Create] gives the table: the declared one, else one generated
    from the logical name. *)
Definition resolvedName (NewUniqueHex : string → Z → Z → string) (obj : Table) : string :=
  match Tab.TableName obj with
  | Some n => n
  | None => NewUniqueHex (StringValue (Tab.Name obj) +:+ "-") maxTableName sha1_Size
  end.

(** The ARN a creation response carries, if it carries one. *)
Definition responseArn (resp : option CreateTableOutput) : option string :=
  match resp with
  | Some r =>
      match cto_TableDescription r with
      | Some desc => td_TableArn desc
      | None => None
      end
  | None => None
  end.

(** What [Create] returns once the creation call was accepted with [arn],
    by the result of the wait for ACTIVE. *)
Definition createResult (arn : string) (waited : result (option error))
  : result (string * option error) :=
  match waited with
  | Val None => Val (arn, None)
  | Val (Some e) => Val ("", Some e)
  | Panic msg => Panic msg
  end.

(** The integer part of a number. *)
Definition integerPart (q : Q) : Z := Z.quot (Qnum q) (Z.pos (Qden q)).

(** A capacity as it comes back from the remote: its integer part. *)
Definition truncated (x : float64) : float64 :=
  match x with
  | Number q => Number (inject_Z (integerPart q))
  | PlusInf | MinusInf | NaN => x
  end.

(** A capacity whose integer part is an int64: a number, neither NaN nor
    an infinity, between [-2^63] and [2^63 - 1] after truncation. *)
Definition fitsInt64 (x : float64) : Prop :=
  match x with
  | Number q => - 2 ^ 63 ≤ integerPart q ≤ 2 ^ 63 - 1
  | PlusInf | MinusInf | NaN => False
  end.

(** A capacity whose integer part a float64 holds exactly: a number of at
    most 53 bits after truncation. *)
Definition exactInteger (x : float64) : Prop :=
  match x with
  | Number q => - 2 ^ 53 ≤ integerPart q ≤ 2 ^ 53
  | PlusInf | MinusInf | NaN => False
  end.

(** The capacities of a description: of the table and of every index. *)
Definition capacitiesOf (obj : Table) : list float64 :=
  Tab.ReadCapacity obj :: Tab.WriteCapacity obj
  :: flat_map (fun gsi => [GSI.ReadCapacity gsi; GSI.WriteCapacity gsi])
       (default [] (Tab.GlobalSecondaryIndexes obj)).

(** A throughput of at least one unit each way. *)
Definition throughputWithinLimits (pt : option ProvisionedThroughput) : Prop :=
  ∃ r w, pt = Some (mkProvisionedThroughput (Some r) (Some w)) ∧ 1 ≤ r ∧ 1 ≤ w.

(** A creation request within the static limits of the remote API. *)
Definition requestWithinLimits (input : CreateTableInput) : Prop :=
  throughputWithinLimits (cti_ProvisionedThroughput input)
  ∧ (length (cti_GlobalSecondaryIndexes input) ≤ 5)%nat
  ∧ Forall (fun ix =>
              (∃ n, ix_IndexName ix = Some n ∧ inRange 3 255 (len n))
              ∧ throughputWithinLimits (ix_ProvisionedThroughput ix))
           (cti_GlobalSecondaryIndexes input).

(** A capacity sent as an int64 and read back as a float64. *)
Definition sentAndRead (x : float64) : float64 := int_to_float (float_to_int x).

Definition sentAndReadIndex (gsi : GlobalSecondaryIndex) : GlobalSecondaryIndex :=
  {| GSI.IndexName := GSI.IndexName gsi;
     GSI.HashKey := GSI.HashKey gsi;
     GSI.RangeKey := GSI.RangeKey gsi;
     GSI.ReadCapacity := sentAndRead (GSI.ReadCapacity gsi);
     GSI.WriteCapacity := sentAndRead (GSI.WriteCapacity gsi);
     GSI.NonKeyAttributes := GSI.NonKeyAttributes gsi;
     GSI.ProjectionType := GSI.ProjectionType gsi |}.

(** An index as [Get] reads it back: the capacities are integers. *)
Definition truncatedIndex (gsi : GlobalSecondaryIndex) : GlobalSecondaryIndex :=
  {| GSI.IndexName := GSI.IndexName gsi;
     GSI.HashKey := GSI.HashKey gsi;
     GSI.RangeKey := GSI.RangeKey gsi;
     GSI.ReadCapacity := truncated (GSI.ReadCapacity gsi);
     GSI.WriteCapacity := truncated (GSI.WriteCapacity gsi);
     GSI.NonKeyAttributes := GSI.NonKeyAttributes gsi;
     GSI.ProjectionType := GSI.ProjectionType gsi |}.

(** A description as [Get] reads it back when the remote describes the table
    under [name] the way [Create] requested it. *)
Definition readBack (name : string) (obj : Table) : Table :=
  {| Tab.Name := None;
     Tab.TableName := Some name;
     Tab.HashKey := Tab.HashKey obj;
     Tab.RangeKey := Tab.RangeKey obj;
     Tab.Attributes := Tab.Attributes obj;
     Tab.ReadCapacity := truncated (Tab.ReadCapacity obj);
     Tab.WriteCapacity := truncated (Tab.WriteCapacity obj);
     Tab.GlobalSecondaryIndexes :=
       match default [] (Tab.GlobalSecondaryIndexes obj) with
       | [] => None
       | gsis => Some (map truncatedIndex gsis)
       end |}.

(** The remote description that repeats a creation request. *)
Definition echo (input : CreateTableInput) (arn status : option string)
  : TableDescription :=
  {| td_TableName := cti_TableName input;
     td_TableArn := arn;
     td_TableStatus := status;
     td_AttributeDefinitions := cti_AttributeDefinitions input;
     td_KeySchema := cti_KeySchema input;
     td_ProvisionedThroughput := cti_ProvisionedThroughput input;
     td_GlobalSecondaryIndexes := cti_GlobalSecondaryIndexes input |}.

(** A computation that issues no call and leaves the world as it is. *)
Definition silent {W A} (m : M W A) : Prop :=
  ∀ w, calls (m w) = [] ∧ world (m w) = w.

(** A list of calls whose last one found the table ACTIVE. *)
Definition endsActive (name : string) (t : list Event) : Prop :=
  ∃ init last, t = init ++ [last] ∧ reportsActive name last.

(** A computation that, when it returns nil, has ended on a describe call
    that found the table ACTIVE, or, where [always] is not set, may also have
    issued nothing. *)
Definition lastActive {W} (name : string) (always : bool) (m : M W (option error)) : Prop :=
  ∀ w, outcome (m w) = Val None →
       if always then endsActive name (calls (m w))
       else calls (m w) = [] ∨ endsActive name (calls (m w)).

(** An index update that carries exactly one action. *)
Definition oneAction (g : GlobalSecondaryIndexUpdate) : Prop :=
  (is_Some (gsu_Create g) ∧ gsu_Update g = None ∧ gsu_Delete g = None)
  ∨ (gsu_Create g = None ∧ is_Some (gsu_Update g) ∧ gsu_Delete g = None)
  ∨ (gsu_Create g = None ∧ gsu_Update g = None ∧ is_Some (gsu_Delete g)).

(** An UpdateTable request on table [name] that makes one change: the
    throughput of the table, or one action on one index. *)
Definition oneChange (name : string) (u : UpdateTableInput) : Prop :=
  uti_TableName u = Some name
  ∧ ((is_Some (uti_ProvisionedThroughput u) ∧ uti_GlobalSecondaryIndexUpdates u = [])
     ∨ (uti_ProvisionedThroughput u = None
        ∧ ∃ g, uti_GlobalSecondaryIndexUpdates u = [g] ∧ oneAction g)).

(** A number that [string(int(x))] renders as U+FFFD: no Unicode code point,
    or U+FFFD itself. *)
Definition rendersAsReplacement (v : Z) : Prop :=
  v < 0 ∨ 0x10FFFF < v ∨ 0xD800 ≤ v ≤ 0xDFFF ∨ v = 0xFFFD.

(** Two capacities the comparison key does not tell apart. *)
Definition sameKeyPart (a b : Z) : Prop :=
  a = b ∨ (rendersAsReplacement a ∧ rendersAsReplacement b).

(** ** Further remote worlds for the samples *)

Definition accessDenied : error :=
  AwsError "AccessDeniedException" "not authorized to perform dynamodb:DescribeTable".

(** Creation is accepted; describing a table is not permitted. *)
Definition deniedAPI : DynamoDBAPI nat :=
  {| CreateTable input n :=
       (Some {| cto_TableDescription :=
                  dto_Table (describedTable (StringValue (cti_TableName input)) "CREATING") |},
        None, S n);
     DescribeTable name n := (None, Some accessDenied, S n);
     UpdateTable input n := (None, S n);
     DeleteTable name n := (None, S n) |}.

Definition deniedCtx : Context nat := mkContext nat deniedAPI 2 5.

(** A remote that keeps the last creation request and describes the table
    from it; before any creation it knows no table. *)
Definition keepingAPI : DynamoDBAPI (option CreateTableInput) :=
  {| CreateTable input _ :=
       (Some {| cto_TableDescription :=
                  Some (echo input
                          (Some ("table/" +:+ StringValue (cti_TableName input)))
                          (Some "ACTIVE")) |},
        None, Some input);
     DescribeTable name kept :=
       match kept with
       | Some input =>
           (Some {| dto_Table := Some (echo input (Some ("table/" +:+ name))
                                         (Some "ACTIVE")) |},
            None, kept)
       | None => (None, Some notFound, kept)
       end;
     UpdateTable input kept := (None, kept);
     DeleteTable name kept := (None, None) |}.

Definition keepingCtx : Context (option CreateTableInput) :=
  mkContext (option CreateTableInput) keepingAPI 2 5.

(** Two tables with one index each, whose read capacities are two different
    surrogate code points. *)
Definition surrogateBefore : Table := sampleTable 5 5 (Some [sampleIndex "byUser" 55296 5]).
Definition surrogateAfter : Table := sampleTable 5 5 (Some [sampleIndex "byUser" 57343 5]).

(** * Vocabulary of the update sequence *)

(** ** The requests, after section 4.5 of the specification *)

(** The capacity units of a request: the two capacities as integers. *)
Definition capacityUnits (read write : float64) : option ProvisionedThroughput :=
  Some {| pt_ReadCapacityUnits := Some (float_to_int read);
          pt_WriteCapacityUnits := Some (float_to_int write) |}.

(** Step 1: a throughput-only update of table [name], to the capacity of the
    new description. *)
Definition throughputOnly (name : string) (new : Table) (u : UpdateTableInput) : Prop :=
  uti_TableName u = Some name
  ∧ uti_ProvisionedThroughput u
    = capacityUnits (Tab.ReadCapacity new) (Tab.WriteCapacity new)
  ∧ uti_AttributeDefinitions u = []
  ∧ uti_GlobalSecondaryIndexUpdates u = [].








(** ** Runs through the requests *)

Section Sequence.
Context {W : Type} (ctx : Context W).

(** A wait for ACTIVE that succeeds: describe calls that leave it undecided,
    fewer than the long profile has attempts, and one that finds the table
    ACTIVE. *)
Definition waitSucceeded (name : string) (t : list Event) : Prop :=
  ∃ pending last,
    t = pending ++ [last]
    ∧ Forall (notYet name true) pending
    ∧ (length pending < longTries ctx)%nat
    ∧ reportsActive name last.

(** A wait for ACTIVE that fails, with what it returns: the long profile is
    used up by undecided answers, or a describe call fails with an error
    other than not-found, or it answers with neither error nor table. *)
Definition waitFailed (name : string) (t : list Event) (r : result (option error))
  : Prop :=
  (Forall (notYet name true) t
   ∧ length t = longTries ctx
   ∧ r = Val (Some (convergenceTimeout name true)))
  ∨ (∃ pending last err,
       t = pending ++ [last]
       ∧ Forall (notYet name true) pending
       ∧ (length pending < longTries ctx)%nat
       ∧ describeFailure name err last
       ∧ r = Val (Some err))
  ∨ (∃ pending last msg,
       t = pending ++ [last]
       ∧ Forall (notYet name true) pending
       ∧ (length pending < longTries ctx)%nat
       ∧ emptyAnswer name last
       ∧ r = Panic msg).

(** One step carried through: the request, re-sent after each transient
    answer and fewer times than the short profile has attempts, accepted
    once, and then a wait for ACTIVE that succeeds. *)
Definition stepCarried (name : string) (u : UpdateTableInput) (t : list Event) : Prop :=
  ∃ retries polls,
    t = retries ++ CallUpdateTable u None :: polls
    ∧ Forall (rejected u) retries
    ∧ (length retries < shortTries ctx)%nat
    ∧ waitSucceeded name polls.

(** One step given up, with what the run returns: the short profile is used
    up by transient answers, or the remote answers with another error, or the
    request is accepted and the wait for ACTIVE fails. *)
Definition stepGivenUp (name : string) (u : UpdateTableInput) (t : list Event)
    (r : result (option error)) : Prop :=
  (Forall (rejected u) t
   ∧ length t = shortTries ctx
   ∧ r = Val (Some (couldNotUpdate name)))
  ∨ (∃ retries err,
       t = retries ++ [CallUpdateTable u (Some err)]
       ∧ Forall (rejected u) retries
       ∧ (length retries < shortTries ctx)%nat
       ∧ ¬ transient err
       ∧ r = Val (Some err))
  ∨ (∃ retries polls,
       t = retries ++ CallUpdateTable u None :: polls
       ∧ Forall (rejected u) retries
       ∧ (length retries < shortTries ctx)%nat
       ∧ waitFailed name polls r).


(** How a run ends once every step is carried through: with one more wait
    for ACTIVE, whose result is the result of the run. *)
Definition endsWithWait (name : string) (t : list Event) (r : result (option error))
  : Prop :=
  (waitSucceeded name t ∧ r = Val None) ∨ waitFailed name t r.



End Sequence.

(** The calls [t], issued one after the other from the world [w], were
    answered by the remote as recorded and left it in the world [w']. *)
Fixpoint answered {W} (api : DynamoDBAPI W) (t : list Event) (w w' : W) : Prop :=
  match t with
  | [] => w' = w
  | CallCreateTable input resp err :: rest =>
      ∃ w1, CreateTable api input w = (resp, err, w1) ∧ answered api rest w1 w'
  | CallDescribeTable name resp err :: rest =>
      ∃ w1, DescribeTable api name w = (resp, err, w1) ∧ answered api rest w1 w'
  | CallUpdateTable input err :: rest =>
      ∃ w1, UpdateTable api input w = (err, w1) ∧ answered api rest w1 w'
  | CallDeleteTable name err :: rest =>
      ∃ w1, DeleteTable api name w = (err, w1) ∧ answered api rest w1 w'
  end.

(** A computation whose calls are answered by the remote as recorded. *)
Definition faithful {W A} (api : DynamoDBAPI W) (m : M W A) : Prop :=
  ∀ w, answered api (calls (m w)) w (world (m w)).

(** A remote that turns the first UpdateTable request down as in use and
    accepts the later ones; every table is ACTIVE.  The world counts the
    calls made. *)
Definition busyOnceAPI : DynamoDBAPI nat :=
  {| CreateTable input n := (None, Some inUse, S n);
     DescribeTable name n := (Some (describedTable name "ACTIVE"), None, S n);
     UpdateTable input n := (match n with O => Some inUse | S _ => None end, S n);
     DeleteTable name n := (None, S n) |}.

Definition busyOnceCtx : Context nat := mkContext nat busyOnceAPI 2 5.

(** Whether a call is an UpdateTable request that changes the throughput of
    the table and no index. *)
Definition isThroughputCall (e : Event) : bool :=
  match e with
  | CallUpdateTable u _ =>
      match uti_ProvisionedThroughput u, uti_GlobalSecondaryIndexUpdates u with
      | Some _, [] => true
      | _, _ => false
      end
  | _ => false
  end.
(** * The program test harness (pkg/testing/integration/lumiprogram.go)

    Conventions: a [[]byte] is a list of bytes ([list ascii]); an [io.Writer]
    answers a write from its state and moves it; the test handle
    [testing.T] is the list of the errors reported through
    [assert.NoError]; [exec.LookPath] and [exec.Cmd.Run] are the
    environment of the test; [fmt.Printf] progress lines are not
    modelled. *)

Module integration.

(** [io.Writer]: [Write(p) (n int, err error)]. *)
Record Writer (S : Type) : Type := mkWriter {
  Write : list ascii → S → Z * option error * S }.
Arguments Write {S} _ _ _.

Record prefixer (S : Type) : Type := mkPrefixer {
  writer : Writer S;
  prefix : list ascii;
  anyOutput : bool }.
Arguments mkPrefixer {S} _ _ _.
Arguments writer {S} _.
Arguments prefix {S} _.
Arguments anyOutput {S} _.

(** [newPrefixer] wraps an [io.Writer]. *)
Definition newPrefixer {S} (writer : Writer S) (prefix : string) : prefixer S :=
  mkPrefixer writer (list_ascii_of_string prefix) false.

Definition newline : ascii := "010"%char.

(** [bytes.SplitAfter(p, []byte{'\n'})]: the pieces of [p], each ending
    after a newline, and the rest after the last newline, empty or not. *)
Fixpoint SplitAfter (p : list ascii) : list (list ascii) :=
  match p with
  | [] => [[]]
  | c :: rest =>
      if Ascii.eqb c newline then [c] :: SplitAfter rest
      else match SplitAfter rest with
           | line :: lines => (c :: line) :: lines
           | [] => [[c]]
           end
  end.

(** The loop of [prefixer.Write] over the lines, with the count so far. *)
Fixpoint Write_lines {S} (pre : prefixer S) (lines : list (list ascii)) (n : Z) (s : S)
  : Z * option error * S :=
  match lines with
  | [] => (n, None, s)
  | line :: rest =>
      match
        (if 0 <? Z.of_nat (length line)
         then match Write (writer pre) (prefix pre) s with
              | (_, err, s1) => (err, s1)
              end
         else (None, s))
      with
      | (Some err, s1) => (n, Some err, s1)
      | (None, s1) =>
          match Write (writer pre) line s1 with
          | (m, Some err, s2) => (n + m, Some err, s2)
          | (m, None, s2) => Write_lines pre rest (n + m) s2
          end
      end
  end.

(** [prefixer.Write]. *)
Definition prefixer_Write {S} (pre : prefixer S) (p : list ascii) (s : S)
  : Z * option error * S :=
  Write_lines pre (SplitAfter p) 0 s.

(** [exec.Cmd], with the fields [runCmd] sets. *)
Record Cmd (S : Type) : Type := mkCmd {
  Path : string;
  Dir : string;
  Args : list string;
  Stdout : prefixer S;
  Stderr : prefixer S }.
Arguments mkCmd {S} _ _ _ _ _.
Arguments Path {S} _.
Arguments Dir {S} _.
Arguments Args {S} _.
Arguments Stdout {S} _.
Arguments Stderr {S} _.

Record LumiProgramTestOptions : Type := mkOptions {
  Dependencies : list string;
  Config : gmap string string }.

(** The state of a test run: the world the commands act on, the errors
    reported on the test handle, and the commands run, oldest first. *)
Record Harness (S Wd : Type) : Type := mkHarness {
  hworld : Wd;
  failures : list error;
  commands : list (Cmd S) }.
Arguments mkHarness {S Wd} _ _ _.
Arguments hworld {S Wd} _.
Arguments failures {S Wd} _.
Arguments commands {S Wd} _.

Section Test.
Context {S Wd : Type}.

(** The environment: [exec.LookPath], [exec.Cmd.Run], the standard
    streams, [fmt.Sprintf("[ %30.30s ] ", _)], and the order in which
    [range] visits the entries of a map, which the language leaves open. *)
Variable LookPath : string → string * option error.
Variable mapRange : gmap string string → list (string * string).
Variable Run : Cmd S → Wd → option error * Wd.
Variable os_Stdout : Writer S.
Variable os_Stderr : Writer S.
Variable formatPrefix : string → string.

(** A step of the test: it yields a value or panics, and moves the state. *)
Definition H (A : Type) : Type := Harness S Wd → result A * Harness S Wd.

Definition hret {A} (a : A) : H A := fun h => (Val a, h).

Definition hbind {A B} (m : H A) (f : A → H B) : H B :=
  fun h =>
    match m h with
    | (Val a, h') => f a h'
    | (Panic msg, h') => (Panic msg, h')
    end.

(** [assert.NoError(t, err, ...)]: reports [err] when it is not nil, and
    tells whether it was nil. *)
Definition assert_NoError (err : option error) : H bool :=
  fun h =>
    match err with
    | None => (Val true, h)
    | Some e => (Val false, mkHarness (hworld h) (failures h ++ [e]) (commands h))
    end.

Definition runCmd (args : list string) (wd : string) (stdout stderr : prefixer S)
  : H unit :=
  match args with
  | [] => fun h => (Panic "index out of range [0] with length 0", h)
  | path :: _ =>
      fun h =>
        let cmd := mkCmd path wd args stdout stderr in
        match Run cmd (hworld h) with
        | (err, w') =>
            hbind (assert_NoError err) (fun _ => hret tt)
              (mkHarness w' (failures h) (commands h ++ [cmd]))
        end
  end.

(** [for _, x := range l { body(x) }]. *)
Fixpoint hforEach {A} (l : list A) (body : A → H unit) : H unit :=
  match l with
  | [] => hret tt
  | x :: rest => hbind (body x) (fun _ => hforEach rest body)
  end.

(** [programDir[len(programDir)-30:]]: the slice expression panics when the
    lower bound is negative. *)
Definition lastThirty (programDir : string) : H string :=
  if Z.of_nat (String.length programDir) <? 30
  then fun h => (Panic "slice bounds out of range", h)
  else hret (String.substring (String.length programDir - 30) 30 programDir).

Definition LumiProgramTest (programDir : string) (options : LumiProgramTestOptions)
  : H unit :=
  match LookPath "lumijs" with
  | (lumijs, err) =>
      hbind (assert_NoError err) (fun ok =>
      if negb ok then hret tt else
      match LookPath "lumi" with
      | (lumi, err) =>
          hbind (assert_NoError err) (fun ok =>
          if negb ok then hret tt else
          match LookPath "yarn" with
          | (yarn, err) =>
              hbind (assert_NoError err) (fun ok =>
              if negb ok then hret tt else
              hbind (lastThirty programDir) (fun dir =>
              let prefix := formatPrefix dir in
              let stdout := newPrefixer os_Stdout prefix in
              let stderr := newPrefixer os_Stderr prefix in
              hbind (hforEach (Dependencies options) (fun dependency =>
                       runCmd [yarn; "link"; dependency] programDir stdout stderr))
                (fun _ =>
              hbind (runCmd [lumijs; "--verbose"] programDir stdout stderr) (fun _ =>
              hbind (runCmd [lumi; "env"; "init"; "integrationtesting"]
                       programDir stdout stderr) (fun _ =>
              hbind (hforEach (mapRange (Config options)) (fun kv =>
                       runCmd [lumi; "config"; kv.1; kv.2] programDir stdout stderr))
                (fun _ =>
              hbind (runCmd [lumi; "plan"] programDir stdout stderr) (fun _ =>
              hbind (runCmd [lumi; "deploy"] programDir stdout stderr) (fun _ =>
              hbind (runCmd [lumi; "plan"] programDir stdout stderr) (fun _ =>
              hbind (runCmd [lumi; "deploy"] programDir stdout stderr) (fun _ =>
              hbind (runCmd [lumi; "destroy"; "--yes"] programDir stdout stderr)
                (fun _ =>
              runCmd [lumi; "env"; "rm"; "--yes"; "integrationtesting"]
                programDir stdout stderr)))))))))))
          end)
      end)
  end.

End Test.

(** ** Vocabulary of the harness properties *)

(** The text [p] with [pre] put before every line of it; [atStart] tells
    whether [p] starts at the beginning of a line. *)
Fixpoint prefixed (pre : list ascii) (atStart : bool) (p : list ascii) : list ascii :=
  match p with
  | [] => []
  | c :: rest =>
      (if atStart then pre else []) ++ c :: prefixed pre (Ascii.eqb c newline) rest
  end.

(** Whether the text after [p] starts a line: [p] is empty or ends in a
    newline. *)
Definition atLineStart (p : list ascii) : bool :=
  match last p with
  | None => true
  | Some c => Ascii.eqb c newline
  end.

(** A writer that keeps all it is given. *)
Definition bufferWriter : Writer (list ascii) :=
  mkWriter (list ascii) (fun p s => (Z.of_nat (length p), None, s ++ p)).

(** The contract of [io.Writer]: a write reports between 0 and [len(p)]
    bytes, and fewer than [len(p)] only together with an error. *)
Definition obeysContract {S} (write : list ascii → S → Z * option error * S) : Prop :=
  ∀ q s, 0 ≤ (write q s).1.1 ≤ Z.of_nat (length q)
         ∧ ((write q s).1.2 = None → (write q s).1.1 = Z.of_nat (length q)).

(** The argument lists of the workflow, in order. *)
Definition workflow (lumijs lumi yarn : string) (dependencies : list string)
    (config : list (string * string)) : list (list string) :=
  map (fun dependency => [yarn; "link"; dependency]) dependencies
  ++ [[lumijs; "--verbose"]; [lumi; "env"; "init"; "integrationtesting"]]
  ++ map (fun kv : string * string => [lumi; "config"; kv.1; kv.2]) config
  ++ [[lumi; "plan"]; [lumi; "deploy"]; [lumi; "plan"]; [lumi; "deploy"];
      [lumi; "destroy"; "--yes"];
      [lumi; "env"; "rm"; "--yes"; "integrationtesting"]].

(** Running commands one after the other, whatever each returns: the errors
    returned, in order, and the world left. *)
Fixpoint runAll {S Wd} (Run : Cmd S → Wd → option error * Wd) (cmds : list (Cmd S))
    (w : Wd) : list error * Wd :=
  match cmds with
  | [] => ([], w)
  | cmd :: rest =>
      match Run cmd w with
      | (err, w1) =>
          match runAll Run rest w1 with
          | (errs, w2) => (match err with Some e => [e] | None => [] end ++ errs, w2)
          end
      end
  end.

(** The command [runCmd] builds from an argument list. *)
Definition commandOf {S} (wd : string) (stdout stderr : prefixer S) (args : list string)
  : Cmd S :=
  mkCmd (default "" (head args)) wd args stdout stderr.

(** The state of a test after [cmds] were run one after the other: the
    world they left, their errors reported, and the commands recorded. *)
Definition afterRunning {S Wd} (Run : Cmd S → Wd → option error * Wd)
    (cmds : list (Cmd S)) (h : Harness S Wd) : Harness S Wd :=
  mkHarness (runAll Run cmds (hworld h)).2
            (failures h ++ (runAll Run cmds (hworld h)).1)
            (commands h ++ cmds).

(** The last thirty bytes of a path. *)
Definition lastBytes (programDir : string) : string :=
  String.substring (String.length programDir - 30) 30 programDir.

(** ** A sample environment *)

Definition notInPath : error := PlainError "executable file not found in $PATH".

(** Every binary is found under [/usr/bin]. *)
Definition allFound (name : string) : string * option error :=
  ("/usr/bin/" +:+ name, None).

(** Only [lumijs] is found. *)
Definition onlyLumijs (name : string) : string * option error :=
  if String.eqb name "lumijs" then ("/usr/bin/lumijs", None) else ("", Some notInPath).

(** Commands that all succeed but [deploy]; the world counts the commands
    run. *)
Definition sampleRun (cmd : Cmd (list ascii)) (n : nat) : option error * nat :=
  (match Args cmd with
   | [_; "deploy"] => Some (PlainError "exit status 1")
   | _ => None
   end, Datatypes.S n).

Definition sampleFormatPrefix (dir : string) : string := "[ " +:+ dir +:+ " ] ".

Definition sampleMapRange (m : gmap string string) : list (string * string) :=
  map_to_list m.

Definition sampleOptions : LumiProgramTestOptions :=
  mkOptions ["@lumi/lumi"; "@lumi/aws"] {[ "aws:config:region" := "us-east-2" ]}.

Definition sampleDir : string := "/home/dev/lumi/examples/scenarios/aws/minimal".

Definition freshHarness : Harness (list ascii) nat := mkHarness 0%nat [] [].

End integration.


(** * Properties *)

(** ** Key schema readback *)

Lemma role_cases (e : KeySchemaElement) : isHash e ∨ isRange e ∨ otherRole e.
Proof.
  unfold otherRole, isHash, isRange.
  destruct (decide (kse_KeyType e = Some hashKeyAttribute)); [by left|].
  destruct (decide (kse_KeyType e = Some rangeKeyAttribute)); [by right; left|].
  by right; right.
Qed.

Lemma loop_step_hash e rest hk rk :
  isHash e →
  getHashRangeKeys_loop (e :: rest) hk rk
  = getHashRangeKeys_loop rest (kse_AttributeName e) rk.
Proof. unfold isHash. intros He. simpl. by rewrite He. Qed.

Lemma loop_step_range e rest hk rk :
  isRange e →
  getHashRangeKeys_loop (e :: rest) hk rk
  = getHashRangeKeys_loop rest hk (kse_AttributeName e).
Proof. unfold isRange. intros He. simpl. by rewrite He. Qed.

Lemma loop_step_other e rest hk rk :
  otherRole e → ∃ msg, getHashRangeKeys_loop (e :: rest) hk rk = Panic msg.
Proof.
  unfold otherRole, isHash, isRange. intros [Hh Hr]. simpl.
  destruct (kse_KeyType e) as [kt|]; [|eauto].
  destruct (String.eqb_spec kt hashKeyAttribute) as [->|_]; [done|].
  destruct (String.eqb_spec kt rangeKeyAttribute) as [->|_]; [done|].
  eauto.
Qed.

Lemma loop_other_panics schema hk rk :
  Exists otherRole schema → ∃ msg, getHashRangeKeys_loop schema hk rk = Panic msg.
Proof.
  intros Hex. revert hk rk.
  induction schema as [|e rest IH]; intros hk rk; [by apply Exists_nil in Hex|].
  destruct (role_cases e) as [He|[He|He]].
  - rewrite loop_step_hash by done. apply IH.
    apply Exists_cons in Hex as [[Hn _]|]; [by destruct Hn|done].
  - rewrite loop_step_range by done. apply IH.
    apply Exists_cons in Hex as [[_ Hn]|]; [by destruct Hn|done].
  - by apply loop_step_other.
Qed.

(** What the loop hands back: the pointer it started with when no entry of
    the role occurs, the name of an entry of that role otherwise. *)
Lemma loop_val schema hk rk h r :
  getHashRangeKeys_loop schema hk rk = Val (h, r) →
  Forall (fun e => isHash e ∨ isRange e) schema
  ∧ ((h = hk ∧ ¬ Exists isHash schema)
     ∨ ∃ e, e ∈ schema ∧ isHash e ∧ kse_AttributeName e = h)
  ∧ ((r = rk ∧ ¬ Exists isRange schema)
     ∨ ∃ e, e ∈ schema ∧ isRange e ∧ kse_AttributeName e = r).
Proof.
  revert hk rk. induction schema as [|e rest IH]; intros hk rk Hrun.
  - simpl in Hrun. injection Hrun as -> ->.
    split; [constructor|]. split; left; (split; [done|by intros ?%Exists_nil]).
  - destruct (role_cases e) as [He|[He|He]].
    + rewrite loop_step_hash in Hrun by done.
      destruct (IH _ _ Hrun) as (Hall & Hh & Hr). split; [constructor; auto|]. split.
      * right. destruct Hh as [[-> _]|(e' & Hin & He' & Hn)].
        -- exists e. split; [left|done].
        -- exists e'. split; [by right|done].
      * destruct Hr as [[-> Hno]|(e' & Hin & He' & Hn)].
        -- left. split; [done|]. intros [Hr|]%Exists_cons; [|done].
           unfold isHash, isRange in *. rewrite He in Hr. discriminate.
        -- right. exists e'. split; [by right|done].
    + rewrite loop_step_range in Hrun by done.
      destruct (IH _ _ Hrun) as (Hall & Hh & Hr). split; [constructor; auto|]. split.
      * destruct Hh as [[-> Hno]|(e' & Hin & He' & Hn)].
        -- left. split; [done|]. intros [Hh|]%Exists_cons; [|done].
           unfold isHash, isRange in *. rewrite He in Hh. discriminate.
        -- right. exists e'. split; [by right|done].
      * right. destruct Hr as [[-> _]|(e' & Hin & He' & Hn)].
        -- exists e. split; [left|done].
        -- exists e'. split; [by right|done].
    + destruct (loop_step_other e rest hk rk He) as [msg Hp]. congruence.
Qed.

(** On entries that all name their attribute, the loop ends with the HASH
    pointer set as soon as a HASH entry occurs or it was set before. *)
Lemma loop_well_formed schema hk rk :
  Forall (fun e => (isHash e ∨ isRange e) ∧ is_Some (kse_AttributeName e)) schema →
  is_Some hk ∨ Exists isHash schema →
  ∃ h r, getHashRangeKeys_loop schema hk rk = Val (Some h, r).
Proof.
  revert hk rk. induction schema as [|e rest IH]; intros hk rk Hall Hh.
  - destruct Hh as [[h ->]|Hex]; [by eexists _, _|by apply Exists_nil in Hex].
  - apply Forall_cons in Hall as [[Hrole Hname] Hall]. destruct Hrole as [He|He].
    + rewrite loop_step_hash by done. apply IH; [done|by left].
    + rewrite loop_step_range by done. apply IH; [done|].
      destruct Hh as [?|[Hh|?]%Exists_cons]; [by left| |by right].
      unfold isHash, isRange in *. rewrite He in Hh. discriminate.
Qed.

(** C7: [getHashRangeKeys] recovers exactly one partition key and at most one
    sort key, each the attribute name of a HASH, respectively RANGE, entry of
    the schema; an entry with any other role, or a schema without HASH entry,
    makes it panic; on a well-formed schema it does not fail. *)
Theorem getHashRangeKeys_recovers_keys (schema : list KeySchemaElement) :
  (Exists otherRole schema → ∃ msg, getHashRangeKeys schema = Panic msg)
  ∧ (¬ Exists isHash schema → ∃ msg, getHashRangeKeys schema = Panic msg)
  ∧ (∀ (h : string) (r : option string),
       getHashRangeKeys schema = Val (h, r) →
       Forall (fun e => isHash e ∨ isRange e) schema
       ∧ (∃ e, e ∈ schema ∧ isHash e ∧ kse_AttributeName e = Some h)
       ∧ (r = None ∨ ∃ e, e ∈ schema ∧ isRange e ∧ kse_AttributeName e = r))
  ∧ (wellFormedSchema schema →
       ∃ (h : string) (r : option string), getHashRangeKeys schema = Val (h, r)).
Proof.
  unfold getHashRangeKeys. split; [|split; [|split]].
  - intros Hex. destruct (loop_other_panics schema None None Hex) as [msg ->]. eauto.
  - intros Hno.
    destruct (getHashRangeKeys_loop schema None None) as [[[h|] r]|msg] eqn:Hrun; eauto.
    apply loop_val in Hrun as (_ & [[? _]|(e & Hin & He & _)] & _); [done|].
    destruct Hno. apply Exists_exists. eauto.
  - intros h r Hret.
    destruct (getHashRangeKeys_loop schema None None) as [[[h'|] r']|msg] eqn:Hrun;
      try discriminate.
    injection Hret as -> ->.
    apply loop_val in Hrun as (Hall & Hh & Hr). split; [done|]. split.
    + destruct Hh as [[? _]|(e & Hin & He & Hn)]; [done|eauto].
    + destruct Hr as [[-> _]|(e & Hin & He & Hn)]; [by left|eauto].
  - intros [Hall Hex].
    destruct (loop_well_formed schema None None Hall (or_intror Hex)) as (h & r & ->).
    eauto.
Qed.

Lemma getHashRangeKeys_recovers_keys_witness :
  wellFormedSchema sampleSchema
  ∧ ∃ (h : string) (r : option string), getHashRangeKeys sampleSchema = Val (h, r).
Proof.
  assert (Hwf : wellFormedSchema sampleSchema).
  { split.
    - repeat constructor; try (by left); try (by right); by eexists.
    - by left. }
  split; [exact Hwf|].
  exact (proj2 (proj2 (proj2 (getHashRangeKeys_recovers_keys sampleSchema))) Hwf).
Defined.

(** ** Check *)

Lemma errorsOn_app (l1 l2 : list FieldError) (f : PropertyKey) :
  errorsOn (l1 ++ l2) f = (errorsOn l1 f + errorsOn l2 f)%nat.
Proof. unfold errorsOn. by rewrite List.filter_app, length_app. Qed.

Lemma errorsOn_nil_iff (l : list FieldError) : l = [] ↔ ∀ f, errorsOn l f = 0%nat.
Proof.
  split; [by intros ->|]. intros Hall. destruct l as [|e l]; [done|].
  specialize (Hall (fe_field e)). unfold errorsOn in Hall. simpl in Hall.
  by rewrite bool_decide_eq_true_2 in Hall.
Qed.

Lemma breaking_cons {A} (rule : A → Prop) `{∀ a, Decision (rule a)} (a : A) (l : list A) :
  breaking rule (a :: l)
  = ((if decide (rule a) then 0 else 1) + breaking rule l)%nat.
Proof.
  unfold breaking. simpl. destruct (decide (rule a)) as [Ha|Ha].
  - by rewrite bool_decide_eq_true_2.
  - by rewrite bool_decide_eq_false_2.
Qed.

Lemma breaking_zero_iff {A} (rule : A → Prop) `{∀ a, Decision (rule a)} (l : list A) :
  breaking rule l = 0%nat ↔ Forall rule l.
Proof.
  induction l as [|a l IH]; [by split; [constructor|]|].
  rewrite breaking_cons, Forall_cons. destruct (decide (rule a)); [|split; [lia|tauto]].
  simpl. rewrite IH. tauto.
Qed.

(** A loop that appends the failures of each element reports, on a field,
    the number of elements breaking that field's rule. *)
Lemma errorsOn_each {A} (check : A → list FieldError) (f : PropertyKey)
    (rule : A → Prop) `{∀ a, Decision (rule a)} (l : list A) :
  Forall (fun a => errorsOn (check a) f = if decide (rule a) then 0 else 1)%nat l →
  errorsOn (concat (map check l)) f = breaking rule l.
Proof.
  induction 1 as [|a l Hone _ IH]; [done|].
  simpl. by rewrite errorsOn_app, breaking_cons, Hone, IH.
Qed.

Lemma errorsOn_each_none {A} (check : A → list FieldError) (f : PropertyKey)
    (l : list A) :
  (∀ a, errorsOn (check a) f = 0%nat) → errorsOn (concat (map check l)) f = 0%nat.
Proof.
  intros Hone. induction l as [|a l IH]; [done|].
  simpl. by rewrite errorsOn_app, Hone, IH.
Qed.

(** On every float64 but NaN, [x < 1] is the failure of [x >= 1]. *)
Lemma float_lt_const_one (x : float64) :
  x ≠ NaN → float_lt_const x 1 = true ↔ ¬ atLeastOne x.
Proof.
  destruct x as [q| | |]; simpl; [|by intuition..].
  intros _. unfold Qle. simpl. rewrite Z.ltb_lt.
  destruct (Qden q); lia.
Qed.

Lemma validAttributeType_spec (ty : string) :
  validAttributeType ty = true ↔ ty ∈ ["S"; "N"; "B"].
Proof.
  unfold validAttributeType. rewrite !orb_true_iff, !String.eqb_eq.
  rewrite !elem_of_cons, elem_of_nil. tauto.
Qed.

(** The two length tests of a name fire together on no name, and one of
    them fires exactly when the length is out of range. *)
Lemma errorsOn_length_checks (n lo hi : Z) (e1 e2 : FieldError) (f : PropertyKey) :
  lo ≤ hi → fe_field e1 = f → fe_field e2 = f →
  (errorsOn (failing (n <? lo)%Z e1) f + errorsOn (failing (hi <? n)%Z e2) f)%nat
  = if decide (inRange lo hi n) then 0%nat else 1%nat.
Proof.
  intros Hle H1 H2. unfold failing, errorsOn, inRange.
  destruct (Z.ltb_spec n lo), (Z.ltb_spec hi n); simpl;
    rewrite ?bool_decide_eq_true_2 by done; case_decide; simpl; lia.
Qed.

Lemma errorsOn_failing (c : bool) (e : FieldError) (f : PropertyKey) :
  errorsOn (failing c e) f
  = if c && bool_decide (fe_field e = f) then 1%nat else 0%nat.
Proof. unfold errorsOn, failing. destruct c; simpl; [|done]. by case_bool_decide. Qed.

Lemma errorsOn_capacity (x : float64) (e : FieldError) (f : PropertyKey) :
  x ≠ NaN →
  fe_field e = f →
  errorsOn (failing (float_lt_const x 1) e) f
  = if decide (atLeastOne x) then 0%nat else 1%nat.
Proof.
  intros Hx He. rewrite errorsOn_failing, bool_decide_eq_true_2, andb_true_r by done.
  destruct (float_lt_const x 1) eqn:Hlt; case_decide; try done.
  - by apply float_lt_const_one in Hlt.
  - by apply float_lt_const_one in H; [rewrite H in Hlt|].
Qed.

Lemma capacity_flag (x : float64) (b : bool) :
  x ≠ NaN →
  (if float_lt_const x 1 && b then 1%nat else 0%nat)
  = if b then if decide (atLeastOne x) then 0%nat else 1%nat else 0%nat.
Proof.
  intros Hx.
  destruct b; [|by rewrite andb_false_r]. rewrite andb_true_r.
  destruct (float_lt_const x 1) eqn:Hlt; case_decide; try done.
  - by apply float_lt_const_one in Hlt.
  - by apply float_lt_const_one in H; [rewrite H in Hlt|].
Qed.

Lemma errorsOn_other (c : bool) (e : FieldError) (f : PropertyKey) :
  fe_field e ≠ f → errorsOn (failing c e) f = 0%nat.
Proof.
  intros He. rewrite errorsOn_failing, bool_decide_eq_false_2 by done.
  by rewrite andb_false_r.
Qed.

Lemma checkAttribute_errors (a : Attribute) (f : PropertyKey) :
  errorsOn (checkAttribute a) f
  = match f with
    | Attribute_Name =>
        if decide (inRange 1 255 (len (Attribute_name a))) then 0%nat else 1%nat
    | Attribute_Type =>
        if decide (Attribute_type a ∈ ["S"; "N"; "B"]) then 0%nat else 1%nat
    | _ => 0%nat
    end.
Proof.
  unfold checkAttribute, minTableAttributeName, maxTableAttributeName.
  rewrite !errorsOn_app, Nat.add_assoc.
  destruct (decide (f = Attribute_Name)) as [->|Hn].
  { rewrite errorsOn_length_checks by (done || lia).
    rewrite errorsOn_other by done. lia. }
  rewrite !(errorsOn_other _ _ f) by (simpl; congruence). simpl.
  destruct (decide (f = Attribute_Type)) as [->|Ht].
  { rewrite errorsOn_failing. simpl. rewrite andb_true_r.
    destruct (validAttributeType (Attribute_type a)) eqn:Hv; case_decide; try done.
    - by apply validAttributeType_spec in Hv.
    - by apply validAttributeType_spec in H; rewrite H in Hv. }
  rewrite errorsOn_other by (simpl; congruence). by destruct f.
Qed.

Lemma checkGlobalSecondaryIndex_errors (g : GlobalSecondaryIndex) (f : PropertyKey) :
  GSI.ReadCapacity g ≠ NaN →
  GSI.WriteCapacity g ≠ NaN →
  errorsOn (checkGlobalSecondaryIndex g) f
  = match f with
    | GlobalSecondaryIndex_IndexName =>
        if decide (inRange 3 255 (len (GSI.IndexName g))) then 0%nat else 1%nat
    | GlobalSecondaryIndex_ReadCapacity =>
        if decide (atLeastOne (GSI.ReadCapacity g)) then 0%nat else 1%nat
    | GlobalSecondaryIndex_WriteCapacity =>
        if decide (atLeastOne (GSI.WriteCapacity g)) then 0%nat else 1%nat
    | _ => 0%nat
    end.
Proof.
  intros Hread Hwrite.
  unfold checkGlobalSecondaryIndex, minTableName, maxTableName,
    minReadCapacity, minWriteCapacity.
  rewrite !errorsOn_app, Nat.add_assoc.
  destruct (decide (f = GlobalSecondaryIndex_IndexName)) as [->|Hn].
  { rewrite errorsOn_length_checks by (done || lia).
    rewrite !errorsOn_other by done. lia. }
  rewrite !(errorsOn_other _ _ f) by (simpl; congruence). simpl.
  destruct (decide (f = GlobalSecondaryIndex_ReadCapacity)) as [->|Hr].
  { rewrite errorsOn_capacity by done. rewrite errorsOn_other by done. lia. }
  rewrite !(errorsOn_other _ _ f) by (simpl; congruence). simpl.
  destruct (decide (f = GlobalSecondaryIndex_WriteCapacity)) as [->|Hw].
  { by rewrite errorsOn_capacity. }
  rewrite errorsOn_other by (simpl; congruence). by destruct f.
Qed.

Lemma checkIndexes_errors (gsis : list GlobalSecondaryIndex) (f : PropertyKey) :
  Forall (fun g => GSI.ReadCapacity g ≠ NaN ∧ GSI.WriteCapacity g ≠ NaN) gsis →
  errorsOn (concat (map checkGlobalSecondaryIndex gsis)) f
  = match f with
    | GlobalSecondaryIndex_IndexName =>
        breaking (fun g => inRange 3 255 (len (GSI.IndexName g))) gsis
    | GlobalSecondaryIndex_ReadCapacity =>
        breaking (fun g => atLeastOne (GSI.ReadCapacity g)) gsis
    | GlobalSecondaryIndex_WriteCapacity =>
        breaking (fun g => atLeastOne (GSI.WriteCapacity g)) gsis
    | _ => 0%nat
    end.
Proof.
  induction 1 as [|g gsis [Hread Hwrite] _ IH]; [by destruct f|].
  simpl. rewrite errorsOn_app, IH, checkGlobalSecondaryIndex_errors by done.
  destruct f; try done; by rewrite breaking_cons.
Qed.

Lemma capacitiesOf_numbers (obj : Table) :
  Forall (fun x => x ≠ NaN) (capacitiesOf obj) →
  Tab.ReadCapacity obj ≠ NaN
  ∧ Tab.WriteCapacity obj ≠ NaN
  ∧ Forall (fun g => GSI.ReadCapacity g ≠ NaN ∧ GSI.WriteCapacity g ≠ NaN)
      (default [] (Tab.GlobalSecondaryIndexes obj)).
Proof.
  unfold capacitiesOf. intros Hall.
  apply Forall_cons in Hall as [Hread Hall]. apply Forall_cons in Hall as [Hwrite Hall].
  split; [done|]. split; [done|].
  induction (default [] (Tab.GlobalSecondaryIndexes obj)) as [|g gsis IH]; [constructor|].
  simpl in Hall. apply Forall_cons in Hall as [Hr Hall].
  apply Forall_cons in Hall as [Hw Hall]. constructor; [done|]. by apply IH.
Qed.

(** The failures of [Check] on each field are as many as the violations of
    that field's rule, when no capacity is NaN. *)
Lemma Check_counts (obj : Table) (f : PropertyKey) :
  Forall (fun x => x ≠ NaN) (capacitiesOf obj) →
  errorsOn (Check obj).1 f = violationsOn obj f.
Proof.
  intros (Hread & Hwrite & Hindexes)%capacitiesOf_numbers.
  unfold Check, minTableName, maxTableName, minReadCapacity, minWriteCapacity,
    maxGlobalSecondaryIndexes. simpl.
  rewrite !errorsOn_app.
  assert (Hname : errorsOn
            match Tab.TableName obj with
            | Some name =>
                failing (len name <? 3)
                  (NewFieldErr "*dynamodb.Table" Table_Name "less than minimum length of 3")
                ++ failing (255 <? len name)
                  (NewFieldErr "*dynamodb.Table" Table_Name "exceeded maximum length of 255")
            | None => []
            end f
          = match f with
            | Table_Name =>
                match Tab.TableName obj with
                | Some name => if decide (inRange 3 255 (len name)) then 0%nat else 1%nat
                | None => 0%nat
                end
            | _ => 0%nat
            end).
  { destruct (Tab.TableName obj) as [name|]; [|by destruct f].
    destruct (decide (f = Table_Name)) as [->|Hn].
    - by rewrite errorsOn_app, errorsOn_length_checks by (done || lia).
    - rewrite errorsOn_app, !errorsOn_other by (simpl; congruence). by destruct f. }
  assert (Hgsi : errorsOn
            match Tab.GlobalSecondaryIndexes obj with
            | Some gsis =>
                failing (5 <? Z.of_nat (length gsis))
                  (NewFieldErr "*dynamodb.Table" Table_GlobalSecondaryIndexes
                     "more than 5 global secondary indexes requested")
                ++ concat (map checkGlobalSecondaryIndex gsis)
            | None => []
            end f
          = match f with
            | Table_GlobalSecondaryIndexes
            | GlobalSecondaryIndex_IndexName
            | GlobalSecondaryIndex_ReadCapacity
            | GlobalSecondaryIndex_WriteCapacity => violationsOn obj f
            | _ => 0%nat
            end).
  { unfold violationsOn.
    destruct (Tab.GlobalSecondaryIndexes obj) as [gsis|]; [|by destruct f].
    simpl in *. rewrite errorsOn_app, checkIndexes_errors by done.
    destruct f; try (by rewrite errorsOn_other by done).
    rewrite errorsOn_failing. simpl. rewrite andb_true_r.
    destruct (Z.ltb_spec 5 (Z.of_nat (length gsis))); case_decide; lia. }
  rewrite Hname, Hgsi. clear Hname Hgsi.
  rewrite !errorsOn_failing, !capacity_flag by done.
  destruct f; simpl;
    rewrite ?(errorsOn_each_none checkAttribute)
      by (intros a; by rewrite checkAttribute_errors);
    try (rewrite (errorsOn_each checkAttribute Attribute_Name
                    (fun a => inRange 1 255 (len (Attribute_name a))))
           by (apply Forall_forall; intros a _; by rewrite checkAttribute_errors));
    try (rewrite (errorsOn_each checkAttribute Attribute_Type
                    (fun a => Attribute_type a ∈ ["S"; "N"; "B"]))
           by (apply Forall_forall; intros a _; by rewrite checkAttribute_errors));
    lia.
Qed.

Lemma violations_none_iff (obj : Table) :
  (∀ f, violationsOn obj f = 0%nat) ↔ validTable obj.
Proof.
  unfold validTable. split.
  - intros Hall.
    pose proof (Hall Table_Name) as Hname.
    pose proof (Hall Table_ReadCapacity) as Hread.
    pose proof (Hall Table_WriteCapacity) as Hwrite.
    pose proof (Hall Attribute_Name) as Han.
    pose proof (Hall Attribute_Type) as Hat.
    pose proof (Hall Table_GlobalSecondaryIndexes) as Hcount.
    pose proof (Hall GlobalSecondaryIndex_IndexName) as Hin.
    pose proof (Hall GlobalSecondaryIndex_ReadCapacity) as Hir.
    pose proof (Hall GlobalSecondaryIndex_WriteCapacity) as Hiw.
    cbn beta iota zeta delta [violationsOn] in *.
    apply breaking_zero_iff in Han, Hat, Hin, Hir, Hiw.
    split; [|split; [|split; [|split]]].
    + intros name Hn. rewrite Hn in Hname.
      by destruct (decide (inRange 3 255 (len name))).
    + by destruct (decide (atLeastOne (Tab.ReadCapacity obj))).
    + by destruct (decide (atLeastOne (Tab.WriteCapacity obj))).
    + rewrite Forall_forall in *. intros a Ha. split; auto.
    + intros gsis Hg. rewrite Hg in *. simpl in *.
      split; [by destruct (decide (length gsis ≤ 5)%nat)|].
      rewrite Forall_forall in *. intros g Hin'. split; [|split]; auto.
  - intros (Hname & Hread & Hwrite & Hattrs & Hgsis) f.
    assert (Hg : (length (default [] (Tab.GlobalSecondaryIndexes obj)) ≤ 5)%nat
                 ∧ Forall validIndex (default [] (Tab.GlobalSecondaryIndexes obj))).
    { destruct (Tab.GlobalSecondaryIndexes obj) as [gsis|]; simpl; [by apply Hgsis|].
      split; [lia|constructor]. }
    destruct Hg as [Hcount Hall].
    destruct f; cbn beta iota zeta delta [violationsOn]; rewrite ?breaking_zero_iff.
    + destruct (Tab.TableName obj) as [name|]; [|done].
      by rewrite decide_True by by apply Hname.
    + by rewrite decide_True.
    + by rewrite decide_True.
    + by rewrite decide_True.
    + eapply Forall_impl; [exact Hattrs|]. by intros a [? ?].
    + eapply Forall_impl; [exact Hattrs|]. by intros a [? ?].
    + eapply Forall_impl; [exact Hall|]. by intros g (? & ? & ?).
    + eapply Forall_impl; [exact Hall|]. by intros g (? & ? & ?).
    + eapply Forall_impl; [exact Hall|]. by intros g (? & ? & ?).
Qed.

(** C4 does not hold of the code.  A description whose read capacity is NaN
    breaks the rule that the capacity be at least 1, and [Check] reports
    nothing on it: it tests [ReadCapacity < 1], which is false of NaN.  So
    [Check] returns the empty list for a description that is not valid, and
    no failure for a violation. *)
Theorem Check_accepts_NaN_capacity :
  Check nanCapacityTable = ([], None)
  ∧ ¬ validTable nanCapacityTable
  ∧ violationsOn nanCapacityTable Table_ReadCapacity = 1%nat
  ∧ errorsOn (Check nanCapacityTable).1 Table_ReadCapacity = 0%nat.
Proof.
  split; [reflexivity|]. split; [|split; reflexivity].
  intros (_ & Hread & _). exact Hread.
Qed.

(** ** Runs of provider computations *)

Section Runs.
Context {W : Type}.

Lemma bind_run {A B} (m : M W A) (f : A → M W B) (w : W) :
  (∃ a t1 w1, m w = (Val a, t1, w1)
     ∧ bind m f w = (outcome (f a w1), t1 ++ calls (f a w1), world (f a w1)))
  ∨ (∃ msg t1 w1, m w = (Panic msg, t1, w1) ∧ bind m f w = (Panic msg, t1, w1)).
Proof.
  unfold bind, outcome, calls, world.
  destruct (m w) as [[[a|msg] t1] w1]; [left|right].
  - exists a, t1, w1. split; [done|]. by destruct (f a w1) as [[r t2] w2].
  - by exists msg, t1, w1.
Qed.

Lemma bind_val {A B} (m : M W A) (f : A → M W B) (w w1 : W) a t1 :
  m w = (Val a, t1, w1) →
  bind m f w = (outcome (f a w1), t1 ++ calls (f a w1), world (f a w1)).
Proof.
  intros Hm. destruct (bind_run m f w) as [(a' & t' & w' & Hm' & ->)|(? & ? & ? & Hm' & _)];
    rewrite Hm in Hm'; [by injection Hm' as <- <- <-|done].
Qed.

Lemma bind_panic {A B} (m : M W A) (f : A → M W B) (w w1 : W) msg t1 :
  m w = (Panic msg, t1, w1) → bind m f w = (Panic msg, t1, w1).
Proof.
  intros Hm. destruct (bind_run m f w) as [(? & ? & ? & Hm' & _)|(? & ? & ? & Hm' & ->)];
    rewrite Hm in Hm'; [done|by injection Hm' as <- <- <-].
Qed.

Lemma run_eta {A} (run : result A * list Event * W) :
  run = (outcome run, calls run, world run).
Proof. by destruct run as [[? ?] ?]. Qed.

Lemma issuesOnly_ret {A} (P : Event → Prop) (a : A) : issuesOnly P (ret (W:=W) a).
Proof. intros w. constructor. Qed.

Lemma issuesOnly_panic {A} (P : Event → Prop) msg : issuesOnly P (panic (W:=W) (A:=A) msg).
Proof. intros w. constructor. Qed.

Lemma issuesOnly_bind {A B} (P : Event → Prop) (m : M W A) (f : A → M W B) :
  issuesOnly P m → (∀ a, issuesOnly P (f a)) → issuesOnly P (bind m f).
Proof.
  intros Hm Hf w. specialize (Hm w).
  destruct (bind_run m f w) as [(a & t1 & w1 & Hrun & ->)|(msg & t1 & w1 & Hrun & ->)];
    rewrite Hrun in Hm; unfold calls in *; simpl in *; [|done].
  apply Forall_app. split; [done|apply Hf].
Qed.

Lemma issuesOnly_deref {A} (P : Event → Prop) (p : option A) :
  issuesOnly P (deref (W:=W) p).
Proof. destruct p; [apply issuesOnly_ret|apply issuesOnly_panic]. Qed.

Lemma issuesOnly_assertNotNil {A} (P : Event → Prop) (p : option A) :
  issuesOnly P (assertNotNil (W:=W) p).
Proof. destruct p; [apply issuesOnly_ret|apply issuesOnly_panic]. Qed.

Lemma issuesOnly_orReturn (P : Event → Prop) (m k : M W (option error)) :
  issuesOnly P m → issuesOnly P k → issuesOnly P (orReturn m k).
Proof.
  intros Hm Hk. apply issuesOnly_bind; [done|]. intros [e|]; [apply issuesOnly_ret|done].
Qed.

Lemma issuesOnly_forEach {A} (P : Event → Prop) (l : list A)
    (body : A → M W (option error)) :
  (∀ x, issuesOnly P (body x)) → issuesOnly P (forEach l body).
Proof.
  intros Hbody. induction l as [|x l IH]; [apply issuesOnly_ret|].
  simpl. by apply issuesOnly_orReturn.
Qed.

Lemma issuesOnly_retryLoop (P : Event → Prop) (tries : nat)
    (acceptor : M W (bool * option error)) :
  issuesOnly P acceptor → issuesOnly P (retryLoop tries acceptor).
Proof.
  intros Hacc. induction tries as [|n IH]; [apply issuesOnly_ret|].
  simpl. apply issuesOnly_bind; [done|].
  intros [[] [e|]]; try apply issuesOnly_ret. done.
Qed.

Lemma issuesOnly_weaken {A} (P Q : Event → Prop) (m : M W A) :
  (∀ e, P e → Q e) → issuesOnly P m → issuesOnly Q m.
Proof. intros HPQ Hm w. eapply Forall_impl; [apply Hm|done]. Qed.

End Runs.

(** ** Waiting for a table state, and one update step *)

Section Steps.
Context {W : Type} (ctx : Context W).

Lemma callDescribeTable_run (name : string) (w : W) :
  ∃ resp err w1,
    callDescribeTable ctx name w = (Val (resp, err), [CallDescribeTable name resp err], w1).
Proof.
  unfold callDescribeTable.
  destruct (DescribeTable (DynamoDB ctx) name w) as [[resp err] w1]. eauto.
Qed.

Lemma callUpdateTable_run (u : UpdateTableInput) (w : W) :
  ∃ err w1, callUpdateTable ctx u w = (Val err, [CallUpdateTable u err], w1).
Proof.
  unfold callUpdateTable. destruct (UpdateTable (DynamoDB ctx) u w) as [err w1]. eauto.
Qed.

Lemma callDeleteTable_run (name : string) (w : W) :
  ∃ err w1, callDeleteTable ctx name w = (Val err, [CallDeleteTable name err], w1).
Proof.
  unfold callDeleteTable. destruct (DeleteTable (DynamoDB ctx) name w) as [err w1]. eauto.
Qed.

Lemma StringValue_ACTIVE (status : option string) :
  String.eqb (StringValue status) "ACTIVE" = true → status = Some "ACTIVE".
Proof. destruct status as [s|]; [|done]. simpl. by intros ->%String.eqb_eq. Qed.

(** One probe is one describe call; when it reports that the awaited table
    is there, the call found it ACTIVE. *)
Lemma tableStateProbe_run (name : string) (exist : bool) (w : W) :
  ∃ r d w1,
    tableStateProbe ctx name exist w = (r, [d], w1)
    ∧ describes name d
    ∧ (exist = true → r = Val (true, None) → reportsActive name d).
Proof.
  unfold tableStateProbe.
  destruct (callDescribeTable_run name w) as (resp & err & w1 & Hcall).
  rewrite (bind_val _ _ _ _ _ _ Hcall).
  assert (Hd : describes name (CallDescribeTable name resp err)) by by eexists _, _.
  destruct err as [e|].
  { destruct (IsAWSError e _); destruct exist;
      (eexists _, _, _; split; [reflexivity|]; split; [done|]);
      intros; simplify_eq. }
  destruct exist; [|by eexists _, _, _; split; [reflexivity|]].
  destruct resp as [desc|];
    [|by eexists _, _, _; split; [reflexivity|]].
  destruct (dto_Table desc) as [tab|] eqn:Htab;
    [|eexists _, _, _; split;
       [unfold outcome, calls, world, bind, deref, ret, panic; simpl; rewrite Htab;
        reflexivity|by split]].
  destruct (String.eqb (StringValue (td_TableStatus tab)) "ACTIVE") eqn:Hst;
    (eexists _, _, _; split;
       [unfold outcome, calls, world, bind, deref, ret, panic; simpl;
        rewrite Htab; simpl; rewrite Hst; reflexivity|]; split; [done|]).
  - intros _ _. exists desc, tab. by rewrite (StringValue_ACTIVE _ Hst).
  - intros; simplify_eq.
Qed.

Lemma tableStateProbe_describes (name : string) (exist : bool) :
  issuesOnly (describes name) (tableStateProbe ctx name exist).
Proof.
  intros w. destruct (tableStateProbe_run name exist w) as (r & d & w1 & -> & Hd & _).
  by constructor.
Qed.

Lemma waitForTableState_describes (name : string) (exist : bool) :
  issuesOnly (describes name) (waitForTableState ctx name exist).
Proof.
  unfold waitForTableState, RetryUntilLong. apply issuesOnly_bind.
  - apply issuesOnly_retryLoop, tableStateProbe_describes.
  - intros [succ [e|]]; [apply issuesOnly_ret|]. destruct (negb succ); apply issuesOnly_ret.
Qed.

(** A polling loop that reports success ended on a describe call that found
    the table ACTIVE. *)
Lemma wait_loop_active (name : string) (tries : nat) (w : W) :
  outcome (retryLoop tries (tableStateProbe ctx name true) w) = Val (true, None) →
  ∃ polls last,
    calls (retryLoop tries (tableStateProbe ctx name true) w) = polls ++ [last]
    ∧ Forall (describes name) polls
    ∧ reportsActive name last.
Proof.
  revert w. induction tries as [|n IH]; intros w; [done|]. simpl.
  destruct (tableStateProbe_run name true w) as (r & d & w1 & Hrun & Hd & Hactive).
  destruct r as [[succ err]|msg].
  - rewrite (bind_val _ _ _ _ _ _ Hrun).
    destruct succ, err as [e|]; try (unfold outcome; simpl; congruence).
    + intros _. exists [], d. split; [done|]. split; [constructor|by apply Hactive].
    + unfold outcome, calls. simpl. intros Hok.
      destruct (IH w1 Hok) as (polls & last & Hcalls & Hpolls & Hlast).
      exists (d :: polls), last. unfold calls in Hcalls. rewrite Hcalls.
      split; [done|]. split; [by constructor|done].
  - by rewrite (bind_panic _ _ _ _ _ _ Hrun).
Qed.

Lemma waitForTableState_active (name : string) (w : W) :
  outcome (waitForTableState ctx name true w) = Val None →
  ∃ polls last,
    calls (waitForTableState ctx name true w) = polls ++ [last]
    ∧ Forall (describes name) polls
    ∧ reportsActive name last.
Proof.
  unfold waitForTableState, RetryUntilLong.
  destruct (bind_run (retryLoop (longTries ctx) (tableStateProbe ctx name true))
              (fun r => match r with
                        | (_, Some err) => ret (Some err)
                        | (succ, None) =>
                            if negb succ
                            then ret (Some (PlainError
                                   ("DynamoDB table '" +:+ name +:+ "' did not become "
                                    +:+ "active")))
                            else ret None
                        end) w)
    as [(r & t1 & w1 & Hloop & Hbind)|(msg & t1 & w1 & Hloop & Hbind)];
    rewrite Hbind; [|done].
  destruct r as [succ [e|]]; [done|]. destruct succ; [|done].
  intros _. unfold calls at 1. simpl. rewrite app_nil_r.
  pose proof (wait_loop_active name (longTries ctx) w) as Hact.
  rewrite Hloop in Hact. by apply Hact.
Qed.

Lemma updateAttempt_run (u : UpdateTableInput) (w : W) :
  ∃ err w1,
    updateAttempt ctx u w = (Val (attemptAnswer err), [CallUpdateTable u err], w1).
Proof.
  unfold updateAttempt.
  destruct (callUpdateTable_run u w) as (err & w1 & Hcall).
  rewrite (bind_val _ _ _ _ _ _ Hcall). exists err, w1.
  destruct err as [e|]; [|done]. simpl. by destruct (IsAWSError e _).
Qed.

(** The calls of the retry loop of [updateTable], by its result. *)
Lemma update_loop_shape (u : UpdateTableInput) (tries : nat) (w : W) :
  match outcome (retryLoop tries (updateAttempt ctx u) w) with
  | Val (true, None) =>
      ∃ retries,
        calls (retryLoop tries (updateAttempt ctx u) w)
        = retries ++ [CallUpdateTable u None]
        ∧ Forall (rejected u) retries
  | Val (false, None) =>
      Forall (rejected u) (calls (retryLoop tries (updateAttempt ctx u) w))
  | Val (_, Some err) =>
      ∃ retries,
        calls (retryLoop tries (updateAttempt ctx u) w)
        = retries ++ [CallUpdateTable u (Some err)]
        ∧ Forall (rejected u) retries ∧ ¬ transient err
  | Panic _ => False
  end.
Proof.
  revert w. induction tries as [|n IH]; intros w; [by constructor|]. simpl.
  destruct (updateAttempt_run u w) as (err & w1 & Hrun).
  rewrite (bind_val _ _ _ _ _ _ Hrun).
  destruct err as [e|]; simpl.
  - destruct (IsAWSError e _) eqn:Hcode; simpl.
    + specialize (IH w1). unfold outcome, calls in *. simpl.
      assert (Hrej : rejected u (CallUpdateTable u (Some e))) by by exists e.
      destruct (retryLoop n (updateAttempt ctx u) w1) as [[[[[] [e'|]]|msg] t] w2];
        simpl in *; try done.
      * destruct IH as (retries & -> & Hretries & Hperm).
        exists (CallUpdateTable u (Some e) :: retries). by repeat constructor.
      * destruct IH as (retries & -> & Hretries).
        exists (CallUpdateTable u (Some e) :: retries). by repeat constructor.
      * destruct IH as (retries & -> & Hretries & Hperm).
        exists (CallUpdateTable u (Some e) :: retries). by repeat constructor.
      * by constructor.
    + exists []. split; [done|]. split; [constructor|].
      unfold transient. by rewrite Hcode.
  - exists []. by split; [|constructor].
Qed.

(** [updateTable] either carries its step through and returns nil, or gives
    it up and does not. *)
Lemma updateTable_shape (name : string) (u : UpdateTableInput) (w : W) :
  (outcome (updateTable ctx name u w) = Val None
   ∧ completeStep name u (calls (updateTable ctx name u w)))
  ∨ (outcome (updateTable ctx name u w) ≠ Val None
     ∧ abortedStep name u (calls (updateTable ctx name u w))).
Proof.
  unfold updateTable, RetryUntil.
  pose proof (update_loop_shape u (shortTries ctx) w) as Hloop.
  destruct (retryLoop (shortTries ctx) (updateAttempt ctx u) w)
    as [[[[succ err]|msg] t1] w1] eqn:Hrun; unfold outcome, calls in Hloop;
    simpl in Hloop; [|done].
  rewrite (bind_val _ _ _ _ _ _ Hrun).
  destruct err as [e|].
  { right. split; [done|]. unfold calls; simpl. rewrite app_nil_r.
    right; left. destruct succ; destruct Hloop as (retries & -> & ? & ?); eauto. }
  destruct succ; simpl.
  - destruct Hloop as (retries & -> & Hretries).
    pose proof (waitForTableState_describes name true w1) as Hdesc.
    pose proof (waitForTableState_active name w1) as Hactive.
    unfold orReturn.
    destruct (waitForTableState ctx name true w1) as [[[[e|]|msg] t2] w2] eqn:Hwait;
      unfold outcome, calls in *; simpl in *.
    + rewrite (bind_val _ _ _ _ _ _ Hwait). right. split; [done|]. simpl.
      right; right. exists retries, t2. rewrite app_nil_r, <- app_assoc. done.
    + rewrite (bind_val _ _ _ _ _ _ Hwait). left. split; [done|]. simpl.
      destruct (Hactive eq_refl) as (polls & last & -> & Hpolls & Hlast).
      exists retries, polls, last. rewrite app_nil_r, <- app_assoc. done.
    + rewrite (bind_panic _ _ _ _ _ _ Hwait). right. split; [done|]. simpl.
      right; right. exists retries, t2. rewrite <- app_assoc. done.
  - right. split; [done|]. unfold calls; simpl. rewrite app_nil_r. by left.
Qed.

End Steps.

(** ** Runs through a plan of steps *)

Section Plans.
Context {W : Type} (ctx : Context W).

Lemma planTrace_app (name : string) (p1 p2 : list UpdateTableInput) ok t1 t2 :
  planTrace name p1 true t1 → planTrace name p2 ok t2 →
  planTrace name (p1 ++ p2) ok (t1 ++ t2).
Proof.
  intros H1 H2. remember true as ok1 eqn:Hok. induction H1; subst; simpl.
  - done.
  - rewrite <- app_assoc. constructor; auto.
  - done.
Qed.

Lemma planTrace_app_abort (name : string) (p1 p2 : list UpdateTableInput) t1 :
  planTrace name p1 false t1 → planTrace name (p1 ++ p2) false t1.
Proof.
  intros H1. remember false as ok1 eqn:Hok. induction H1; subst; simpl.
  - done.
  - constructor; auto.
  - by constructor.
Qed.

Lemma runsPlan_ret (name : string) : runsPlan (W:=W) name [] (ret None).
Proof.
  intros w. exists true, [], []. split; [done|]. split; [constructor|].
  split; [constructor|]. by split.
Qed.

Lemma runsPlan_updateTable (name : string) (u : UpdateTableInput) :
  runsPlan name [u] (updateTable ctx name u).
Proof.
  intros w. destruct (updateTable_shape ctx name u w) as [[Hok Hstep]|[Hko Hstep]].
  - exists true, (calls (updateTable ctx name u w)), []. rewrite app_nil_r.
    split; [done|]. split.
    + rewrite <- (app_nil_r (calls _)). constructor; [done|constructor].
    + split; [constructor|]. by split.
  - exists false, (calls (updateTable ctx name u w)), []. rewrite app_nil_r.
    split; [done|]. split; [by constructor|]. split; [constructor|]. split; [done|].
    by intros ?.
Qed.

(** A wait for ACTIVE after the steps adds describe calls only. *)
Lemma runsPlan_wait (name : string) :
  runsPlan name [] (orReturn (waitForTableState ctx name true) (ret None)).
Proof.
  intros w. exists true, [], (calls (orReturn (waitForTableState ctx name true) (ret None) w)).
  split; [done|]. split; [constructor|]. split; [|by split].
  apply issuesOnly_orReturn; [apply waitForTableState_describes|apply issuesOnly_ret].
Qed.

(** Sequencing: the steps of [m], then, if [m] returned nil, those of [k]. *)
Lemma runsPlan_orReturn (name : string) (p1 p2 : list UpdateTableInput)
    (m k : M W (option error)) :
  (∀ w, ∃ ok, planTrace name p1 ok (calls (m w))
              ∧ (ok = true ↔ outcome (m w) = Val None)) →
  runsPlan name p2 k →
  runsPlan name (p1 ++ p2) (orReturn m k).
Proof.
  intros Hm Hk w. destruct (Hm w) as (ok1 & Hplan1 & Hok1). unfold orReturn.
  destruct (m w) as [[[[e|]|msg] t1] w1] eqn:Hrun; unfold outcome, calls in *;
    simpl in *.
  - rewrite (bind_val _ _ _ _ _ _ Hrun). simpl. rewrite app_nil_r.
    destruct ok1; [by destruct Hok1 as [Hok1 _]; specialize (Hok1 eq_refl)|].
    exists false, t1, []. rewrite app_nil_r. split; [done|].
    split; [by apply planTrace_app_abort|]. split; [constructor|]. by split.
  - rewrite (bind_val _ _ _ _ _ _ Hrun). simpl.
    destruct ok1; [|by destruct Hok1 as [_ Hok1]; specialize (Hok1 eq_refl)].
    destruct (Hk w1) as (ok2 & steps & tail & Hcalls & Hplan2 & Htail & Hko & Hok).
    unfold outcome, calls in *. rewrite Hcalls.
    exists ok2, (t1 ++ steps), tail. rewrite <- app_assoc. split; [done|].
    split; [by apply planTrace_app|]. done.
  - rewrite (bind_panic _ _ _ _ _ _ Hrun). simpl.
    destruct ok1; [by destruct Hok1 as [Hok1 _]; specialize (Hok1 eq_refl)|].
    exists false, t1, []. rewrite app_nil_r. split; [done|].
    split; [by apply planTrace_app_abort|]. split; [constructor|]. by split.
Qed.

(** A loop over [l] that runs one step per element goes through the steps
    in the order of [l]. *)
Lemma forEach_steps {A} (name : string) (req : A → UpdateTableInput) (l : list A) (w : W) :
  ∃ ok,
    planTrace name (map req l) ok
      (calls (forEach l (fun x => updateTable ctx name (req x)) w))
    ∧ (ok = true ↔ outcome (forEach l (fun x => updateTable ctx name (req x)) w) = Val None).
Proof.
  revert w. induction l as [|x l IH]; intros w; [by exists true; split; [constructor|]|].
  simpl. unfold orReturn.
  destruct (updateTable_shape ctx name (req x) w) as [[Hok Hstep]|[Hko Hstep]].
  - destruct (updateTable ctx name (req x) w) as [[r t1] w1] eqn:Hrun.
    unfold outcome, calls in Hok, Hstep. simpl in *. subst r.
    rewrite (bind_val _ _ _ _ _ _ Hrun). simpl.
    destruct (IH w1) as (ok & Hplan & Hiff). exists ok. unfold outcome, calls in *.
    simpl. split; [by constructor|done].
  - destruct (updateTable ctx name (req x) w) as [[r t1] w1] eqn:Hrun.
    unfold outcome, calls in Hko, Hstep. simpl in *. exists false.
    destruct r as [[e|]|msg]; [| done |].
    + rewrite (bind_val _ _ _ _ _ _ Hrun). unfold outcome, calls. simpl.
      rewrite app_nil_r. split; [by constructor|done].
    + rewrite (bind_panic _ _ _ _ _ _ Hrun). unfold outcome, calls. simpl.
      split; [by constructor|done].
Qed.

End Plans.

(** ** Update *)

Section UpdateFacts.
Context {W : Type}.
Variable ParseResourceName : string → string * option error.
Variable ctx : Context W.

Lemma orReturn_ret_None (m : M W (option error)) (w : W) :
  orReturn m (ret None) w = m w.
Proof.
  unfold orReturn. destruct (m w) as [[[[e|]|msg] t] w1] eqn:Hrun.
  - rewrite (bind_val _ _ _ _ _ _ Hrun). simpl. by rewrite app_nil_r.
  - rewrite (bind_val _ _ _ _ _ _ Hrun). simpl. by rewrite app_nil_r.
  - by rewrite (bind_panic _ _ _ _ _ _ Hrun).
Qed.

Lemma updateTable_plan (name : string) (u : UpdateTableInput) (w : W) :
  ∃ ok, planTrace name [u] ok (calls (updateTable ctx name u w))
        ∧ (ok = true ↔ outcome (updateTable ctx name u w) = Val None).
Proof.
  destruct (updateTable_shape ctx name u w) as [[Hok Hstep]|[Hko Hstep]].
  - exists true. split; [|done].
    rewrite <- (app_nil_r (calls _)). constructor; [done|constructor].
  - exists false. split; [by constructor|]. by split.
Qed.

(** [Update] goes through the steps of its plan in order. *)
Lemma Update_runs_issuedPlan (id name : string) (old new : Table) (diff : ObjectDiff) :
  ParseResourceName id = (name, None) →
  runsPlan name (issuedPlan name old new diff)
    (Update ParseResourceName ctx id old new diff).
Proof.
  intros Hparse. unfold Update, issuedPlan, throughputStep. rewrite Hparse.
  apply runsPlan_orReturn.
  - intros w. destruct (Changed diff Table_ReadCapacity || Changed diff Table_WriteCapacity).
    + apply updateTable_plan.
    + exists true. by split; [constructor|].
  - destruct (Changed diff Table_GlobalSecondaryIndexes); [|apply runsPlan_ret].
    cbv zeta. unfold indexSteps, indexDiff.
    apply runsPlan_orReturn; [intros w; apply forEach_steps|].
    apply runsPlan_orReturn; [intros w; apply forEach_steps|].
    rewrite <- (app_nil_r (map (deleteIndexUpdate name) _)).
    apply runsPlan_orReturn; [intros w; apply forEach_steps|].
    apply runsPlan_wait.
Qed.

Lemma Update_parse_error (id name : string) (old new : Table) (diff : ObjectDiff)
    (err : error) (w : W) :
  ParseResourceName id = (name, Some err) →
  Update ParseResourceName ctx id old new diff w = (Val (Some err), [], w).
Proof. intros Hparse. unfold Update. by rewrite Hparse. Qed.

End UpdateFacts.

(** ** The two retry loops, by their result *)

Section LoopOutcomes.
Context {W : Type} (ctx : Context W).

(** What one probe answers, by the describe call it made. *)
Lemma tableStateProbe_cases (name : string) (exist : bool) (w : W) :
  ∃ r d w1,
    tableStateProbe ctx name exist w = (r, [d], w1)
    ∧ ((r = Val (true, None) ∧ reached name exist d)
       ∨ (r = Val (false, None) ∧ notYet name exist d)
       ∨ (∃ err, r = Val (false, Some err) ∧ describeFailure name err d)
       ∨ (∃ msg, r = Panic msg ∧ exist = true ∧ emptyAnswer name d)).
Proof.
  unfold tableStateProbe.
  destruct (callDescribeTable_run ctx name w) as (resp & err & w1 & Hcall).
  rewrite (bind_val _ _ _ _ _ _ Hcall).
  destruct err as [e|].
  { destruct (IsAWSError e ["ResourceNotFoundException"]) eqn:Hcode; destruct exist;
      (eexists _, _, _; split; [reflexivity|]); unfold reached, notYet, describeFailure.
    - right; left. split; [done|]. left. eauto.
    - left. split; [done|]. eauto.
    - right; right; left. eauto.
    - right; right; left. eauto. }
  destruct exist.
  2:{ eexists _, _, _. split; [reflexivity|]. right; left. split; [done|].
      unfold notYet. eauto. }
  destruct resp as [desc|].
  2:{ eexists _, _, _. split; [reflexivity|]. right; right; right.
      eexists. split; [reflexivity|]. split; [done|]. by left. }
  destruct (dto_Table desc) as [tab|] eqn:Htab.
  2:{ eexists _, _, _. split.
      - unfold outcome, calls, world, bind, deref, ret, panic; simpl. rewrite Htab.
        reflexivity.
      - right; right; right. eexists. split; [reflexivity|]. split; [done|].
        right. eauto. }
  destruct (String.eqb (StringValue (td_TableStatus tab)) "ACTIVE") eqn:Hst;
    (eexists _, _, _; split;
       [unfold outcome, calls, world, bind, deref, ret, panic; simpl;
        rewrite Htab; simpl; rewrite Hst; reflexivity|]).
  - left. split; [done|]. exists desc, tab.
    by rewrite (StringValue_ACTIVE _ Hst).
  - right; left. split; [done|]. right. exists desc, tab.
    split; [done|]. split; [done|]. by apply String.eqb_neq.
Qed.

(** The polling loop, by its result. *)
Lemma wait_loop_outcomes (name : string) (exist : bool) (tries : nat) (w : W) :
  ∃ pending,
    Forall (notYet name exist) pending
    ∧ ((outcome (retryLoop tries (tableStateProbe ctx name exist) w) = Val (false, None)
        ∧ calls (retryLoop tries (tableStateProbe ctx name exist) w) = pending
        ∧ length pending = tries)
       ∨ (∃ last,
            outcome (retryLoop tries (tableStateProbe ctx name exist) w) = Val (true, None)
            ∧ calls (retryLoop tries (tableStateProbe ctx name exist) w) = pending ++ [last]
            ∧ reached name exist last ∧ (length pending < tries)%nat)
       ∨ (∃ err last,
            outcome (retryLoop tries (tableStateProbe ctx name exist) w)
            = Val (false, Some err)
            ∧ calls (retryLoop tries (tableStateProbe ctx name exist) w) = pending ++ [last]
            ∧ describeFailure name err last ∧ (length pending < tries)%nat)
       ∨ (∃ msg last,
            outcome (retryLoop tries (tableStateProbe ctx name exist) w) = Panic msg
            ∧ exist = true
            ∧ calls (retryLoop tries (tableStateProbe ctx name exist) w) = pending ++ [last]
            ∧ emptyAnswer name last ∧ (length pending < tries)%nat)).
Proof.
  revert w. induction tries as [|n IH]; intros w.
  { exists []. split; [constructor|]. by left. }
  simpl.
  destruct (tableStateProbe_cases name exist w)
    as (r & d & w1 & Hrun & [[-> Hd]|[[-> Hd]|[(err & -> & Hd)|(msg & -> & Hex & Hd)]]]).
  - rewrite (bind_val _ _ _ _ _ _ Hrun). exists []. split; [constructor|].
    right; left. exists d. simpl. repeat split; [done|lia].
  - rewrite (bind_val _ _ _ _ _ _ Hrun).
    destruct (IH w1) as (pending & Hpending & Hcases).
    exists (d :: pending). split; [by constructor|].
    unfold outcome, calls in *. simpl.
    destruct Hcases as [(Hout & Hcalls & Hlen)
                       |[(last & Hout & Hcalls & Hlast & Hlen)
                        |[(err & last & Hout & Hcalls & Hlast & Hlen)
                         |(msg & last & Hout & Hex & Hcalls & Hlast & Hlen)]]];
      rewrite Hout, Hcalls.
    + left. simpl. by rewrite Hlen.
    + right; left. exists last. simpl. repeat split; [done|lia].
    + right; right; left. exists err, last. simpl. repeat split; [done|lia].
    + right; right; right. exists msg, last. simpl. repeat split; [done|done|lia].
  - rewrite (bind_val _ _ _ _ _ _ Hrun). exists []. split; [constructor|].
    right; right; left. exists err, d. simpl. repeat split; [done|lia].
  - rewrite (bind_panic _ _ _ _ _ _ Hrun). exists []. split; [constructor|].
    right; right; right. exists msg, d. simpl. repeat split; [done|done|lia].
Qed.

(** A wait that returns nil ended on the answer it waited for. *)
Lemma waitForTableState_success (name : string) (exist : bool) (w : W) :
  outcome (waitForTableState ctx name exist w) = Val None →
  ∃ pending last,
    calls (waitForTableState ctx name exist w) = pending ++ [last]
    ∧ Forall (notYet name exist) pending
    ∧ reached name exist last
    ∧ (length pending < longTries ctx)%nat.
Proof.
  unfold waitForTableState, RetryUntilLong.
  destruct (wait_loop_outcomes name exist (longTries ctx) w)
    as (pending & Hpending & Hcases).
  destruct (retryLoop (longTries ctx) (tableStateProbe ctx name exist) w)
    as [[r t1] w1] eqn:Hloop. unfold outcome, calls in Hcases. simpl in Hcases.
  destruct Hcases as [(-> & -> & Hlen)
                     |[(last & -> & -> & Hlast & Hlen)
                      |[(err & last & -> & -> & Hlast & Hlen)
                       |(msg & last & -> & Hex & -> & Hlast & Hlen)]]].
  - by rewrite (bind_val _ _ _ _ _ _ Hloop).
  - rewrite (bind_val _ _ _ _ _ _ Hloop). intros _. exists pending, last.
    unfold calls. simpl. by rewrite app_nil_r.
  - by rewrite (bind_val _ _ _ _ _ _ Hloop).
  - by rewrite (bind_panic _ _ _ _ _ _ Hloop).
Qed.

(** The retry loop of [updateTable], by its result, with the number of
    requests. *)
Lemma update_loop_outcomes (u : UpdateTableInput) (tries : nat) (w : W) :
  ∃ retries,
    Forall (rejected u) retries
    ∧ ((outcome (retryLoop tries (updateAttempt ctx u) w) = Val (false, None)
        ∧ calls (retryLoop tries (updateAttempt ctx u) w) = retries
        ∧ length retries = tries)
       ∨ (outcome (retryLoop tries (updateAttempt ctx u) w) = Val (true, None)
          ∧ calls (retryLoop tries (updateAttempt ctx u) w)
            = retries ++ [CallUpdateTable u None]
          ∧ (length retries < tries)%nat)
       ∨ (∃ err,
            outcome (retryLoop tries (updateAttempt ctx u) w) = Val (false, Some err)
            ∧ calls (retryLoop tries (updateAttempt ctx u) w)
              = retries ++ [CallUpdateTable u (Some err)]
            ∧ ¬ transient err ∧ (length retries < tries)%nat)).
Proof.
  revert w. induction tries as [|n IH]; intros w.
  { exists []. split; [constructor|]. by left. }
  simpl. destruct (updateAttempt_run ctx u w) as (res & w1 & Hrun).
  rewrite (bind_val _ _ _ _ _ _ Hrun).
  destruct res as [e|]; simpl.
  2:{ exists []. split; [constructor|]. right; left. simpl. repeat split. lia. }
  destruct (IsAWSError e ["ResourceNotFoundException"; "ResourceInUseException"])
    eqn:Hcode; simpl.
  2:{ exists []. split; [constructor|]. right; right. exists e. simpl.
      repeat split; [|lia]. unfold transient. by rewrite Hcode. }
  destruct (IH w1) as (retries & Hretries & Hcases).
  assert (Hrej : rejected u (CallUpdateTable u (Some e))) by by exists e.
  exists (CallUpdateTable u (Some e) :: retries). split; [by constructor|].
  unfold outcome, calls in *. simpl.
  destruct Hcases as [(Hout & Hcalls & Hlen)
                     |[(Hout & Hcalls & Hlen)|(err & Hout & Hcalls & Hperm & Hlen)]];
    rewrite Hout, Hcalls.
  - left. simpl. by rewrite Hlen.
  - right; left. simpl. repeat split. lia.
  - right; right. exists err. simpl. repeat split; [done|lia].
Qed.

End LoopOutcomes.

(** ** The keyed-set diff *)

Section DiffFacts.
Context {A : Type} `{Hashable A}.

Lemma keyed_empty : keyed (NewHashSet (A:=A)).
Proof. intros k o. unfold NewHashSet. by rewrite lookup_empty. Qed.

Lemma keyed_Add (item : A) (m : gmap Hash A) : keyed m → keyed (Add item m).
Proof.
  intros Hm k o. unfold Add. rewrite lookup_insert_Some.
  intros [[<- <-]|[_ Hk]]; [done|by apply Hm].
Qed.

Lemma elem_of_Adds (s t : gmap Hash A) (o : A) :
  o ∈ Adds (Diff s t) ↔ ∃ k, t !! k = Some o ∧ s !! k = None.
Proof.
  unfold Diff. simpl. rewrite list_elem_of_omap. split.
  - intros ([k v] & Hin%elem_of_map_to_list & Hf). simpl in Hf.
    destruct (s !! k) eqn:Hs; [done|]. injection Hf as <-. eauto.
  - intros (k & Ht & Hs). exists (k, o). rewrite elem_of_map_to_list. simpl.
    by rewrite Hs.
Qed.

Lemma elem_of_Deletes (s t : gmap Hash A) (o : A) :
  o ∈ Deletes (Diff s t) ↔ ∃ k, s !! k = Some o ∧ t !! k = None.
Proof.
  unfold Diff. simpl. rewrite list_elem_of_omap. split.
  - intros ([k v] & Hin%elem_of_map_to_list & Hf). simpl in Hf.
    destruct (t !! k) eqn:Ht; [done|]. injection Hf as <-. eauto.
  - intros (k & Hs & Ht). exists (k, o). rewrite elem_of_map_to_list. simpl.
    by rewrite Ht.
Qed.

Lemma elem_of_Updates (s t : gmap Hash A) (n : A) :
  n ∈ Updates (Diff s t)
  ↔ ∃ k o, s !! k = Some o ∧ t !! k = Some n ∧ HashValue o ≠ HashValue n.
Proof.
  unfold Diff. simpl. rewrite list_elem_of_omap. split.
  - intros ([k v] & Hin%elem_of_map_to_list & Hf). simpl in Hf.
    destruct (s !! k) as [o|] eqn:Hs; [|done].
    destruct (String.eqb_spec (HashValue o) (HashValue v)); [done|].
    injection Hf as <-. eauto.
  - intros (k & o & Hs & Ht & Hne). exists (k, n). rewrite elem_of_map_to_list.
    simpl. rewrite Hs. split; [done|].
    by destruct (String.eqb_spec (HashValue o) (HashValue n)).
Qed.

(** The keys of a selection of the entries of a keyed set come without
    repetition. *)
Lemma selection_keys_sublist (f : Hash * A → option A) (l : list (Hash * A)) :
  (∀ kv o, f kv = Some o → o = kv.2) →
  (∀ kv, kv ∈ l → HashKey kv.2 = kv.1) →
  sublist (map HashKey (omap f l)) (map fst l).
Proof.
  intros Hsel. induction l as [|kv l IH]; intros Hkeyed; [constructor|].
  simpl. destruct (f kv) as [o|] eqn:Hf.
  - apply Hsel in Hf as ->. simpl. rewrite (Hkeyed kv) by left.
    apply sublist_skip, IH. intros kv' Hin. apply Hkeyed. by right.
  - apply sublist_cons, IH. intros kv' Hin. apply Hkeyed. by right.
Qed.

Lemma selection_keys_NoDup (f : Hash * A → option A) (m : gmap Hash A) :
  (∀ kv o, f kv = Some o → o = kv.2) →
  keyed m →
  NoDup (map HashKey (omap f (map_to_list m))).
Proof.
  intros Hsel Hm. eapply sublist_NoDup; [apply (NoDup_fst_map_to_list m)|].
  apply selection_keys_sublist; [done|].
  intros [k o] Hin%elem_of_map_to_list. by apply Hm.
Qed.

Lemma Adds_NoDup (s t : gmap Hash A) : keyed t → NoDup (map HashKey (Adds (Diff s t))).
Proof.
  intros Ht. apply selection_keys_NoDup; [|done].
  intros kv o Hf. destruct (s !! kv.1); by simplify_eq.
Qed.

Lemma Deletes_NoDup (s t : gmap Hash A) : keyed s → NoDup (map HashKey (Deletes (Diff s t))).
Proof.
  intros Hs. apply selection_keys_NoDup; [|done].
  intros kv o Hf. destruct (t !! kv.1); by simplify_eq.
Qed.

Lemma Updates_NoDup (s t : gmap Hash A) : keyed t → NoDup (map HashKey (Updates (Diff s t))).
Proof.
  intros Ht. apply selection_keys_NoDup; [|done].
  intros kv o Hf. destruct (s !! kv.1) as [old|]; [|done].
  destruct (String.eqb _ _); by simplify_eq.
Qed.

Lemma elem_of_map_HashKey (l : list A) (k : Hash) :
  k ∈ map HashKey l ↔ ∃ o, o ∈ l ∧ HashKey o = k.
Proof.
  change (map HashKey l) with (HashKey <$> l). rewrite list_elem_of_fmap.
  split; intros (o & ? & ?); eauto.
Qed.

Lemma Adds_names (s t : gmap Hash A) (k : Hash) :
  keyed t →
  k ∈ map HashKey (Adds (Diff s t)) ↔ is_Some (t !! k) ∧ s !! k = None.
Proof.
  intros Ht. rewrite elem_of_map_HashKey. split.
  - intros (o & (k' & Hin & Hs)%elem_of_Adds & <-).
    rewrite (Ht _ _ Hin). by split; [eexists|].
  - intros [[o Ho] Hs]. exists o. split; [apply elem_of_Adds; eauto|by apply Ht].
Qed.

Lemma Deletes_names (s t : gmap Hash A) (k : Hash) :
  keyed s →
  k ∈ map HashKey (Deletes (Diff s t)) ↔ is_Some (s !! k) ∧ t !! k = None.
Proof.
  intros Hs. rewrite elem_of_map_HashKey. split.
  - intros (o & (k' & Hin & Ht)%elem_of_Deletes & <-).
    rewrite (Hs _ _ Hin). by split; [eexists|].
  - intros [[o Ho] Ht]. exists o. split; [apply elem_of_Deletes; eauto|by apply Hs].
Qed.

Lemma Updates_names (s t : gmap Hash A) (k : Hash) :
  keyed t →
  k ∈ map HashKey (Updates (Diff s t))
  ↔ ∃ o n, s !! k = Some o ∧ t !! k = Some n ∧ HashValue o ≠ HashValue n.
Proof.
  intros Ht. rewrite elem_of_map_HashKey. split.
  - intros (n & (k' & o & Hs & Hin & Hne)%elem_of_Updates & <-).
    rewrite (Ht _ _ Hin). eauto.
  - intros (o & n & Hs & Hn & Hne). exists n.
    split; [apply elem_of_Updates; eauto|by apply Ht].
Qed.

(** The three parts share no name and repeat none. *)
Lemma Diff_parts_NoDup (s t : gmap Hash A) :
  keyed s → keyed t →
  NoDup (map HashKey (Adds (Diff s t))
         ++ map HashKey (Updates (Diff s t))
         ++ map HashKey (Deletes (Diff s t))).
Proof.
  intros Hs Ht. apply NoDup_app. split; [by apply Adds_NoDup|]. split.
  - intros k [_ Hnone]%Adds_names; [|done]. rewrite elem_of_app.
    intros [(o & n & Ho & _)%Updates_names|[[o Ho] _]%Deletes_names];
      done || congruence.
  - apply NoDup_app. split; [by apply Updates_NoDup|]. split; [|by apply Deletes_NoDup].
    intros k (o & n & _ & Hn & _)%Updates_names; [|done].
    intros [_ Hnone]%Deletes_names; done || congruence.
Qed.

(** A set differs from itself in nothing. *)
Lemma omap_none {B C} (f : B → option C) (l : list B) :
  (∀ x, x ∈ l → f x = None) → omap f l = [].
Proof.
  induction l as [|x l IH]; intros Hf; [done|]. simpl.
  rewrite (Hf x) by left. apply IH. intros y Hy. apply Hf. by right.
Qed.

Lemma Diff_same (s : gmap Hash A) : Diff s s = mkHashSetDiff [] [] [].
Proof.
  unfold Diff. f_equal; apply omap_none; intros [k o] Hin%elem_of_map_to_list; simpl;
    rewrite Hin; [done| |done].
  by rewrite String.eqb_refl.
Qed.

End DiffFacts.

(** The hash sets [Update] builds from the index collections. *)
Lemma indexSet_keyed (options : option (list GlobalSecondaryIndex)) :
  keyed (newGlobalSecondaryIndexHashSet options).
Proof.
  unfold newGlobalSecondaryIndexHashSet. destruct options as [l|]; [|apply keyed_empty].
  assert (Hgen : ∀ s0 : gmap Hash globalSecondaryIndexHash, keyed s0 →
            keyed (fold_left (fun set opt => Add (mkGlobalSecondaryIndexHash opt) set) l s0)).
  { induction l as [|g l IH]; intros s0 Hs0; [done|]. simpl. by apply IH, keyed_Add. }
  apply Hgen, keyed_empty.
Qed.

Lemma indexSet_names (options : option (list GlobalSecondaryIndex)) (k : string) :
  is_Some (newGlobalSecondaryIndexHashSet options !! k) ↔ k ∈ indexNames options.
Proof.
  unfold newGlobalSecondaryIndexHashSet, indexNames.
  destruct options as [l|]; simpl.
  2:{ unfold NewHashSet. rewrite lookup_empty, elem_of_nil. split; [by intros []|done]. }
  assert (Hgen : ∀ s0 : gmap Hash globalSecondaryIndexHash,
            is_Some (fold_left (fun set opt => Add (mkGlobalSecondaryIndexHash opt) set) l s0 !! k)
            ↔ k ∈ map GSI.IndexName l ∨ is_Some (s0 !! k)).
  { induction l as [|g l IH]; intros s0; simpl.
    - rewrite elem_of_nil. tauto.
    - rewrite IH. unfold Add. simpl. rewrite lookup_insert_is_Some, elem_of_cons.
      destruct (decide (GSI.IndexName g = k)) as [->|Hne]; [tauto|].
      split; [intros [?|[?|[_ ?]]]; auto; congruence|].
      intros [[->|?]|?]; auto; congruence. }
  rewrite Hgen. unfold NewHashSet. rewrite lookup_empty. split; [|by left].
  by intros [?|[]].
Qed.

Lemma indexSet_None (options : option (list GlobalSecondaryIndex)) (k : string) :
  newGlobalSecondaryIndexHashSet options !! k = None ↔ k ∉ indexNames options.
Proof. rewrite <- indexSet_names, eq_None_not_Some. done. Qed.

(** ** Runs through the requests of an update *)

Section SequenceFacts.
Context {W : Type} (ctx : Context W).

(** The wait for ACTIVE succeeds or fails, as its result says. *)
Lemma waitForTableState_cases (name : string) (w : W) :
  endsWithWait ctx name (calls (waitForTableState ctx name true w))
    (outcome (waitForTableState ctx name true w)).
Proof.
  unfold waitForTableState, RetryUntilLong.
  destruct (wait_loop_outcomes ctx name true (longTries ctx) w)
    as (pending & Hpending & Hcases).
  destruct (retryLoop (longTries ctx) (tableStateProbe ctx name true) w)
    as [[r t1] w1] eqn:Hloop. unfold outcome, calls in Hcases. simpl in Hcases.
  destruct Hcases as [(-> & -> & Hlen)
                     |[(last & -> & -> & Hlast & Hlen)
                      |[(err & last & -> & -> & Hlast & Hlen)
                       |(msg & last & -> & _ & -> & Hlast & Hlen)]]].
  - right. left. rewrite (bind_val _ _ _ _ _ _ Hloop). unfold outcome, calls. simpl.
    by rewrite app_nil_r.
  - left. rewrite (bind_val _ _ _ _ _ _ Hloop). unfold outcome, calls. simpl.
    rewrite app_nil_r. split; [|done]. by exists pending, last.
  - right. right. left. rewrite (bind_val _ _ _ _ _ _ Hloop). unfold outcome, calls.
    simpl. rewrite app_nil_r. by exists pending, last, err.
  - right. right. right. rewrite (bind_panic _ _ _ _ _ _ Hloop). unfold outcome, calls.
    simpl. by exists pending, last, msg.
Qed.



(** One call of [updateTable] carries its step through and returns nil, or
    gives it up. *)
Lemma updateTable_step (name : string) (u : UpdateTableInput) (w : W) :
  (stepCarried ctx name u (calls (updateTable ctx name u w))
   ∧ outcome (updateTable ctx name u w) = Val None)
  ∨ stepGivenUp ctx name u (calls (updateTable ctx name u w))
      (outcome (updateTable ctx name u w)).
Proof.
  unfold updateTable, RetryUntil.
  destruct (update_loop_outcomes ctx u (shortTries ctx) w)
    as (retries & Hretries & Hcases).
  destruct (retryLoop (shortTries ctx) (updateAttempt ctx u) w) as [[r t1] w1] eqn:Hloop.
  unfold outcome, calls in Hcases. simpl in Hcases.
  destruct Hcases as [(-> & -> & Hlen)|[(-> & -> & Hlen)|(err & -> & -> & Hperm & Hlen)]];
    rewrite (bind_val _ _ _ _ _ _ Hloop).
  - right. left. unfold outcome, calls. simpl. by rewrite app_nil_r.
  - simpl. rewrite orReturn_ret_None. unfold outcome at 1 3, calls at 1 3. simpl.
    rewrite <- app_assoc. simpl.
    destruct (waitForTableState_cases name w1) as [[Hwait Hnil]|Hwait].
    + left. split; [|done]. by exists retries, (calls (waitForTableState ctx name true w1)).
    + right. right. right.
      by exists retries, (calls (waitForTableState ctx name true w1)).
  - right. right. left. unfold outcome, calls. simpl. rewrite app_nil_r.
    by exists retries, err.
Qed.






End SequenceFacts.

(** ** The requests [Update] builds are those of the specification *)


Lemma throughputUpdate_throughputOnly (name : string) (new : Table) :
  throughputOnly name new (throughputUpdate name new).
Proof. by repeat split. Qed.






(** ** Recorded answers are the remote's answers *)

Section Faithful.
Context {W : Type} (ctx : Context W).

Lemma answered_app (t1 t2 : list Event) (w w1 w2 : W) :
  answered (DynamoDB ctx) t1 w w1 → answered (DynamoDB ctx) t2 w1 w2 →
  answered (DynamoDB ctx) (t1 ++ t2) w w2.
Proof.
  revert w. induction t1 as [|e t1 IH]; intros w; simpl; [by intros ->|].
  destruct e; intros (w' & Hcall & Hrest) H2; exists w'; (split; [done|]); by apply IH.
Qed.

Lemma faithful_ret {A} (a : A) : faithful (DynamoDB ctx) (ret a).
Proof. by intros w. Qed.

Lemma faithful_panic {A} msg : faithful (DynamoDB ctx) (panic (A:=A) msg).
Proof. by intros w. Qed.

Lemma faithful_bind {A B} (m : M W A) (f : A → M W B) :
  faithful (DynamoDB ctx) m → (∀ a, faithful (DynamoDB ctx) (f a)) →
  faithful (DynamoDB ctx) (bind m f).
Proof.
  intros Hm Hf w. specialize (Hm w).
  destruct (bind_run m f w) as [(a & t1 & w1 & Hrun & ->)|(msg & t1 & w1 & Hrun & ->)];
    rewrite Hrun in Hm; unfold calls, world in *; simpl in *; [|done].
  eapply answered_app; [exact Hm|apply Hf].
Qed.

Lemma faithful_deref {A} (p : option A) : faithful (DynamoDB ctx) (deref p).
Proof. destruct p; [apply faithful_ret|apply faithful_panic]. Qed.

Lemma faithful_orReturn (m k : M W (option error)) :
  faithful (DynamoDB ctx) m → faithful (DynamoDB ctx) k →
  faithful (DynamoDB ctx) (orReturn m k).
Proof.
  intros Hm Hk. apply faithful_bind; [done|]. intros [e|]; [apply faithful_ret|done].
Qed.

Lemma faithful_forEach {A} (l : list A) (body : A → M W (option error)) :
  (∀ x, faithful (DynamoDB ctx) (body x)) → faithful (DynamoDB ctx) (forEach l body).
Proof.
  intros Hbody. induction l as [|x l IH]; [apply faithful_ret|].
  simpl. by apply faithful_orReturn.
Qed.

Lemma faithful_retryLoop (tries : nat) (acceptor : M W (bool * option error)) :
  faithful (DynamoDB ctx) acceptor → faithful (DynamoDB ctx) (retryLoop tries acceptor).
Proof.
  intros Hacc. induction tries as [|n IH]; [apply faithful_ret|].
  simpl. apply faithful_bind; [done|].
  intros [[] [e|]]; try apply faithful_ret. done.
Qed.

Lemma faithful_callDescribeTable (name : string) :
  faithful (DynamoDB ctx) (callDescribeTable ctx name).
Proof.
  intros w. unfold callDescribeTable.
  destruct (DescribeTable (DynamoDB ctx) name w) as [[resp err] w1] eqn:Hcall.
  unfold calls, world. simpl. by exists w1.
Qed.

Lemma faithful_callUpdateTable (u : UpdateTableInput) :
  faithful (DynamoDB ctx) (callUpdateTable ctx u).
Proof.
  intros w. unfold callUpdateTable.
  destruct (UpdateTable (DynamoDB ctx) u w) as [err w1] eqn:Hcall.
  unfold calls, world. simpl. by exists w1.
Qed.

Lemma faithful_waitForTableState (name : string) (exist : bool) :
  faithful (DynamoDB ctx) (waitForTableState ctx name exist).
Proof.
  unfold waitForTableState, RetryUntilLong. apply faithful_bind.
  - apply faithful_retryLoop. unfold tableStateProbe.
    apply faithful_bind; [apply faithful_callDescribeTable|].
    intros [description [e|]].
    { destruct (IsAWSError e _); apply faithful_ret. }
    destruct exist; [|apply faithful_ret].
    apply faithful_bind; [apply faithful_deref|]. intros desc.
    apply faithful_bind; [apply faithful_deref|]. intros tab.
    destruct (negb _); apply faithful_ret.
  - intros [succ [e|]]; [apply faithful_ret|]. destruct (negb succ); apply faithful_ret.
Qed.

Lemma faithful_updateTable (name : string) (u : UpdateTableInput) :
  faithful (DynamoDB ctx) (updateTable ctx name u).
Proof.
  unfold updateTable, RetryUntil. apply faithful_bind.
  - apply faithful_retryLoop. unfold updateAttempt.
    apply faithful_bind; [apply faithful_callUpdateTable|].
    intros [e|]; [|apply faithful_ret]. destruct (IsAWSError e _); apply faithful_ret.
  - intros [succ [e|]]; [apply faithful_ret|].
    destruct (negb succ); [apply faithful_ret|].
    apply faithful_orReturn; [apply faithful_waitForTableState|apply faithful_ret].
Qed.

End Faithful.

Section UpdateSequence.
Context {W : Type}.
Variable ParseResourceName : string → string * option error.
Variable ctx : Context W.

Lemma faithful_Update (id : string) (old new : Table) (diff : ObjectDiff) :
  faithful (DynamoDB ctx) (Update ParseResourceName ctx id old new diff).
Proof.
  unfold Update. destruct (ParseResourceName id) as [name [err|]]; [apply faithful_ret|].
  apply faithful_orReturn.
  { destruct (_ || _); [apply faithful_updateTable|apply faithful_ret]. }
  destruct (Changed diff Table_GlobalSecondaryIndexes); [|apply faithful_ret].
  cbv zeta.
  repeat (apply faithful_orReturn;
          [apply faithful_forEach; intros o; apply faithful_updateTable|]).
  apply faithful_orReturn; [apply faithful_waitForTableState|apply faithful_ret].
Qed.


End UpdateSequence.

Section UpdateClaims.
Context {W : Type}.
Variable ParseResourceName : string → string * option error.
Variable ctx : Context W.


(** C9: with an identifier that parses and a diff that reports neither
    capacity nor the index collection as changed, [Update] returns nil, has
    issued no call (no mutating request, no describe of a wait) and leaves the
    remote world as it was. *)
Theorem Update_without_change_is_silent (id name : string) (old new : Table)
    (diff : ObjectDiff) (w : W) :
  ParseResourceName id = (name, None) →
  Changed diff Table_ReadCapacity = false →
  Changed diff Table_WriteCapacity = false →
  Changed diff Table_GlobalSecondaryIndexes = false →
  Update ParseResourceName ctx id old new diff w = (Val None, [], w).
Proof.
  intros Hparse Hread Hwrite Hgsi. unfold Update.
  by rewrite Hparse, Hread, Hwrite, Hgsi.
Qed.

Lemma rejected_not_accepted (u : UpdateTableInput) (retries : list Event) :
  Forall (rejected u) retries → List.filter isAcceptedUpdate retries = [].
Proof.
  induction 1 as [|e l (err & -> & _) _ IH]; [done|]. simpl. exact IH.
Qed.

Lemma describes_not_accepted (name : string) (polls : list Event) :
  Forall (describes name) polls → List.filter isAcceptedUpdate polls = [].
Proof.
  induction 1 as [|e l (resp & err & ->) _ IH]; [done|]. simpl. exact IH.
Qed.

Lemma completeStep_accepted_once (name : string) (u : UpdateTableInput) (t : list Event) :
  completeStep name u t → List.filter isAcceptedUpdate t = [CallUpdateTable u None].
Proof.
  intros (retries & polls & last & -> & Hretries & Hpolls & (resp & tab & -> & _)).
  rewrite List.filter_app, (rejected_not_accepted u) by done. simpl.
  rewrite List.filter_app, (describes_not_accepted name) by done. done.
Qed.

(** The calls of one step are describe calls and requests of that step. *)
Lemma step_calls (name : string) (u : UpdateTableInput) (t : list Event) :
  completeStep name u t ∨ abortedStep name u t →
  Forall (fun e => describes name e ∨ ∃ err, e = CallUpdateTable u err) t.
Proof.
  assert (Hrej : ∀ l, Forall (rejected u) l →
            Forall (fun e => describes name e ∨ ∃ err, e = CallUpdateTable u err) l).
  { intros l Hl. eapply Forall_impl; [exact Hl|]. intros e (err & -> & _). right. eauto. }
  assert (Hdesc : ∀ l, Forall (describes name) l →
            Forall (fun e => describes name e ∨ ∃ err, e = CallUpdateTable u err) l).
  { intros l Hl. eapply Forall_impl; [exact Hl|]. by left. }
  intros [(retries & polls & last & -> & Hretries & Hpolls & (resp & tab & -> & _))
         |[Hall|[(retries & err & -> & Hretries & _)
                |(retries & polls & -> & Hretries & Hpolls)]]].
  - apply Forall_app. split; [auto|]. constructor; [right; eauto|].
    apply Forall_app. split; [auto|]. constructor; [|constructor]. left. by eexists _, _.
  - auto.
  - apply Forall_app. split; [auto|]. constructor; [right; eauto|constructor].
  - apply Forall_app. split; [auto|]. constructor; [right; eauto|auto].
Qed.

Lemma planTrace_calls (name : string) (plan : list UpdateTableInput) ok (t : list Event) :
  planTrace name plan ok t →
  Forall (fun e => describes name e ∨ ∃ u err, e = CallUpdateTable u err ∧ u ∈ plan) t.
Proof.
  induction 1 as [|u rest ok t ts Hstep _ IH|u rest t Hstep].
  - constructor.
  - apply Forall_app. split.
    + eapply Forall_impl; [apply (step_calls name u); by left|].
      intros e [?|[err ->]]; [by left|right]. exists u, err. split; [done|left].
    + eapply Forall_impl; [exact IH|].
      intros e [?|(u' & err & -> & Hin)]; [by left|right].
      exists u', err. split; [done|by right].
  - eapply Forall_impl; [apply (step_calls name u); by right|].
    intros e [?|[err ->]]; [by left|right]. exists u, err. split; [done|left].
Qed.

(** Every call of [Update] is a describe call or a request of its plan. *)
Lemma Update_calls (id : string) (old new : Table) (diff : ObjectDiff) (w : W) :
  Forall (fun e =>
            describes (ParseResourceName id).1 e
            ∨ ∃ u err, e = CallUpdateTable u err
                       ∧ u ∈ issuedPlan (ParseResourceName id).1 old new diff)
         (calls (Update ParseResourceName ctx id old new diff w)).
Proof.
  destruct (ParseResourceName id) as [name [err|]] eqn:Hparse.
  - rewrite (Update_parse_error _ _ _ _ _ _ _ _ w Hparse). constructor.
  - destruct (Update_runs_issuedPlan ParseResourceName ctx id name old new diff Hparse w)
      as (ok & steps & tail & -> & Hplan & Htail & _).
    apply Forall_app. split; [by apply planTrace_calls in Hplan|].
    eapply Forall_impl; [exact Htail|]. by left.
Qed.

(** C8, as the code has it: with an identifier that parses and a diff that
    reports read or write capacity as changed and the index collection as
    unchanged, [Update] runs exactly one step, the throughput-only update of
    the table to the new capacity.  The request is sent again only after a
    transient answer (not-found or in-use) and at most as often as the short
    profile has attempts, so more than one throughput-update call may be
    issued; it is accepted at most once, and exactly once when [Update]
    returns nil, after a wait that found the table ACTIVE.  No request on an
    index is among the calls, and every recorded answer is the answer of the
    remote. *)
Theorem Update_capacity_only (id name : string) (old new : Table)
    (diff : ObjectDiff) (w : W) :
  ParseResourceName id = (name, None) →
  Changed diff Table_ReadCapacity || Changed diff Table_WriteCapacity = true →
  Changed diff Table_GlobalSecondaryIndexes = false →
  ∃ u,
    throughputOnly name new u
    ∧ Update ParseResourceName ctx id old new diff w = updateTable ctx name u w
    ∧ ((stepCarried ctx name u (calls (Update ParseResourceName ctx id old new diff w))
        ∧ outcome (Update ParseResourceName ctx id old new diff w) = Val None)
       ∨ stepGivenUp ctx name u
           (calls (Update ParseResourceName ctx id old new diff w))
           (outcome (Update ParseResourceName ctx id old new diff w)))
    ∧ answered (DynamoDB ctx)
        (calls (Update ParseResourceName ctx id old new diff w)) w
        (world (Update ParseResourceName ctx id old new diff w))
    ∧ Forall (fun e => ¬ isIndexCall e)
        (calls (Update ParseResourceName ctx id old new diff w))
    ∧ (outcome (Update ParseResourceName ctx id old new diff w) = Val None →
       List.filter isAcceptedUpdate
         (calls (Update ParseResourceName ctx id old new diff w))
       = [CallUpdateTable u None]).
Proof.
  intros Hparse Hcap Hgsi. exists (throughputUpdate name new).
  split; [apply throughputUpdate_throughputOnly|].
  assert (Hrun : Update ParseResourceName ctx id old new diff w
                 = updateTable ctx name (throughputUpdate name new) w).
  { unfold Update. rewrite Hparse, Hcap, Hgsi. apply orReturn_ret_None. }
  split; [done|]. split; [rewrite Hrun; apply updateTable_step|].
  split; [apply faithful_Update|]. rewrite Hrun.
  destruct (updateTable_shape ctx name (throughputUpdate name new) w)
    as [[Hok Hstep]|[Hko Hstep]].
  - split; [|intros _; by eapply completeStep_accepted_once].
    eapply Forall_impl; [apply (step_calls name); by left|].
    intros e [(resp & err & ->)|[err ->]] (u & err' & Heq & Hidx); by simplify_eq.
  - split; [|done].
    eapply Forall_impl; [apply (step_calls name); by right|].
    intros e [(resp & err & ->)|[err ->]] (u & err' & Heq & Hidx); by simplify_eq.
Qed.

End UpdateClaims.


Lemma Update_without_change_is_silent_witness :
  Update sampleParseResourceName calmCtx "table/orders" ordersBefore ordersBefore
    (changedExactly []) 0%nat
  = (Val None, [], 0%nat).
Proof.
  apply (Update_without_change_is_silent sampleParseResourceName calmCtx "table/orders"
           "orders"); reflexivity.
Defined.

Lemma Update_capacity_only_witness :
  ∃ u,
    throughputOnly "orders" ordersScaled u
    ∧ Update sampleParseResourceName busyOnceCtx "table/orders" ordersBefore ordersScaled
        (changedExactly [Table_ReadCapacity; Table_WriteCapacity]) 0%nat
      = updateTable busyOnceCtx "orders" u 0%nat
    ∧ ((stepCarried busyOnceCtx "orders" u
          (calls (Update sampleParseResourceName busyOnceCtx "table/orders" ordersBefore
                    ordersScaled
                    (changedExactly [Table_ReadCapacity; Table_WriteCapacity]) 0%nat))
        ∧ outcome (Update sampleParseResourceName busyOnceCtx "table/orders" ordersBefore
                     ordersScaled
                     (changedExactly [Table_ReadCapacity; Table_WriteCapacity]) 0%nat)
          = Val None)
       ∨ stepGivenUp busyOnceCtx "orders" u
           (calls (Update sampleParseResourceName busyOnceCtx "table/orders" ordersBefore
                     ordersScaled
                     (changedExactly [Table_ReadCapacity; Table_WriteCapacity]) 0%nat))
           (outcome (Update sampleParseResourceName busyOnceCtx "table/orders"
                       ordersBefore ordersScaled
                       (changedExactly [Table_ReadCapacity; Table_WriteCapacity])
                       0%nat)))
    ∧ answered (DynamoDB busyOnceCtx)
        (calls (Update sampleParseResourceName busyOnceCtx "table/orders" ordersBefore
                  ordersScaled
                  (changedExactly [Table_ReadCapacity; Table_WriteCapacity]) 0%nat))
        0%nat
        (world (Update sampleParseResourceName busyOnceCtx "table/orders" ordersBefore
                  ordersScaled
                  (changedExactly [Table_ReadCapacity; Table_WriteCapacity]) 0%nat))
    ∧ Forall (fun e => ¬ isIndexCall e)
        (calls (Update sampleParseResourceName busyOnceCtx "table/orders" ordersBefore
                  ordersScaled
                  (changedExactly [Table_ReadCapacity; Table_WriteCapacity]) 0%nat))
    ∧ (outcome (Update sampleParseResourceName busyOnceCtx "table/orders" ordersBefore
                  ordersScaled
                  (changedExactly [Table_ReadCapacity; Table_WriteCapacity]) 0%nat)
       = Val None →
       List.filter isAcceptedUpdate
         (calls (Update sampleParseResourceName busyOnceCtx "table/orders" ordersBefore
                   ordersScaled
                   (changedExactly [Table_ReadCapacity; Table_WriteCapacity]) 0%nat))
       = [CallUpdateTable u None]).
Proof.
  apply (Update_capacity_only sampleParseResourceName busyOnceCtx "table/orders"
           "orders");
    reflexivity.
Defined.

(** C8, as stated, fails: with an identifier that parses and a diff that
    reports only the capacities as changed, against a remote that turns the
    first UpdateTable request down as in use and accepts the second, [Update]
    returns nil after two throughput-update calls, not exactly one. *)
Lemma Update_capacity_only_resends_rejected_request :
  sampleParseResourceName "table/orders" = ("orders", None)
  ∧ Changed (changedExactly [Table_ReadCapacity; Table_WriteCapacity]) Table_ReadCapacity
    = true
  ∧ Changed (changedExactly [Table_ReadCapacity; Table_WriteCapacity]) Table_WriteCapacity
    = true
  ∧ Changed (changedExactly [Table_ReadCapacity; Table_WriteCapacity])
      Table_GlobalSecondaryIndexes = false
  ∧ outcome (Update sampleParseResourceName busyOnceCtx "table/orders" ordersBefore
               ordersScaled (changedExactly [Table_ReadCapacity; Table_WriteCapacity])
               0%nat)
    = Val None
  ∧ map requestKind
      (calls (Update sampleParseResourceName busyOnceCtx "table/orders" ordersBefore
                ordersScaled (changedExactly [Table_ReadCapacity; Table_WriteCapacity])
                0%nat))
    = [ThroughputRequest; ThroughputRequest; WaitPoll]
  ∧ length (List.filter isThroughputCall
              (calls (Update sampleParseResourceName busyOnceCtx "table/orders"
                        ordersBefore ordersScaled
                        (changedExactly [Table_ReadCapacity; Table_WriteCapacity])
                        0%nat)))
    = 2%nat.
Proof. repeat split. Qed.

(** ** The diff of two index collections *)

Lemma elem_of_map {A B} (f : A → B) (l : list A) (y : B) :
  y ∈ map f l ↔ ∃ x, y = f x ∧ x ∈ l.
Proof. change (map f l) with (f <$> l). apply list_elem_of_fmap. Qed.

(** Equal truncated capacities give equal comparison keys. *)
Lemma HashValue_truncated (o n : globalSecondaryIndexHash) :
  float_to_int (GSI.ReadCapacity (item o)) = float_to_int (GSI.ReadCapacity (item n)) →
  float_to_int (GSI.WriteCapacity (item o)) = float_to_int (GSI.WriteCapacity (item n)) →
  HashValue o = HashValue n.
Proof. intros Hread Hwrite. unfold HashValue. simpl. by rewrite Hread, Hwrite. Qed.

(** An index under which both sets hold an entry with the same comparison
    key is no modification. *)
Lemma same_key_is_no_update (old new : Table) (k : string)
    (o n : globalSecondaryIndexHash) :
  newGlobalSecondaryIndexHashSet (Tab.GlobalSecondaryIndexes old) !! k = Some o →
  newGlobalSecondaryIndexHashSet (Tab.GlobalSecondaryIndexes new) !! k = Some n →
  HashValue o = HashValue n →
  k ∉ names (Updates (indexDiff old new)).
Proof.
  intros Ho Hn Hsame. unfold names, indexDiff.
  rewrite Updates_names by apply indexSet_keyed.
  intros (o' & n' & Ho' & Hn' & Hne). apply Hne. congruence.
Qed.

Lemma readBackFrom_spec (fuel : nat) (r0 r : Z) :
  readBackFrom fuel r0 = true → r0 ≤ r < r0 + Z.of_nat fuel → readsBack r = true.
Proof.
  revert r0. induction fuel as [|fuel IH]; intros r0 Hall Hr; [lia|].
  simpl in Hall. apply andb_true_iff in Hall as [Hhead Htail].
  destruct (decide (r = r0)) as [->|Hne]; [done|].
  apply (IH (r0 + 1)); [done|lia].
Qed.

(** Every code point below the surrogates reads back from its string. *)
Lemma readsBack_below_surrogates : readBackFrom (Z.to_nat 0xD800) 0 = true.
Proof. vm_compute. reflexivity. Qed.

Lemma readsBack_keyRange (r : Z) : keyRange r → readsBack r = true.
Proof.
  intros Hr. apply (readBackFrom_spec _ 0 r readsBack_below_surrogates).
  rewrite Z2Nat.id by done. exact Hr.
Qed.

Lemma decodePrefix_intstring (r : Z) (rest : string) :
  keyRange r → decodePrefix (intstring r +:+ rest) = Some (r, rest).
Proof.
  intros Hr%readsBack_keyRange. unfold readsBack in Hr.
  destruct (intstring r) as [|a [|b [|c [|]]]]; try done; simpl.
  - apply andb_true_iff in Hr as [-> ->%Z.eqb_eq]. done.
  - apply andb_true_iff in Hr as [[Ha Hb]%andb_true_iff ->%Z.eqb_eq].
    apply negb_true_iff in Ha. by rewrite Ha, Hb.
  - apply andb_true_iff in Hr as [[Ha Hb]%andb_true_iff ->%Z.eqb_eq].
    apply negb_true_iff in Ha, Hb. by rewrite Ha, Hb.
Qed.

(** On capacities in the key range, the comparison key tells different
    truncated capacities apart. *)
Lemma HashValue_inj_keyRange (o n : globalSecondaryIndexHash) :
  capacitiesInKeyRange o → capacitiesInKeyRange n →
  HashValue o = HashValue n →
  float_to_int (GSI.ReadCapacity (item o)) = float_to_int (GSI.ReadCapacity (item n))
  ∧ float_to_int (GSI.WriteCapacity (item o)) = float_to_int (GSI.WriteCapacity (item n)).
Proof.
  intros [Hro Hwo] [Hrn Hwn] Hkey. unfold HashValue in Hkey. simpl in Hkey.
  apply (f_equal decodePrefix) in Hkey.
  rewrite !decodePrefix_intstring in Hkey by done.
  injection Hkey as Hread Hwrite. split; [done|].
  change (intstring (float_to_int (GSI.WriteCapacity (item o)))
          = intstring (float_to_int (GSI.WriteCapacity (item n)))) in Hwrite.
  apply (f_equal (fun s => decodePrefix (s +:+ ""))) in Hwrite.
  rewrite !decodePrefix_intstring in Hwrite by done. by injection Hwrite.
Qed.

(** The comparison key does not tell apart numbers that are no Unicode code
    points: [string(int(x))] renders each of them as U+FFFD. *)
Example capacity_key_collision :
  HashValue (mkGlobalSecondaryIndexHash (sampleIndex "byUser" 55296 5))
  = HashValue (mkGlobalSecondaryIndexHash (sampleIndex "byUser" 55297 5)).
Proof. reflexivity. Qed.

(** C3, as the code has it: the additions, modifications and removals of the
    diff repeat no index name and share none; additions are the names present
    only in the new collection, removals the names present only in the old
    one, modifications the names present in both whose comparison keys differ
    (the key is built from the read and write capacities truncated to
    integers); an index present in both collections with the same truncated
    capacities is in none of the three parts, and one whose truncated read or
    write capacities differ, all of them in the range 0..55295, is a
    modification. *)
Theorem index_diff_parts (old new : Table) :
  let oldSet := newGlobalSecondaryIndexHashSet (Tab.GlobalSecondaryIndexes old) in
  let newSet := newGlobalSecondaryIndexHashSet (Tab.GlobalSecondaryIndexes new) in
  let d := indexDiff old new in
  NoDup (names (Adds d) ++ names (Updates d) ++ names (Deletes d))
  ∧ ∀ k : string,
      (k ∈ names (Adds d)
       ↔ k ∈ indexNames (Tab.GlobalSecondaryIndexes new)
         ∧ (k ∉ indexNames (Tab.GlobalSecondaryIndexes old)))
      ∧ (k ∈ names (Deletes d)
         ↔ k ∈ indexNames (Tab.GlobalSecondaryIndexes old)
           ∧ (k ∉ indexNames (Tab.GlobalSecondaryIndexes new)))
      ∧ (k ∈ names (Updates d)
         ↔ ∃ o n, oldSet !! k = Some o ∧ newSet !! k = Some n
                  ∧ HashValue o ≠ HashValue n)
      ∧ (∀ o n,
           oldSet !! k = Some o → newSet !! k = Some n →
           float_to_int (GSI.ReadCapacity (item o))
           = float_to_int (GSI.ReadCapacity (item n)) →
           float_to_int (GSI.WriteCapacity (item o))
           = float_to_int (GSI.WriteCapacity (item n)) →
           (k ∉ names (Adds d)) ∧ (k ∉ names (Updates d)) ∧ (k ∉ names (Deletes d)))
      ∧ (∀ o n,
           oldSet !! k = Some o → newSet !! k = Some n →
           capacitiesInKeyRange o → capacitiesInKeyRange n →
           float_to_int (GSI.ReadCapacity (item o))
           ≠ float_to_int (GSI.ReadCapacity (item n))
           ∨ float_to_int (GSI.WriteCapacity (item o))
             ≠ float_to_int (GSI.WriteCapacity (item n)) →
           k ∈ names (Updates d)).
Proof.
  intros oldSet newSet d.
  pose proof (indexSet_keyed (Tab.GlobalSecondaryIndexes old)) as Hold.
  pose proof (indexSet_keyed (Tab.GlobalSecondaryIndexes new)) as Hnew.
  fold oldSet in Hold. fold newSet in Hnew.
  split; [by apply Diff_parts_NoDup|].
  intros k.
  assert (Hadds : k ∈ names (Adds d) ↔ is_Some (newSet !! k) ∧ oldSet !! k = None)
    by by apply Adds_names.
  assert (Hdels : k ∈ names (Deletes d) ↔ is_Some (oldSet !! k) ∧ newSet !! k = None)
    by by apply Deletes_names.
  assert (Hupds : k ∈ names (Updates d)
                  ↔ ∃ o n, oldSet !! k = Some o ∧ newSet !! k = Some n
                           ∧ HashValue o ≠ HashValue n)
    by by apply Updates_names.
  split; [|split; [|split; [|split]]].
  - rewrite Hadds. unfold oldSet, newSet. by rewrite indexSet_names, indexSet_None.
  - rewrite Hdels. unfold oldSet, newSet. by rewrite indexSet_names, indexSet_None.
  - exact Hupds.
  - intros o n Ho Hn Hread Hwrite. rewrite Hadds, Hdels, Hupds.
    split; [|split].
    + intros [_ Hnone]. congruence.
    + rewrite <- Hupds. apply (same_key_is_no_update old new k o n Ho Hn).
      by apply HashValue_truncated.
    + intros [_ Hnone]. congruence.
  - intros o n Ho Hn Hro Hrn Hdiff. apply Hupds. exists o, n.
    split; [done|]. split; [done|]. intros Hkey.
    destruct (HashValue_inj_keyRange o n Hro Hrn Hkey) as [Hread Hwrite].
    by destruct Hdiff.
Qed.

Lemma index_diff_parts_witness :
  ("byUser" ∉ names (Adds (indexDiff fractionBefore fractionAfter)))
  ∧ ("byUser" ∉ names (Updates (indexDiff fractionBefore fractionAfter)))
  ∧ ("byUser" ∉ names (Deletes (indexDiff fractionBefore fractionAfter))).
Proof.
  apply (proj1 (proj2 (proj2 (proj2 (proj2 (index_diff_parts fractionBefore
                                               fractionAfter) "byUser"))))
           (mkGlobalSecondaryIndexHash (sampleIndex "byUser" 5 5))
           (mkGlobalSecondaryIndexHash (sampleIndex "byUser" (11 # 2) 5)));
    reflexivity.
Defined.

(** C3, as stated, fails: an index present in both collections whose read
    capacity differs (5 against 5.5) is not among the modifications. *)
Lemma fraction_change_is_no_modification :
  newGlobalSecondaryIndexHashSet (Tab.GlobalSecondaryIndexes fractionBefore) !! "byUser"
  = Some (mkGlobalSecondaryIndexHash (sampleIndex "byUser" 5 5))
  ∧ newGlobalSecondaryIndexHashSet (Tab.GlobalSecondaryIndexes fractionAfter) !! "byUser"
    = Some (mkGlobalSecondaryIndexHash (sampleIndex "byUser" (11 # 2) 5))
  ∧ ¬ (5 == 11 # 2)%Q
  ∧ names (Updates (indexDiff fractionBefore fractionAfter)) = [].
Proof. split; [|split; [|split]]; try reflexivity. by intros ?. Qed.

Section TruncationClaim.
Context {W : Type}.
Variable ParseResourceName : string → string * option error.
Variable ctx : Context W.

(** C10: the comparison key of an index carries its read and write capacity
    truncated to integers.  For an index name under which both the old and
    the new collection hold an entry, equal truncated read capacities and
    equal truncated write capacities make the index unmodified: it is not
    among the modifications of the diff, and no [Update] of the old
    description to the new one issues an update-index-capacity request for
    it, whatever the fractions are. *)
Theorem same_truncated_capacity_is_unmodified (old new : Table) (k : string)
    (o n : globalSecondaryIndexHash) :
  newGlobalSecondaryIndexHashSet (Tab.GlobalSecondaryIndexes old) !! k = Some o →
  newGlobalSecondaryIndexHashSet (Tab.GlobalSecondaryIndexes new) !! k = Some n →
  float_to_int (GSI.ReadCapacity (item o)) = float_to_int (GSI.ReadCapacity (item n)) →
  float_to_int (GSI.WriteCapacity (item o)) = float_to_int (GSI.WriteCapacity (item n)) →
  HashValue o = HashValue n
  ∧ (k ∉ names (Updates (indexDiff old new)))
  ∧ ∀ (id : string) (diff : ObjectDiff) (w : W),
      Forall (fun e => ¬ updatesIndexCapacity k e)
        (calls (Update ParseResourceName ctx id old new diff w)).
Proof.
  intros Ho Hn Hread Hwrite.
  pose proof (HashValue_truncated o n Hread Hwrite) as Hsame.
  pose proof (same_key_is_no_update old new k o n Ho Hn Hsame) as Hunmodified.
  split; [done|]. split; [done|].
  intros id diff w. eapply Forall_impl; [apply Update_calls|].
  intros e [(resp & err & ->)|(u & err & -> & Hin)]
    (u' & err' & g & a & Heq & Hg & Hupdate & Hname); simplify_eq.
  unfold issuedPlan, throughputStep in Hin. apply elem_of_app in Hin as [Hin|Hin].
  { destruct (_ || _); [|by apply elem_of_nil in Hin].
    apply list_elem_of_singleton in Hin as ->. by apply elem_of_nil in Hg. }
  destruct (Changed diff Table_GlobalSecondaryIndexes); [|by apply elem_of_nil in Hin].
  unfold indexSteps in Hin. rewrite !elem_of_app, !elem_of_map in Hin.
  destruct Hin as [(x & -> & Hx)|[(x & -> & Hx)|(x & -> & Hx)]];
    apply list_elem_of_singleton in Hg as ->; simpl in Hupdate; simplify_eq.
  simpl in Hname. simplify_eq. apply Hunmodified.
  unfold names. apply elem_of_map. by exists x.
Qed.

End TruncationClaim.

Lemma same_truncated_capacity_is_unmodified_witness :
  HashValue (mkGlobalSecondaryIndexHash (sampleIndex "byUser" 5 5))
  = HashValue (mkGlobalSecondaryIndexHash (sampleIndex "byUser" (11 # 2) 5))
  ∧ ("byUser" ∉ names (Updates (indexDiff fractionBefore fractionAfter)))
  ∧ ∀ (id : string) (diff : ObjectDiff) (w : nat),
      Forall (fun e => ¬ updatesIndexCapacity "byUser" e)
        (calls (Update sampleParseResourceName calmCtx id fractionBefore fractionAfter
                  diff w)).
Proof.
  apply (same_truncated_capacity_is_unmodified sampleParseResourceName calmCtx
           fractionBefore fractionAfter "byUser"
           (mkGlobalSecondaryIndexHash (sampleIndex "byUser" 5 5))
           (mkGlobalSecondaryIndexHash (sampleIndex "byUser" (11 # 2) 5)));
    reflexivity.
Defined.

(** ** Get *)

Section GetFacts.
Context {W : Type}.
Variable ParseResourceName : string → string * option error.
Variable ctx : Context W.

(** Whatever error the describe call returns, [Get] hands it back as an
    error; a not-found answer is no exception. *)
Lemma Get_describe_error (id name : string) (w w1 : W)
    (resp : option DescribeTableOutput) (err : error) :
  ParseResourceName id = (name, None) →
  DescribeTable (DynamoDB ctx) name w = (resp, Some err, w1) →
  Get ParseResourceName ctx id w
  = (Val (None, Some err), [CallDescribeTable name resp (Some err)], w1).
Proof.
  intros Hparse Hdescribe. unfold Get. rewrite Hparse.
  unfold bind, callDescribeTable. by rewrite Hdescribe.
Qed.

(** An identifier that does not parse yields the parse error, unless that
    error is an AWS not-found error: this is the error the not-found test of
    [Get] looks at. *)
Lemma Get_parse_error (id name : string) (w : W) (err : error) :
  ParseResourceName id = (name, Some err) →
  Get ParseResourceName ctx id w
  = (Val (None, if IsAWSError err ["ResourceNotFoundException"] then None else Some err),
     [], w).
Proof.
  intros Hparse. unfold Get. rewrite Hparse.
  by destruct (IsAWSError err _).
Qed.

End GetFacts.

(** C1: the code does not do what the claim says.  For an identifier that
    parses, with the describe call answering ResourceNotFoundException, [Get]
    returns that error instead of the absent outcome (nil state, nil
    error). *)
Theorem Get_not_found_is_returned_as_error :
  Get sampleParseResourceName goneCtx "table/orders" 0%nat
  = (Val (None, Some notFound),
     [CallDescribeTable "orders" None (Some notFound)], 1%nat).
Proof. reflexivity. Qed.

(** ** Delete *)

Section DeleteFacts.
Context {W : Type}.
Variable ParseResourceName : string → string * option error.
Variable ctx : Context W.

Lemma append_inv_head (s a b : string) : s +:+ a = s +:+ b → a = b.
Proof. induction s as [|c s IH]; simpl; [done|]. intros [= Heq]. by apply IH. Qed.

Lemma couldNotDelete_is_no_timeout (name : string) (exist : bool) :
  couldNotDelete name ≠ convergenceTimeout name exist.
Proof.
  unfold couldNotDelete, convergenceTimeout. intros [= Heq].
  apply append_inv_head, append_inv_head in Heq. by destruct exist.
Qed.

Lemma deleteAttempt_run (name : string) (w : W) :
  ∃ res w1,
    deleteAttempt ctx name w = (Val (deleteAnswer res), [CallDeleteTable name res], w1).
Proof.
  unfold deleteAttempt.
  destruct (callDeleteTable_run ctx name w) as (res & w1 & Hcall).
  rewrite (bind_val _ _ _ _ _ _ Hcall). exists res, w1.
  destruct res as [e|]; [|done]. simpl.
  by destruct (IsAWSError e [ErrCodeResourceNotFoundException]),
       (IsAWSError e [ErrCodeResourceInUseException]).
Qed.

(** The calls of the delete attempts, by the result of the retry loop. *)
Lemma delete_loop_shape (name : string) (tries : nat) (w : W) :
  match outcome (retryLoop tries (deleteAttempt ctx name) w) with
  | Val (true, None) =>
      ∃ busy res,
        calls (retryLoop tries (deleteAttempt ctx name) w)
        = busy ++ [CallDeleteTable name res]
        ∧ Forall (busyDelete name) busy ∧ acceptedOrAbsent res
        ∧ (length busy < tries)%nat
  | Val (false, None) =>
      Forall (busyDelete name) (calls (retryLoop tries (deleteAttempt ctx name) w))
      ∧ length (calls (retryLoop tries (deleteAttempt ctx name) w)) = tries
  | Val (_, Some err) =>
      ∃ busy,
        calls (retryLoop tries (deleteAttempt ctx name) w)
        = busy ++ [CallDeleteTable name (Some err)]
        ∧ Forall (busyDelete name) busy ∧ permanentDeleteError err
        ∧ (length busy < tries)%nat
  | Panic _ => False
  end.
Proof.
  revert w. induction tries as [|n IH]; intros w; [by split; [constructor|]|]. simpl.
  destruct (deleteAttempt_run name w) as (res & w1 & Hcall).
  rewrite (bind_val _ _ _ _ _ _ Hcall).
  destruct res as [e|]; simpl.
  2:{ exists [], None. split; [done|]. split; [constructor|]. split; [by left|simpl; lia]. }
  destruct (IsAWSError e [ErrCodeResourceNotFoundException]) eqn:Habsent; simpl.
  { exists [], (Some e). split; [done|]. split; [constructor|].
    split; [right; eauto|simpl; lia]. }
  destruct (IsAWSError e [ErrCodeResourceInUseException]) eqn:Hbusy; simpl.
  2:{ exists []. split; [done|]. split; [constructor|]. split; [by split|simpl; lia]. }
  assert (Hrej : busyDelete name (CallDeleteTable name (Some e))) by by exists e.
  specialize (IH w1). unfold outcome, calls in *. simpl.
  destruct (retryLoop n (deleteAttempt ctx name) w1) as [[[[[] [e'|]]|msg] t] w2];
    simpl in *; try done.
  - destruct IH as (busy & -> & Hbusy' & Hperm & Hlen).
    exists (CallDeleteTable name (Some e) :: busy).
    split; [done|]. split; [by constructor|]. split; [done|simpl; lia].
  - destruct IH as (busy & res & -> & Hbusy' & Hres & Hlen).
    exists (CallDeleteTable name (Some e) :: busy), res.
    split; [done|]. split; [by constructor|]. split; [done|simpl; lia].
  - destruct IH as (busy & -> & Hbusy' & Hperm & Hlen).
    exists (CallDeleteTable name (Some e) :: busy).
    split; [done|]. split; [by constructor|]. split; [done|simpl; lia].
  - destruct IH as [Hall Hlen]. split; [by constructor|by rewrite Hlen].
Qed.

(** C5, as the code has it: [Delete] issues its delete call inside the long
    retry profile.  An in-use answer is retried; after as many in-use answers
    as the long profile has attempts, [Delete] returns the error that the
    table could not be deleted, which names the table and is not the error of
    a convergence timeout; an accepted request or a not-found answer ends the
    attempts at once and starts the wait for the table to be gone; any other
    error is returned at once.  With an identifier that does not parse,
    [Delete] returns the parse error and issues nothing. *)
Theorem Delete_retries_in_long_profile (id : string) (w : W) :
  match ParseResourceName id with
  | (name, None) =>
      (∀ exist, couldNotDelete name ≠ convergenceTimeout name exist)
      ∧ ∃ busy,
          Forall (busyDelete name) busy
          ∧ ((length busy = longTries ctx
              ∧ calls (Delete ParseResourceName ctx id w) = busy
              ∧ outcome (Delete ParseResourceName ctx id w)
                = Val (Some (couldNotDelete name)))
             ∨ (∃ err,
                  (length busy < longTries ctx)%nat
                  ∧ permanentDeleteError err
                  ∧ calls (Delete ParseResourceName ctx id w)
                    = busy ++ [CallDeleteTable name (Some err)]
                  ∧ outcome (Delete ParseResourceName ctx id w) = Val (Some err))
             ∨ (∃ res w1,
                  (length busy < longTries ctx)%nat
                  ∧ acceptedOrAbsent res
                  ∧ calls (Delete ParseResourceName ctx id w)
                    = busy ++ CallDeleteTable name res
                           :: calls (waitForTableState ctx name false w1)
                  ∧ Forall (describes name)
                      (calls (waitForTableState ctx name false w1))
                  ∧ outcome (Delete ParseResourceName ctx id w)
                    = outcome (waitForTableState ctx name false w1)))
  | (_, Some err) =>
      Delete ParseResourceName ctx id w = (Val (Some err), [], w)
  end.
Proof.
  destruct (ParseResourceName id) as [name [perr|]] eqn:Hparse.
  { unfold Delete. by rewrite Hparse. }
  split; [apply couldNotDelete_is_no_timeout|].
  unfold Delete, RetryUntilLong. rewrite Hparse.
  pose proof (delete_loop_shape name (longTries ctx) w) as Hloop.
  destruct (retryLoop (longTries ctx) (deleteAttempt ctx name) w)
    as [[[[succ err]|msg] t1] w1] eqn:Hrun; unfold outcome, calls in Hloop;
    simpl in Hloop; [|done].
  rewrite (bind_val _ _ _ _ _ _ Hrun).
  destruct err as [e|].
  { assert (Hshape : ∃ busy, t1 = busy ++ [CallDeleteTable name (Some e)]
                             ∧ Forall (busyDelete name) busy
                             ∧ permanentDeleteError e
                             ∧ (length busy < longTries ctx)%nat)
      by by destruct succ.
    destruct Hshape as (busy & -> & Hbusy & Hperm & Hlen).
    exists busy. split; [done|]. right; left. exists e.
    unfold outcome, calls. simpl. by rewrite app_nil_r. }
  destruct succ; simpl.
  - destruct Hloop as (busy & res & -> & Hbusy & Hres & Hlen).
    exists busy. split; [done|]. right; right. exists res, w1.
    split; [done|]. split; [done|]. unfold outcome, calls at 1. simpl.
    rewrite <- app_assoc. split; [done|]. split; [|done].
    apply waitForTableState_describes.
  - destruct Hloop as [Hbusy Hlen]. exists t1. split; [done|]. left.
    unfold outcome, calls. simpl. by rewrite app_nil_r.
Qed.

End DeleteFacts.

Lemma Delete_retries_in_long_profile_witness :
  (∀ exist, couldNotDelete "orders" ≠ convergenceTimeout "orders" exist)
  ∧ ∃ busy,
      Forall (busyDelete "orders") busy
      ∧ ((length busy = longTries stubbornCtx
          ∧ calls (Delete sampleParseResourceName stubbornCtx "table/orders" 0%nat) = busy
          ∧ outcome (Delete sampleParseResourceName stubbornCtx "table/orders" 0%nat)
            = Val (Some (couldNotDelete "orders")))
         ∨ (∃ err,
              (length busy < longTries stubbornCtx)%nat
              ∧ permanentDeleteError err
              ∧ calls (Delete sampleParseResourceName stubbornCtx "table/orders" 0%nat)
                = busy ++ [CallDeleteTable "orders" (Some err)]
              ∧ outcome (Delete sampleParseResourceName stubbornCtx "table/orders" 0%nat)
                = Val (Some err))
         ∨ (∃ res w1,
              (length busy < longTries stubbornCtx)%nat
              ∧ acceptedOrAbsent res
              ∧ calls (Delete sampleParseResourceName stubbornCtx "table/orders" 0%nat)
                = busy ++ CallDeleteTable "orders" res
                       :: calls (waitForTableState stubbornCtx "orders" false w1)
              ∧ Forall (describes "orders")
                  (calls (waitForTableState stubbornCtx "orders" false w1))
              ∧ outcome (Delete sampleParseResourceName stubbornCtx "table/orders" 0%nat)
                = outcome (waitForTableState stubbornCtx "orders" false w1))).
Proof.
  exact (Delete_retries_in_long_profile sampleParseResourceName stubbornCtx
           "table/orders" 0%nat).
Defined.

(** C5, as stated, fails: with a short profile of one attempt and a long
    profile of three, against a table that stays in use, [Delete] sends three
    delete requests before it gives up. *)
Lemma Delete_retries_beyond_short_profile :
  shortTries stubbornCtx = 1%nat
  ∧ calls (Delete sampleParseResourceName stubbornCtx "table/orders" 0%nat)
    = [CallDeleteTable "orders" (Some inUse);
       CallDeleteTable "orders" (Some inUse);
       CallDeleteTable "orders" (Some inUse)]
  ∧ outcome (Delete sampleParseResourceName stubbornCtx "table/orders" 0%nat)
    = Val (Some (couldNotDelete "orders")).
Proof. split; [|split]; reflexivity. Qed.

(** ** Create *)

Section CreateFacts.
Context {W : Type}.
Variable NewUniqueHex : string → Z → Z → string.
Variable ctx : Context W.

Lemma callCreateTable_run (input : CreateTableInput) (w : W) :
  ∃ resp err w1,
    CreateTable (DynamoDB ctx) input w = (resp, err, w1)
    ∧ callCreateTable ctx input w = (Val (resp, err), [CallCreateTable input resp err], w1).
Proof.
  unfold callCreateTable.
  destruct (CreateTable (DynamoDB ctx) input w) as [[resp err] w1]. eauto 6.
Qed.

Lemma describes_no_create (name : string) (polls : list Event) :
  Forall (describes name) polls → List.filter isCreateCall polls = [].
Proof.
  induction 1 as [|e l (resp & err & ->) _ IH]; [done|]. simpl. exact IH.
Qed.

(** C6: [Create], given a table name or a logical name to derive one from,
    issues the creation call exactly once, as its first call, and never
    again: every later call is a describe call of the wait.  When the
    creation call returns an error, [Create] returns that error with the
    empty identifier and issues nothing more. *)
Theorem Create_issues_one_creation_call (obj : Table) (w : W) :
  is_Some (Tab.TableName obj) ∨ is_Some (Tab.Name obj) →
  ∃ input name resp err w1 polls,
    cti_TableName input = Some name
    ∧ CreateTable (DynamoDB ctx) input w = (resp, err, w1)
    ∧ calls (Create NewUniqueHex ctx obj w) = CallCreateTable input resp err :: polls
    ∧ Forall (describes name) polls
    ∧ length (List.filter isCreateCall (calls (Create NewUniqueHex ctx obj w))) = 1%nat
    ∧ (∀ e, err = Some e →
         Create NewUniqueHex ctx obj w
         = (Val ("", Some e), [CallCreateTable input resp err], w1)).
Proof.
  intros Hnamed.
  assert (Hname : ∃ name,
            (match Tab.TableName obj with
             | Some n => ret n
             | None =>
                 n <- deref (Tab.Name obj) ;;
                 ret (NewUniqueHex (n +:+ "-") maxTableName sha1_Size)
             end) w = (Val name, [], w)).
  { destruct (Tab.TableName obj) as [n|]; [by eexists|].
    destruct (Tab.Name obj) as [n|]; [by eexists|]. by destruct Hnamed as [[]|[]]. }
  destruct Hname as [name Hname]. unfold Create.
  rewrite (bind_val _ _ _ _ _ _ Hname). cbv zeta.
  match goal with
  | |- context [callCreateTable ctx ?create] => set (input := create)
  end.
  destruct (callCreateTable_run input w) as (resp & err & w1 & Hremote & Hcall).
  rewrite (bind_val _ _ _ _ _ _ Hcall).
  match goal with
  | |- context [outcome (?k w1)] => set (rest := k)
  end.
  assert (Hrest : issuesOnly (describes name) rest).
  { subst rest. destruct err as [e|]; [apply issuesOnly_ret|].
    apply issuesOnly_bind; [apply issuesOnly_assertNotNil|]. intros r.
    apply issuesOnly_bind; [apply issuesOnly_assertNotNil|]. intros desc.
    apply issuesOnly_bind; [apply issuesOnly_assertNotNil|]. intros arn.
    apply issuesOnly_bind; [apply waitForTableState_describes|].
    intros [e|]; apply issuesOnly_ret. }
  exists input, name, resp, err, w1, (calls (rest w1)).
  split; [done|]. split; [done|]. unfold calls at 1 3. simpl.
  split; [done|]. split; [apply Hrest|].
  split; [by rewrite (describes_no_create name) by apply Hrest|].
  intros e ->. by subst rest.
Qed.

End CreateFacts.

Lemma Create_issues_one_creation_call_witness :
  ∃ input name resp err w1 polls,
    cti_TableName input = Some name
    ∧ CreateTable (DynamoDB calmCtx) input 0%nat = (resp, err, w1)
    ∧ calls (Create sampleNewUniqueHex calmCtx (sampleTable 5 5 None) 0%nat)
      = CallCreateTable input resp err :: polls
    ∧ Forall (describes name) polls
    ∧ length (List.filter isCreateCall
                (calls (Create sampleNewUniqueHex calmCtx (sampleTable 5 5 None) 0%nat)))
      = 1%nat
    ∧ (∀ e, err = Some e →
         Create sampleNewUniqueHex calmCtx (sampleTable 5 5 None) 0%nat
         = (Val ("", Some e), [CallCreateTable input resp err], w1)).
Proof.
  apply (Create_issues_one_creation_call sampleNewUniqueHex calmCtx
           (sampleTable 5 5 None) 0%nat).
  left. simpl. by eexists.
Defined.

(** ** The scenarios of the specification, run against the calm remote *)

(** Adding one index and removing another: one create-index request and one
    delete-index request, in that order, each followed by a wait, and the
    closing wait. *)
Example Update_add_and_remove_scenario :
  map requestKind
    (calls (Update sampleParseResourceName calmCtx "table/orders" swapBefore swapAfter
              (changedExactly [Table_GlobalSecondaryIndexes]) 0%nat))
  = [CreateIndexRequest "byStatus"; WaitPoll;
     DeleteIndexRequest "byDate"; WaitPoll;
     WaitPoll].
Proof. reflexivity. Qed.

(** Capacity raised from 5 to 10: one throughput request and its wait. *)
Example Update_capacity_scenario :
  map requestKind
    (calls (Update sampleParseResourceName calmCtx "table/orders" ordersBefore
              ordersScaled (changedExactly [Table_ReadCapacity; Table_WriteCapacity])
              0%nat))
  = [ThroughputRequest; WaitPoll].
Proof. reflexivity. Qed.

(** Capacity, one addition, one modification and one removal together. *)
Example Update_full_scenario :
  map requestKind
    (calls (Update sampleParseResourceName calmCtx "table/orders" ordersBefore
              ordersAfter
              (changedExactly [Table_ReadCapacity; Table_WriteCapacity;
                               Table_GlobalSecondaryIndexes]) 0%nat))
  = [ThroughputRequest; WaitPoll;
     CreateIndexRequest "byStatus"; WaitPoll;
     UpdateIndexRequest "byUser"; WaitPoll;
     DeleteIndexRequest "byDate"; WaitPoll;
     WaitPoll].
Proof. reflexivity. Qed.

(** A table that stays in use: [updateTable] re-sends the request as often
    as the short profile allows, then gives up. *)
Example Update_busy_scenario :
  map requestKind
    (calls (Update sampleParseResourceName stubbornCtx "table/orders" ordersBefore
              ordersScaled (changedExactly [Table_ReadCapacity]) 0%nat))
  = [ThroughputRequest]
  ∧ outcome (Update sampleParseResourceName stubbornCtx "table/orders" ordersBefore
               ordersScaled (changedExactly [Table_ReadCapacity]) 0%nat)
    = Val (Some (PlainError "DynamoDB table 'orders' could not be updated")).
Proof. split; reflexivity. Qed.

(** Deleting a table that is already gone succeeds with one delete request
    and one describe call. *)
Example Delete_absent_scenario :
  Delete sampleParseResourceName goneCtx "table/orders" 0%nat
  = (Val None,
     [CallDeleteTable "orders" (Some notFound);
      CallDescribeTable "orders" None (Some notFound)], 2%nat).
Proof. reflexivity. Qed.

(** A valid description passes [Check]; one with a short name and no read
    capacity gets two failures. *)
Example Check_valid_scenario : Check ordersBefore = ([], None).
Proof. reflexivity. Qed.

Example Check_two_violations_scenario :
  map fe_field
    (Check {| Tab.Name := Some "t";
              Tab.TableName := Some "ab";
              Tab.HashKey := "id";
              Tab.RangeKey := None;
              Tab.Attributes := [mkAttribute "id" "S"];
              Tab.ReadCapacity := Number 0;
              Tab.WriteCapacity := Number 5;
              Tab.GlobalSecondaryIndexes := None |}).1
  = [Table_Name; Table_ReadCapacity].
Proof. reflexivity. Qed.

(** * Further properties of the provider *)

(** ** The wait for a table state *)

Section WaitOutcomes.
Context {W : Type} (ctx : Context W).

(** X1: [waitForTableState] polls with describe calls on the one table, at
    most as many as the long profile has attempts.  It returns nil exactly
    after answers that left the wait undecided and one that decided it (the
    table ACTIVE, or not found when its absence is awaited); after as many
    undecided answers as there are attempts it returns the error that the
    table did not become active, respectively deleted; an error other than
    not-found ends the wait at once and is returned; an answer with neither
    error nor table makes the wait for an existing table panic. *)
Theorem waitForTableState_outcomes (name : string) (exist : bool) (w : W) :
  ∃ pending,
    Forall (notYet name exist) pending
    ∧ ((outcome (waitForTableState ctx name exist w)
        = Val (Some (convergenceTimeout name exist))
        ∧ calls (waitForTableState ctx name exist w) = pending
        ∧ length pending = longTries ctx)
       ∨ (∃ last,
            outcome (waitForTableState ctx name exist w) = Val None
            ∧ calls (waitForTableState ctx name exist w) = pending ++ [last]
            ∧ reached name exist last ∧ (length pending < longTries ctx)%nat)
       ∨ (∃ err last,
            outcome (waitForTableState ctx name exist w) = Val (Some err)
            ∧ calls (waitForTableState ctx name exist w) = pending ++ [last]
            ∧ describeFailure name err last ∧ (length pending < longTries ctx)%nat)
       ∨ (∃ msg last,
            outcome (waitForTableState ctx name exist w) = Panic msg
            ∧ exist = true
            ∧ calls (waitForTableState ctx name exist w) = pending ++ [last]
            ∧ emptyAnswer name last ∧ (length pending < longTries ctx)%nat)).
Proof.
  unfold waitForTableState, RetryUntilLong.
  destruct (wait_loop_outcomes ctx name exist (longTries ctx) w) as (pending & Hpending & Hcases).
  exists pending. split; [done|].
  destruct (retryLoop (longTries ctx) (tableStateProbe ctx name exist) w)
    as [[r t1] w1] eqn:Hloop. unfold outcome, calls in Hcases. simpl in Hcases.
  destruct Hcases as [(-> & -> & Hlen)
                     |[(last & -> & -> & Hlast & Hlen)
                      |[(err & last & -> & -> & Hlast & Hlen)
                       |(msg & last & -> & Hex & -> & Hlast & Hlen)]]].
  - left. rewrite (bind_val _ _ _ _ _ _ Hloop). unfold outcome, calls. simpl.
    by rewrite app_nil_r.
  - right; left. exists last. rewrite (bind_val _ _ _ _ _ _ Hloop).
    unfold outcome, calls. simpl. by rewrite app_nil_r.
  - right; right; left. exists err, last. rewrite (bind_val _ _ _ _ _ _ Hloop).
    unfold outcome, calls. simpl. by rewrite app_nil_r.
  - right; right; right. exists msg, last. rewrite (bind_panic _ _ _ _ _ _ Hloop).
    done.
Qed.

End WaitOutcomes.

(** ** One update step *)

Section StepOutcomes.
Context {W : Type} (ctx : Context W).

(** X2: [updateTable] sends its request at most as often as the short profile
    has attempts, and re-sends it only after a not-found or in-use answer.
    After that many such answers it returns the error that the table could
    not be updated, without having described the table; any other error is
    returned at once, again without a describe call; an accepted request is
    followed by the wait for ACTIVE, whose result is the result of the
    step. *)
Theorem updateTable_outcomes (name : string) (u : UpdateTableInput) (w : W) :
  ∃ retries,
    Forall (rejected u) retries
    ∧ ((length retries = shortTries ctx
        ∧ calls (updateTable ctx name u w) = retries
        ∧ outcome (updateTable ctx name u w) = Val (Some (couldNotUpdate name)))
       ∨ (∃ err,
            (length retries < shortTries ctx)%nat
            ∧ ¬ transient err
            ∧ calls (updateTable ctx name u w) = retries ++ [CallUpdateTable u (Some err)]
            ∧ outcome (updateTable ctx name u w) = Val (Some err))
       ∨ (∃ w1,
            (length retries < shortTries ctx)%nat
            ∧ calls (updateTable ctx name u w)
              = retries ++ CallUpdateTable u None
                        :: calls (waitForTableState ctx name true w1)
            ∧ outcome (updateTable ctx name u w)
              = outcome (waitForTableState ctx name true w1))).
Proof.
  unfold updateTable, RetryUntil.
  destruct (update_loop_outcomes ctx u (shortTries ctx) w) as (retries & Hretries & Hcases).
  exists retries. split; [done|].
  destruct (retryLoop (shortTries ctx) (updateAttempt ctx u) w) as [[r t1] w1] eqn:Hloop.
  unfold outcome, calls in Hcases. simpl in Hcases.
  destruct Hcases as [(-> & -> & Hlen)|[(-> & -> & Hlen)|(err & -> & -> & Hperm & Hlen)]];
    rewrite (bind_val _ _ _ _ _ _ Hloop).
  - left. unfold outcome, calls. simpl. by rewrite app_nil_r.
  - right; right. exists w1. split; [done|]. simpl.
    rewrite orReturn_ret_None. unfold outcome, calls at 1. simpl.
    by rewrite <- app_assoc.
  - right; left. exists err. unfold outcome, calls. simpl. by rewrite app_nil_r.
Qed.

End StepOutcomes.

(** ** Create, from the request to the identifier *)

Section CreateOutcomes.
Context {W : Type}.
Variable NewUniqueHex : string → Z → Z → string.
Variable ctx : Context W.

(** The first call of [Create] and what follows it. *)
Lemma Create_run (obj : Table) (w : W) :
  is_Some (Tab.TableName obj) ∨ is_Some (Tab.Name obj) →
  ∃ input resp err w1,
    cti_TableName input = Some (resolvedName NewUniqueHex obj)
    ∧ cti_AttributeDefinitions input = attributeDefinitionsOf (Tab.Attributes obj)
    ∧ cti_KeySchema input = keySchemaOf (Tab.HashKey obj) (Tab.RangeKey obj)
    ∧ cti_ProvisionedThroughput input
      = Some (throughputOf (Tab.ReadCapacity obj) (Tab.WriteCapacity obj))
    ∧ cti_GlobalSecondaryIndexes input
      = map indexDefinitionOf (default [] (Tab.GlobalSecondaryIndexes obj))
    ∧ CreateTable (DynamoDB ctx) input w = (resp, err, w1)
    ∧ match err, responseArn resp with
      | Some e, _ =>
          Create NewUniqueHex ctx obj w
          = (Val ("", Some e), [CallCreateTable input resp err], w1)
      | None, None =>
          Create NewUniqueHex ctx obj w
          = (Panic "An assertion has failed", [CallCreateTable input resp err], w1)
      | None, Some arn =>
          calls (Create NewUniqueHex ctx obj w)
          = CallCreateTable input resp err
            :: calls (waitForTableState ctx (resolvedName NewUniqueHex obj) true w1)
          ∧ outcome (Create NewUniqueHex ctx obj w)
            = createResult arn
                (outcome (waitForTableState ctx (resolvedName NewUniqueHex obj) true w1))
      end.
Proof.
  intros Hnamed.
  assert (Hname :
            (match Tab.TableName obj with
             | Some n => ret n
             | None =>
                 n <- deref (Tab.Name obj) ;;
                 ret (NewUniqueHex (n +:+ "-") maxTableName sha1_Size)
             end) w = (Val (resolvedName NewUniqueHex obj), [], w)).
  { unfold resolvedName. destruct (Tab.TableName obj) as [n|]; [done|].
    destruct (Tab.Name obj) as [n|]; [done|]. by destruct Hnamed as [[]|[]]. }
  unfold Create. rewrite (bind_val _ _ _ _ _ _ Hname). cbv zeta.
  match goal with
  | |- context [callCreateTable ctx ?create] => set (input := create)
  end.
  destruct (callCreateTable_run ctx input w) as (resp & err & w1 & Hremote & Hcall).
  rewrite (bind_val _ _ _ _ _ _ Hcall).
  exists input, resp, err, w1.
  split; [done|]. split; [done|]. split; [done|]. split; [done|].
  split; [by subst input; simpl; destruct (Tab.GlobalSecondaryIndexes obj)|].
  split; [done|].
  destruct err as [e|]; [done|].
  destruct resp as [r|]; [|done]. simpl.
  destruct (cto_TableDescription r) as [desc|] eqn:Hdesc.
  2:{ unfold outcome, calls, world, bind, assertNotNil, ret, panic. simpl.
      by rewrite Hdesc. }
  destruct (td_TableArn desc) as [arn|] eqn:Harn.
  2:{ unfold outcome, calls, world, bind, assertNotNil, ret, panic. simpl.
      rewrite Hdesc. simpl. by rewrite Harn. }
  unfold outcome, calls, world, bind, assertNotNil, ret, panic. simpl.
  rewrite Hdesc. simpl. rewrite Harn. simpl.
  destruct (waitForTableState ctx (resolvedName NewUniqueHex obj) true w1)
    as [[[[e|]|msg] t2] w2]; simpl; by rewrite ?app_nil_r.
Qed.

(** X3: [Create] returns an identifier only when the creation call was
    accepted and a describe call then found the table ACTIVE: the identifier
    is the ARN of the creation response, the creation call is the first call,
    and the last of the describe calls that follow, fewer than the long
    profile allows before it, reports the table ACTIVE. *)
Theorem Create_returns_arn_of_active_table (obj : Table) (w : W) (id : string) :
  is_Some (Tab.TableName obj) ∨ is_Some (Tab.Name obj) →
  outcome (Create NewUniqueHex ctx obj w) = Val (id, None) →
  ∃ input resp pending last,
    calls (Create NewUniqueHex ctx obj w)
    = CallCreateTable input resp None :: pending ++ [last]
    ∧ responseArn resp = Some id
    ∧ Forall (notYet (resolvedName NewUniqueHex obj) true) pending
    ∧ reportsActive (resolvedName NewUniqueHex obj) last
    ∧ (length pending < longTries ctx)%nat.
Proof.
  intros Hnamed Hout.
  destruct (Create_run obj w Hnamed)
    as (input & resp & err & w1 & _ & _ & _ & _ & _ & _ & Hrun).
  destruct err as [e|].
  { rewrite Hrun in Hout. done. }
  destruct (responseArn resp) as [arn|] eqn:Harn.
  2:{ rewrite Hrun in Hout. done. }
  destruct Hrun as [Hcalls Hres]. rewrite Hres in Hout.
  destruct (outcome (waitForTableState ctx (resolvedName NewUniqueHex obj) true w1))
    as [[e|]|msg] eqn:Hwait; simpl in Hout; try done.
  injection Hout as ->.
  destruct (waitForTableState_success ctx _ true w1 Hwait)
    as (pending & last & Hpolls & Hpending & Hlast & Hlen).
  exists input, resp, pending, last. rewrite Hcalls, Hpolls. done.
Qed.

(** X4: whenever [Create] returns an error the identifier it returns is
    empty, also when the error comes from the wait, after the remote accepted
    the creation: the caller then holds no identifier for a table that
    exists. *)
Theorem Create_error_returns_no_identifier (obj : Table) (w : W) (id : string) (e : error) :
  is_Some (Tab.TableName obj) ∨ is_Some (Tab.Name obj) →
  outcome (Create NewUniqueHex ctx obj w) = Val (id, Some e) →
  id = ""
  ∧ ∃ input resp err rest,
      calls (Create NewUniqueHex ctx obj w) = CallCreateTable input resp err :: rest
      ∧ (err = Some e ∧ rest = []
         ∨ err = None ∧ is_Some (responseArn resp)
           ∧ ∃ w1, rest = calls (waitForTableState ctx (resolvedName NewUniqueHex obj)
                                   true w1)
                   ∧ outcome (waitForTableState ctx (resolvedName NewUniqueHex obj)
                                true w1) = Val (Some e)).
Proof.
  intros Hnamed Hout.
  destruct (Create_run obj w Hnamed)
    as (input & resp & err & w1 & _ & _ & _ & _ & _ & _ & Hrun).
  destruct err as [e'|].
  { rewrite Hrun in Hout. injection Hout as <- <-. rewrite Hrun.
    split; [done|]. exists input, resp, (Some e'), []. split; [done|]. by left. }
  destruct (responseArn resp) as [arn|] eqn:Harn.
  2:{ rewrite Hrun in Hout. done. }
  destruct Hrun as [Hcalls Hres]. rewrite Hres in Hout.
  destruct (outcome (waitForTableState ctx (resolvedName NewUniqueHex obj) true w1))
    as [[e'|]|msg] eqn:Hwait; simpl in Hout; try done.
  injection Hout as <- <-. split; [done|].
  exists input, resp, None, (calls (waitForTableState ctx (resolvedName NewUniqueHex obj)
                                      true w1)).
  split; [done|]. right. split; [done|]. split; [by eexists|]. by exists w1.
Qed.

End CreateOutcomes.

(** ** The creation request *)

(** Within the int64 range the conversion is the integer part. *)
Lemma float_to_int_fits (q : Q) :
  fitsInt64 (Number q) → float_to_int (Number q) = integerPart q.
Proof.
  unfold fitsInt64, float_to_int, integerPart, MinInt64, MaxInt64. intros [Hlo Hhi].
  replace (- 2 ^ 63 <=? Qnum q ÷ Z.pos (Qden q)) with true
    by (symmetry; apply Z.leb_le; lia).
  by replace (Qnum q ÷ Z.pos (Qden q) <=? 2 ^ 63 - 1) with true
    by (symmetry; apply Z.leb_le; lia).
Qed.

Lemma float_to_int_at_least_one (x : float64) :
  atLeastOne x → fitsInt64 x → 1 ≤ float_to_int x.
Proof.
  destruct x as [q| | |]; try done. intros Hle Hfits.
  rewrite float_to_int_fits by done. simpl in Hle. unfold Qle in Hle. simpl in Hle.
  unfold integerPart. apply Z.quot_le_lower_bound; lia.
Qed.

Lemma fitsInt64_number (x : float64) : fitsInt64 x → x ≠ NaN.
Proof. by destruct x. Qed.

Lemma capacitiesOf_fit (obj : Table) :
  Forall fitsInt64 (capacitiesOf obj) →
  fitsInt64 (Tab.ReadCapacity obj)
  ∧ fitsInt64 (Tab.WriteCapacity obj)
  ∧ Forall (fun g => fitsInt64 (GSI.ReadCapacity g) ∧ fitsInt64 (GSI.WriteCapacity g))
      (default [] (Tab.GlobalSecondaryIndexes obj)).
Proof.
  unfold capacitiesOf. intros Hall.
  apply Forall_cons in Hall as [Hread Hall]. apply Forall_cons in Hall as [Hwrite Hall].
  split; [done|]. split; [done|].
  induction (default [] (Tab.GlobalSecondaryIndexes obj)) as [|g gsis IH]; [constructor|].
  simpl in Hall. apply Forall_cons in Hall as [Hr Hall].
  apply Forall_cons in Hall as [Hw Hall]. constructor; [done|]. by apply IH.
Qed.

Lemma getHashRangeKeys_keySchemaOf (hashKey : string) (rangeKey : option string) :
  getHashRangeKeys (keySchemaOf hashKey rangeKey) = Val (hashKey, rangeKey).
Proof. by destruct rangeKey. Qed.

Section CreateRequest.
Context {W : Type}.
Variable NewUniqueHex : string → Z → Z → string.
Variable ctx : Context W.

(** The creation call of [Create] carries the request built from the
    description. *)
Lemma Create_request (obj : Table) (w : W) input resp err rest :
  is_Some (Tab.TableName obj) ∨ is_Some (Tab.Name obj) →
  calls (Create NewUniqueHex ctx obj w) = CallCreateTable input resp err :: rest →
  cti_TableName input = Some (resolvedName NewUniqueHex obj)
  ∧ cti_AttributeDefinitions input = attributeDefinitionsOf (Tab.Attributes obj)
  ∧ cti_KeySchema input = keySchemaOf (Tab.HashKey obj) (Tab.RangeKey obj)
  ∧ cti_ProvisionedThroughput input
    = Some (throughputOf (Tab.ReadCapacity obj) (Tab.WriteCapacity obj))
  ∧ cti_GlobalSecondaryIndexes input
    = map indexDefinitionOf (default [] (Tab.GlobalSecondaryIndexes obj)).
Proof.
  intros Hnamed Hcalls.
  destruct (Create_run NewUniqueHex ctx obj w Hnamed)
    as (input' & resp' & err' & w1 & Hn & Ha & Hk & Ht & Hg & _ & Hrun).
  assert (input = input') as ->; [|done].
  destruct err' as [e|]; [rewrite Hrun in Hcalls; by injection Hcalls|].
  destruct (responseArn resp'); [|rewrite Hrun in Hcalls; by injection Hcalls].
  destruct Hrun as [Hcalls' _]. rewrite Hcalls' in Hcalls. by injection Hcalls.
Qed.

(** X5: a description that passes [Check], and whose capacities are numbers
    with an integer part that fits an int64 (no NaN, no infinity, below
    [2^63]), is sent by [Create] within the limits of the remote API: the
    table and every index are requested with at least one read and one write
    capacity unit (the capacities truncated to integers), at most five
    indexes are requested, and every index name has 3 to 255 bytes.  [Check]
    itself does not bound the capacities from above and lets NaN pass. *)
Theorem Create_request_of_checked_description (obj : Table) (w : W) input resp err rest :
  is_Some (Tab.TableName obj) ∨ is_Some (Tab.Name obj) →
  Forall fitsInt64 (capacitiesOf obj) →
  (Check obj).1 = [] →
  calls (Create NewUniqueHex ctx obj w) = CallCreateTable input resp err :: rest →
  requestWithinLimits input.
Proof.
  intros Hnamed Hfit Hchecked Hcalls.
  destruct (Create_request obj w input resp err rest Hnamed Hcalls)
    as (_ & _ & _ & Hpt & Hgsis).
  assert (Hnumbers : Forall (fun x => x ≠ NaN) (capacitiesOf obj)).
  { eapply Forall_impl; [exact Hfit|]. apply fitsInt64_number. }
  assert (Hvalid : validTable obj).
  { apply violations_none_iff. intros f. rewrite <- Check_counts, Hchecked by done. done. }
  destruct Hvalid as (_ & Hread & Hwrite & _ & Hindexes).
  destruct (capacitiesOf_fit obj Hfit) as (Hfr & Hfw & Hfi).
  unfold requestWithinLimits. rewrite Hpt, Hgsis. split.
  { eexists _, _. split; [reflexivity|]. split; by apply float_to_int_at_least_one. }
  destruct (Tab.GlobalSecondaryIndexes obj) as [gsis|]; simpl in *.
  2:{ split; [lia|constructor]. }
  destruct (Hindexes gsis eq_refl) as [Hcount Hall].
  split; [by rewrite length_map|].
  apply Forall_map. rewrite Forall_forall in *.
  intros g Hin. destruct (Hall g Hin) as (Hname & Hr & Hw).
  destruct (Hfi g Hin) as [Hgr Hgw]. split; [by eexists|].
  eexists _, _. split; [reflexivity|]. split; by apply float_to_int_at_least_one.
Qed.

(** X6: the key schema [Create] sends for the table and for every index reads
    back through [getHashRangeKeys] as the declared partition key and sort
    key. *)
Theorem Create_key_schema_reads_back (obj : Table) (w : W) input resp err rest :
  is_Some (Tab.TableName obj) ∨ is_Some (Tab.Name obj) →
  calls (Create NewUniqueHex ctx obj w) = CallCreateTable input resp err :: rest →
  getHashRangeKeys (cti_KeySchema input) = Val (Tab.HashKey obj, Tab.RangeKey obj)
  ∧ Forall2 (fun gsi ix =>
               getHashRangeKeys (ix_KeySchema ix) = Val (GSI.HashKey gsi, GSI.RangeKey gsi))
      (default [] (Tab.GlobalSecondaryIndexes obj))
      (cti_GlobalSecondaryIndexes input).
Proof.
  intros Hnamed Hcalls.
  destruct (Create_request obj w input resp err rest Hnamed Hcalls)
    as (_ & _ & Hkeys & _ & Hgsis).
  rewrite Hkeys, Hgsis. split; [apply getHashRangeKeys_keySchemaOf|].
  generalize (default [] (Tab.GlobalSecondaryIndexes obj)). intros l.
  induction l as [|g l IH]; simpl; constructor;
    [apply getHashRangeKeys_keySchemaOf|done].
Qed.

End CreateRequest.

(** ** Get, from the remote description back to the declared one *)

Section GetReadback.
Context {W : Type}.

Lemma silent_ret {A} (a : A) : silent (ret (W:=W) a).
Proof. by intros w. Qed.

Lemma silent_panic {A} msg : silent (panic (W:=W) (A:=A) msg).
Proof. by intros w. Qed.

Lemma silent_bind {A B} (m : M W A) (f : A → M W B) :
  silent m → (∀ a, silent (f a)) → silent (bind m f).
Proof.
  intros Hm Hf w. destruct (Hm w) as [Hcalls Hworld].
  destruct (bind_run m f w) as [(a & t1 & w1 & Hrun & ->)|(msg & t1 & w1 & Hrun & ->)];
    rewrite Hrun in Hcalls, Hworld; unfold calls, world in *; simpl in *; subst;
    [|done].
  destruct (Hf a w) as [Hcalls' Hworld']. unfold calls, world in *. by rewrite Hcalls'.
Qed.

Lemma silent_deref {A} (p : option A) : silent (deref (W:=W) p).
Proof. destruct p; [apply silent_ret|apply silent_panic]. Qed.

Lemma silent_assertNotNil {A} (p : option A) : silent (assertNotNil (W:=W) p).
Proof. destruct p; [apply silent_ret|apply silent_panic]. Qed.

Lemma silent_liftResult {A} (r : result A) : silent (liftResult (W:=W) r).
Proof. by intros w. Qed.

Lemma silent_mapM {A B} (f : A → M W B) (l : list A) :
  (∀ a, silent (f a)) → silent (mapM f l).
Proof.
  intros Hf. induction l as [|x l IH]; [apply silent_ret|]. simpl.
  apply silent_bind; [done|]. intros y.
  apply silent_bind; [done|]. intros ys. apply silent_ret.
Qed.

Lemma silent_readIndex (gsid : IndexDefinition) : silent (readIndex (W:=W) gsid).
Proof.
  unfold readIndex. repeat (apply silent_bind; [first [apply silent_liftResult
                                                      |apply silent_deref]|intros ?]).
  apply silent_ret.
Qed.

Variable ParseResourceName : string → string * option error.
Variable ctx : Context W.

(** X7: [Get] reads and never writes: with an identifier that parses it
    issues exactly one call, a describe call on the parsed table name, whose
    answer decides the result; with one that does not parse it issues none.
    In both cases the remote world is what the describe call left. *)
Theorem Get_issues_one_describe (id : string) (w : W) :
  match ParseResourceName id with
  | (name, None) =>
      ∃ resp err w1,
        DescribeTable (DynamoDB ctx) name w = (resp, err, w1)
        ∧ calls (Get ParseResourceName ctx id w) = [CallDescribeTable name resp err]
        ∧ world (Get ParseResourceName ctx id w) = w1
  | (_, Some _) =>
      calls (Get ParseResourceName ctx id w) = []
      ∧ world (Get ParseResourceName ctx id w) = w
  end.
Proof.
  unfold Get. destruct (ParseResourceName id) as [name [perr|]].
  { by destruct (IsAWSError perr _). }
  destruct (DescribeTable (DynamoDB ctx) name w) as [[resp err] w1] eqn:Hremote.
  assert (Hcall : callDescribeTable ctx name w
                  = (Val (resp, err), [CallDescribeTable name resp err], w1)).
  { unfold callDescribeTable. by rewrite Hremote. }
  exists resp, err, w1. split; [done|].
  match goal with
  | |- context [bind _ ?k] => set (rest := k)
  end.
  assert (Hrest : silent (rest (resp, err))).
  { subst rest. cbv beta. destruct err as [e|]; [apply silent_ret|].
    apply silent_bind; [apply silent_assertNotNil|]. intros r.
    apply silent_bind; [apply silent_assertNotNil|]. intros tab.
    apply silent_bind.
    { apply silent_mapM. intros a.
      apply silent_bind; [apply silent_deref|]. intros n.
      apply silent_bind; [apply silent_deref|]. intros t. apply silent_ret. }
    intros attributes. apply silent_bind; [apply silent_liftResult|]. intros k.
    apply silent_bind.
    { destruct (0 <? _); [|apply silent_ret].
      apply silent_bind; [apply silent_mapM, silent_readIndex|].
      intros gis. apply silent_ret. }
    intros gsis.
    repeat (apply silent_bind; [apply silent_deref|intros ?]). apply silent_ret. }
  destruct (Hrest w1) as [Hcalls Hworld].
  rewrite (bind_val _ _ _ _ _ _ Hcall). unfold calls at 1, world at 1.
  cbn [fst snd]. by rewrite Hcalls, Hworld.
Qed.

Lemma mapM_attributes (attrs : list Attribute) (w : W) :
  mapM (fun attr =>
          n <- deref (ad_AttributeName attr) ;;
          t <- deref (ad_AttributeType attr) ;;
          ret (mkAttribute n t))
       (attributeDefinitionsOf attrs) w
  = (Val attrs, [], w).
Proof.
  induction attrs as [|[n t] attrs IH]; [done|]. simpl.
  unfold bind at 1. simpl. unfold bind at 1. by rewrite IH.
Qed.

Lemma StringValueSlice_StringSlice (l : list string) :
  StringValueSlice (StringSlice l) = l.
Proof.
  unfold StringValueSlice, StringSlice. induction l as [|s l IH]; [done|].
  simpl. by rewrite IH.
Qed.

Lemma readIndex_indexDefinitionOf (gsi : GlobalSecondaryIndex) (w : W) :
  readIndex (indexDefinitionOf gsi) w = (Val (sentAndReadIndex gsi), [], w).
Proof.
  unfold readIndex, indexDefinitionOf. simpl.
  unfold bind, liftResult. rewrite getHashRangeKeys_keySchemaOf. simpl.
  by rewrite StringValueSlice_StringSlice.
Qed.

Lemma mapM_readIndex (gsis : list GlobalSecondaryIndex) (w : W) :
  mapM readIndex (map indexDefinitionOf gsis) w
  = (Val (map sentAndReadIndex gsis), [], w).
Proof.
  induction gsis as [|g gsis IH]; [done|]. simpl.
  unfold bind at 1. rewrite readIndex_indexDefinitionOf.
  unfold bind at 1. by rewrite IH.
Qed.

Lemma readIndexes_run (gsis : list GlobalSecondaryIndex) (w : W) :
  (if 0 <? Z.of_nat (length (map indexDefinitionOf gsis))
   then gis <- mapM readIndex (map indexDefinitionOf gsis) ;; ret (Some gis)
   else ret None) w
  = (Val match gsis with
         | [] => None
         | _ => Some (map sentAndReadIndex gsis)
         end, [], w).
Proof.
  destruct gsis as [|g gsis]; [done|].
  replace (0 <? Z.of_nat (length (map indexDefinitionOf (g :: gsis)))) with true
    by (symmetry; apply Z.ltb_lt; simpl; lia).
  unfold bind. by rewrite mapM_readIndex.
Qed.

(** An integer of at most 53 bits goes to int64 and back unchanged. *)
Lemma sentAndRead_exact (x : float64) : exactInteger x → sentAndRead x = truncated x.
Proof.
  destruct x as [q| | |]; try done. unfold exactInteger. intros [Hlo Hhi].
  unfold sentAndRead, truncated, int_to_float.
  assert (Hfits : fitsInt64 (Number q)) by (unfold fitsInt64; lia).
  rewrite float_to_int_fits by done. unfold nearestFloat.
  by replace (Z.abs (integerPart q) <=? 2 ^ 53) with true
    by (symmetry; apply Z.leb_le; lia).
Qed.

Lemma sentAndReadIndex_exact (gsis : list GlobalSecondaryIndex) :
  Forall exactInteger
    (flat_map (fun gsi => [GSI.ReadCapacity gsi; GSI.WriteCapacity gsi]) gsis) →
  map sentAndReadIndex gsis = map truncatedIndex gsis.
Proof.
  induction gsis as [|g gsis IH]; [done|]. simpl. intros Hall.
  apply Forall_cons in Hall as [Hread Hall]. apply Forall_cons in Hall as [Hwrite Hall].
  rewrite IH by done. f_equal. unfold sentAndReadIndex, truncatedIndex.
  by rewrite !sentAndRead_exact.
Qed.

Variable NewUniqueHex : string → Z → Z → string.

(** X8: round trip of a description through the remote.  When every
    capacity is a number whose integer part has at most 53 bits (so that it
    goes to int64 and back to float64 without loss), and the remote describes
    the table the way [Create] requested it, [Get] returns the declared
    description with these differences: the capacities of the table and of
    every index are truncated to integers, an empty index list comes back as
    no list, the table name is the one [Create] resolved, and the logical
    name is not recovered. *)
Theorem Get_reads_back_created_table (obj : Table) (id : string) (w0 w w1 : W)
    (ctx0 : Context W) input resp err rest (arn status : option string) :
  is_Some (Tab.TableName obj) ∨ is_Some (Tab.Name obj) →
  Forall exactInteger (capacitiesOf obj) →
  calls (Create NewUniqueHex ctx0 obj w0) = CallCreateTable input resp err :: rest →
  ParseResourceName id = (resolvedName NewUniqueHex obj, None) →
  DescribeTable (DynamoDB ctx) (resolvedName NewUniqueHex obj) w
  = (Some {| dto_Table := Some (echo input arn status) |}, None, w1) →
  outcome (Get ParseResourceName ctx id w)
  = Val (Some (readBack (resolvedName NewUniqueHex obj) obj), None).
Proof.
  intros Hnamed Hexact Hcalls Hparse Hremote.
  unfold capacitiesOf in Hexact.
  apply Forall_cons in Hexact as [Hread Hexact].
  apply Forall_cons in Hexact as [Hwrite Hexact].
  destruct (Create_request NewUniqueHex ctx0 obj w0 input resp err rest Hnamed Hcalls)
    as (Hname & Hattrs & Hkeys & Hpt & Hgsis).
  unfold Get. rewrite Hparse. unfold callDescribeTable, bind at 1. rewrite Hremote.
  unfold echo. simpl. rewrite Hname, Hattrs, Hkeys, Hpt, Hgsis.
  unfold bind at 1. simpl. unfold bind at 1. simpl.
  unfold bind at 1. rewrite mapM_attributes.
  unfold bind at 1, liftResult at 1. rewrite getHashRangeKeys_keySchemaOf.
  unfold bind at 1. rewrite readIndexes_run.
  unfold outcome, readBack, throughputOf, bind, deref, ret. simpl.
  fold (sentAndRead (Tab.ReadCapacity obj)). fold (sentAndRead (Tab.WriteCapacity obj)).
  rewrite !sentAndRead_exact, (sentAndReadIndex_exact _ Hexact) by done.
  by destruct (default [] (Tab.GlobalSecondaryIndexes obj)).
Qed.

End GetReadback.

(** ** Update, beyond the order of its steps *)

Lemma intstring_replacement (v : Z) :
  rendersAsReplacement v → intstring v = encoderune runeError.
Proof.
  unfold rendersAsReplacement, intstring. intros [Hv|[Hv|[Hv| ->]]]; [| | |done].
  - by replace (v <? 0) with true by (symmetry; apply Z.ltb_lt; lia).
  - replace (0x10FFFF <? v) with true by (symmetry; apply Z.ltb_lt; lia).
    by rewrite orb_true_r.
  - replace (0xD800 <=? v) with true by (symmetry; apply Z.leb_le; lia).
    replace (v <=? 0xDFFF) with true by (symmetry; apply Z.leb_le; lia).
    by rewrite orb_true_r.
Qed.

Lemma intstring_sameKeyPart (a b : Z) : sameKeyPart a b → intstring a = intstring b.
Proof.
  intros [->|[Ha Hb]]; [done|]. by rewrite !intstring_replacement.
Qed.

Section UpdateFurther.
Context {W : Type}.
Variable ParseResourceName : string → string * option error.
Variable ctx : Context W.

Lemma plan_request_cases (name : string) (old new : Table) (diff : ObjectDiff)
    (u : UpdateTableInput) :
  u ∈ issuedPlan name old new diff →
  u = throughputUpdate name new
  ∨ (∃ o, o ∈ Adds (indexDiff old new) ∧ u = createIndexUpdate name new o)
  ∨ (∃ o, o ∈ Updates (indexDiff old new) ∧ u = updateIndexUpdate name o)
  ∨ (∃ o, o ∈ Deletes (indexDiff old new) ∧ u = deleteIndexUpdate name o).
Proof.
  unfold issuedPlan, throughputStep. intros [Hin|Hin]%elem_of_app.
  { destruct (_ || _); [|by apply elem_of_nil in Hin].
    apply list_elem_of_singleton in Hin. by left. }
  destruct (Changed diff Table_GlobalSecondaryIndexes); [|by apply elem_of_nil in Hin].
  unfold indexSteps in Hin. rewrite !elem_of_app, !elem_of_map in Hin.
  destruct Hin as [(o & -> & Ho)|[(o & -> & Ho)|(o & -> & Ho)]]; eauto 6.
Qed.

(** X9: every call of [Update] is a describe call on the parsed table or an
    UpdateTable request on it that makes one change, the throughput of the
    table or one action on one index; no table is created or deleted, and no
    other table is touched. *)
Theorem Update_requests_one_change_each (id : string) (old new : Table)
    (diff : ObjectDiff) (w : W) :
  Forall (fun e =>
            describes (ParseResourceName id).1 e
            ∨ ∃ u err, e = CallUpdateTable u err ∧ oneChange (ParseResourceName id).1 u)
         (calls (Update ParseResourceName ctx id old new diff w)).
Proof.
  eapply Forall_impl; [apply Update_calls|].
  intros e [Hd|(u & err & -> & Hin)]; [by left|right]. exists u, err. split; [done|].
  apply plan_request_cases in Hin
    as [->|[(o & _ & ->)|[(o & _ & ->)|(o & _ & ->)]]];
    (split; [done|]); [left|right|right|right]; simpl.
  - by split; [eexists|].
  - split; [done|]. eexists. split; [done|]. left. by split; [eexists|].
  - split; [done|]. eexists. split; [done|]. right; left. by split; [|split; [eexists|]].
  - split; [done|]. eexists. split; [done|]. right; right.
    by split; [|split; [|eexists]].
Qed.

(** X10: with the same index collection in the old and in the new
    description, [Update] issues no request on an index, whatever the
    orchestrator's diff reports. *)
Theorem Update_same_indexes_issue_no_index_request (id : string) (old new : Table)
    (diff : ObjectDiff) (w : W) :
  Tab.GlobalSecondaryIndexes old = Tab.GlobalSecondaryIndexes new →
  Forall (fun e => ¬ isIndexCall e)
         (calls (Update ParseResourceName ctx id old new diff w)).
Proof.
  intros Hsame. eapply Forall_impl; [apply Update_calls|].
  intros e [(resp & err & ->)|(u & err & -> & Hin)] (u' & err' & Heq & Hidx);
    simplify_eq.
  assert (Hnone : indexDiff old new = mkHashSetDiff [] [] []).
  { unfold indexDiff. rewrite Hsame. apply Diff_same. }
  apply plan_request_cases in Hin
    as [->|[(o & Ho & ->)|[(o & Ho & ->)|(o & Ho & ->)]]];
    [done|rewrite Hnone in Ho; by apply elem_of_nil in Ho..].
Qed.

Lemma endsActive_app (name : string) (t1 t2 : list Event) :
  endsActive name t2 → endsActive name (t1 ++ t2).
Proof.
  intros (init & last & -> & Hlast). exists (t1 ++ init), last.
  by rewrite app_assoc.
Qed.

Lemma orReturn_success (m k : M W (option error)) (w : W) :
  outcome (orReturn m k w) = Val None →
  outcome (m w) = Val None
  ∧ outcome (k (world (m w))) = Val None
  ∧ calls (orReturn m k w) = calls (m w) ++ calls (k (world (m w))).
Proof.
  unfold orReturn. destruct (m w) as [[[[e|]|msg] t1] w1] eqn:Hrun.
  - by rewrite (bind_val _ _ _ _ _ _ Hrun).
  - by rewrite (bind_val _ _ _ _ _ _ Hrun).
  - by rewrite (bind_panic _ _ _ _ _ _ Hrun).
Qed.

Lemma lastActive_ret (name : string) : lastActive (W:=W) name false (ret None).
Proof. intros w _. by left. Qed.

Lemma lastActive_weaken (name : string) (always : bool) (m : M W (option error)) :
  lastActive name true m → lastActive name always m.
Proof. intros Hm w Hout. specialize (Hm w Hout). destruct always; [done|by right]. Qed.

Lemma lastActive_orReturn (name : string) (b1 b2 : bool) (m k : M W (option error)) :
  lastActive name b1 m → lastActive name b2 k →
  lastActive name (b1 || b2) (orReturn m k).
Proof.
  intros Hm Hk w Hout.
  destruct (orReturn_success m k w Hout) as (Hm' & Hk' & ->).
  specialize (Hm w Hm'). specialize (Hk _ Hk').
  destruct b2.
  - rewrite orb_true_r. by apply endsActive_app.
  - rewrite orb_false_r. destruct Hk as [->|Hk].
    + by rewrite app_nil_r.
    + destruct b1; [|right]; by apply endsActive_app.
Qed.

Lemma lastActive_updateTable (name : string) (u : UpdateTableInput) :
  lastActive name true (updateTable ctx name u).
Proof.
  intros w Hout.
  destruct (updateTable_shape ctx name u w) as [[_ Hstep]|[Hko _]]; [|done].
  destruct Hstep as (retries & polls & last & -> & _ & _ & Hlast).
  exists (retries ++ CallUpdateTable u None :: polls), last.
  by rewrite <- app_assoc.
Qed.

Lemma lastActive_forEach {A} (name : string) (req : A → UpdateTableInput) (l : list A) :
  lastActive name false (forEach l (fun x => updateTable ctx name (req x))).
Proof.
  induction l as [|x l IH]; [apply lastActive_ret|]. simpl.
  apply (lastActive_weaken name false), (lastActive_orReturn name true false);
    [apply lastActive_updateTable|done].
Qed.

Lemma lastActive_wait (name : string) :
  lastActive name true (orReturn (waitForTableState ctx name true) (ret None)).
Proof.
  intros w Hout. rewrite orReturn_ret_None in *.
  destruct (waitForTableState_active ctx name w Hout) as (polls & last & -> & _ & Hlast).
  by exists polls, last.
Qed.

(** X11: [Update] returns nil only after the remote was seen to have
    converged: when the diff reports the capacity or the index collection as
    changed and [Update] returns nil, its last call is a describe call that
    found the table ACTIVE. *)
Theorem Update_succeeds_after_active (id name : string) (old new : Table)
    (diff : ObjectDiff) (w : W) :
  ParseResourceName id = (name, None) →
  Changed diff Table_ReadCapacity || Changed diff Table_WriteCapacity
  || Changed diff Table_GlobalSecondaryIndexes = true →
  outcome (Update ParseResourceName ctx id old new diff w) = Val None →
  endsActive name (calls (Update ParseResourceName ctx id old new diff w)).
Proof.
  intros Hparse Hchanged Hout.
  assert (Hlast : lastActive name
            (Changed diff Table_ReadCapacity || Changed diff Table_WriteCapacity
             || Changed diff Table_GlobalSecondaryIndexes)
            (Update ParseResourceName ctx id old new diff)).
  { unfold Update. rewrite Hparse. apply lastActive_orReturn.
    - destruct (Changed diff Table_ReadCapacity || Changed diff Table_WriteCapacity);
        [apply lastActive_updateTable|apply lastActive_ret].
    - destruct (Changed diff Table_GlobalSecondaryIndexes); [|apply lastActive_ret].
      cbv zeta.
      apply (lastActive_orReturn name false true); [apply lastActive_forEach|].
      apply (lastActive_orReturn name false true); [apply lastActive_forEach|].
      apply (lastActive_orReturn name false true); [apply lastActive_forEach|].
      apply lastActive_wait. }
  specialize (Hlast w Hout). by rewrite Hchanged in Hlast.
Qed.

(** An index with the same comparison key in both collections gets no
    update-index-capacity request. *)
Lemma same_key_issues_no_capacity_update (old new : Table) (k : string)
    (o n : globalSecondaryIndexHash) (id : string) (diff : ObjectDiff) (w : W) :
  newGlobalSecondaryIndexHashSet (Tab.GlobalSecondaryIndexes old) !! k = Some o →
  newGlobalSecondaryIndexHashSet (Tab.GlobalSecondaryIndexes new) !! k = Some n →
  HashValue o = HashValue n →
  Forall (fun e => ¬ updatesIndexCapacity k e)
         (calls (Update ParseResourceName ctx id old new diff w)).
Proof.
  intros Ho Hn Hkey.
  pose proof (same_key_is_no_update old new k o n Ho Hn Hkey) as Hunmodified.
  eapply Forall_impl; [apply Update_calls|].
  intros e [(resp & err & ->)|(u & err & -> & Hin)]
    (u' & err' & g & a & Heq & Hg & Hupdate & Hname); simplify_eq.
  apply plan_request_cases in Hin
    as [->|[(x & Hx & ->)|[(x & Hx & ->)|(x & Hx & ->)]]]; simpl in Hg;
    [by apply elem_of_nil in Hg|..];
    apply list_elem_of_singleton in Hg as ->; simpl in Hupdate; simplify_eq.
  simpl in Hname. simplify_eq. apply Hunmodified.
  unfold names. apply elem_of_map. by exists x.
Qed.

(** X12: the comparison key renders each capacity with [string(int(x))], so
    it tells no two numbers apart that are no Unicode code points (negative,
    55296 to 57343, above 1114111) or U+FFFD: an index whose truncated read
    capacities are equal or both such numbers, and likewise its write
    capacities, has the same key in both collections, is no modification, and
    gets no update-index-capacity request from [Update]. *)
Theorem capacity_outside_code_points_is_not_compared (old new : Table) (k : string)
    (o n : globalSecondaryIndexHash) :
  newGlobalSecondaryIndexHashSet (Tab.GlobalSecondaryIndexes old) !! k = Some o →
  newGlobalSecondaryIndexHashSet (Tab.GlobalSecondaryIndexes new) !! k = Some n →
  sameKeyPart (float_to_int (GSI.ReadCapacity (item o)))
              (float_to_int (GSI.ReadCapacity (item n))) →
  sameKeyPart (float_to_int (GSI.WriteCapacity (item o)))
              (float_to_int (GSI.WriteCapacity (item n))) →
  HashValue o = HashValue n
  ∧ (k ∉ names (Updates (indexDiff old new)))
  ∧ ∀ (id : string) (diff : ObjectDiff) (w : W),
      Forall (fun e => ¬ updatesIndexCapacity k e)
        (calls (Update ParseResourceName ctx id old new diff w)).
Proof.
  intros Ho Hn Hread Hwrite.
  assert (Hkey : HashValue o = HashValue n).
  { unfold HashValue. simpl.
    by rewrite (intstring_sameKeyPart _ _ Hread), (intstring_sameKeyPart _ _ Hwrite). }
  split; [done|]. split; [by eapply same_key_is_no_update|].
  intros id diff w. by eapply same_key_issues_no_capacity_update.
Qed.

End UpdateFurther.

(** ** Delete, up to the observed absence *)

Section DeleteFurther.
Context {W : Type}.
Variable ParseResourceName : string → string * option error.
Variable ctx : Context W.

(** X13: [Delete] returns nil only after the table was seen to be gone: its
    calls are then delete requests that were turned down as in use, one
    delete request that was accepted or answered not-found, describe calls
    that still found the table, and a last describe call answered
    not-found. *)
Theorem Delete_succeeds_after_absence (id name : string) (w : W) :
  ParseResourceName id = (name, None) →
  outcome (Delete ParseResourceName ctx id w) = Val None →
  ∃ busy res pending last,
    calls (Delete ParseResourceName ctx id w)
    = busy ++ CallDeleteTable name res :: pending ++ [last]
    ∧ Forall (busyDelete name) busy
    ∧ acceptedOrAbsent res
    ∧ Forall (notYet name false) pending
    ∧ reached name false last
    ∧ (length busy < longTries ctx)%nat
    ∧ (length pending < longTries ctx)%nat.
Proof.
  intros Hparse. unfold Delete, RetryUntilLong. rewrite Hparse.
  pose proof (delete_loop_shape ctx name (longTries ctx) w) as Hloop.
  destruct (retryLoop (longTries ctx) (deleteAttempt ctx name) w)
    as [[[[succ err]|msg] t1] w1] eqn:Hrun; unfold outcome, calls in Hloop;
    simpl in Hloop; [|done].
  rewrite (bind_val _ _ _ _ _ _ Hrun).
  destruct err as [e|]; [done|]. destruct succ; [|done]. simpl.
  destruct Hloop as (busy & res & -> & Hbusy & Hres & Hlen).
  unfold outcome at 1, calls at 1. simpl. intros Hwait.
  destruct (waitForTableState_success ctx name false w1 Hwait)
    as (pending & last & -> & Hpending & Hlast & Hlen').
  exists busy, res, pending, last. by rewrite <- app_assoc.
Qed.

End DeleteFurther.

(** ** Check on descriptions without NaN *)

(** X14: on a description none of whose capacities is NaN, [Check] returns
    a nil error, reports on every field as many failures as there are
    violations of that field's rule (name length in [3,255] when given,
    attribute name length in [1,255], attribute type among S, N, B, table
    and index capacities at least 1, index name length in [3,255], at most
    5 indexes) instead of stopping at the first, and returns the empty list
    exactly when the description is valid. *)
Theorem Check_collects_every_violation (obj : Table) :
  Forall (fun x => x ≠ NaN) (capacitiesOf obj) →
  (Check obj).2 = None
  ∧ (∀ field, errorsOn (Check obj).1 field = violationsOn obj field)
  ∧ ((Check obj).1 = [] ↔ validTable obj).
Proof.
  intros Hnumbers.
  split; [done|]. split; [intros field; by apply Check_counts|].
  rewrite errorsOn_nil_iff, <- violations_none_iff.
  split; intros Hall f; specialize (Hall f); by rewrite Check_counts in *.
Qed.

(** * Properties of the program test harness *)

(** ** The prefixing writer *)

Section PrefixerFacts.
Import integration.

(** The lines of a text, each with the prefix when it is not empty. *)
Lemma SplitAfter_prefixed (pre p : list ascii) :
  ∃ line lines,
    SplitAfter p = line :: lines
    ∧ prefixed pre true p
      = (if 0 <? Z.of_nat (length line) then pre ++ line else line)
        ++ concat (map (fun l => if 0 <? Z.of_nat (length l) then pre ++ l else l) lines)
    ∧ prefixed pre false p
      = line
        ++ concat (map (fun l => if 0 <? Z.of_nat (length l) then pre ++ l else l) lines).
Proof.
  induction p as [|c rest (line & lines & Hsplit & Htrue & Hfalse)].
  { exists [], []. by split. }
  simpl. rewrite Hsplit. destruct (Ascii.eqb c newline).
  - exists [c], (line :: lines). split; [done|]. simpl. rewrite Htrue.
    split; [by rewrite <- app_assoc|done].
  - exists (c :: line), lines. split; [done|]. rewrite Hfalse. simpl length.
    replace (0 <? Z.of_nat (S (length line))) with true
      by (symmetry; apply Z.ltb_lt; lia).
    split; [by rewrite <- app_assoc|done].
Qed.

Lemma SplitAfter_concat (p : list ascii) : concat (SplitAfter p) = p.
Proof.
  induction p as [|c rest IH]; [done|]. simpl.
  destruct (Ascii.eqb c newline); [by simpl; rewrite IH|].
  destruct (SplitAfter rest) as [|line lines]; simpl in *; by rewrite <- IH.
Qed.

Lemma Write_lines_buffer (pre : list ascii) (b : bool) (lines : list (list ascii))
    (n : Z) (s : list ascii) :
  Write_lines (mkPrefixer bufferWriter pre b) lines n s
  = (n + Z.of_nat (length (concat lines)), None,
     s ++ concat (map (fun l => if 0 <? Z.of_nat (length l) then pre ++ l else l) lines)).
Proof.
  revert n s. induction lines as [|line lines IH]; intros n s; simpl.
  { by rewrite Z.add_0_r, app_nil_r. }
  destruct (0 <? Z.of_nat (length line)); simpl; rewrite IH;
    rewrite length_app, Nat2Z.inj_add, <- !app_assoc; f_equal; f_equal; lia.
Qed.

Lemma prefixer_Write_buffer_run (pre p s : list ascii) (b : bool) :
  prefixer_Write (mkPrefixer bufferWriter pre b) p s
  = (Z.of_nat (length p), None, s ++ prefixed pre true p).
Proof.
  unfold prefixer_Write. rewrite Write_lines_buffer, SplitAfter_concat.
  by destruct (SplitAfter_prefixed pre p) as (line & lines & -> & -> & _).
Qed.

(** X15: written through a prefixer into a buffer, a text arrives with the
    prefix before every line of it (a line ending at a newline or at the end
    of the text; an empty text, and the empty rest after a final newline,
    get no prefix), and [Write] reports the length of the text without the
    prefixes and no error. *)
Theorem prefixer_Write_prefixes_every_line (pre p s : list ascii) (b : bool) :
  prefixer_Write (mkPrefixer bufferWriter pre b) p s
  = (Z.of_nat (length p), None, s ++ prefixed pre true p).
Proof. apply prefixer_Write_buffer_run. Qed.

Lemma prefixed_app (pre p1 p2 : list ascii) (b : bool) :
  prefixed pre b (p1 ++ p2)
  = prefixed pre b p1
    ++ prefixed pre (match p1 with [] => b | _ => atLineStart p1 end) p2.
Proof.
  revert b. induction p1 as [|c p1 IH]; intros b; [done|]. simpl.
  rewrite IH, <- app_assoc. simpl. do 3 f_equal.
  unfold atLineStart. destruct p1 as [|c' p1]; [done|].
  by rewrite last_cons_cons.
Qed.

Lemma prefixed_true_false (pre p : list ascii) :
  prefixed pre true p = prefixed pre false p ↔ pre = [] ∨ p = [].
Proof.
  destruct p as [|c p]; [by split; [right|]|]. simpl. split.
  - intros Heq. left. apply (f_equal length) in Heq.
    rewrite length_app in Heq. simpl in Heq. destruct pre; [done|simpl in Heq; lia].
  - intros [->|?]; done.
Qed.

(** X16: writing a text in two pieces gives what writing it in one piece
    gives exactly when the prefix is empty, the second piece is empty, or the
    first piece is empty or ends in a newline; otherwise the second write
    puts a prefix into the middle of a line. *)
Theorem prefixer_Write_in_two_pieces (pre p1 p2 s : list ascii) (b : bool) :
  (prefixer_Write (mkPrefixer bufferWriter pre b) p2
     (prefixer_Write (mkPrefixer bufferWriter pre b) p1 s).2).2
  = (prefixer_Write (mkPrefixer bufferWriter pre b) (p1 ++ p2) s).2
  ↔ pre = [] ∨ p2 = [] ∨ atLineStart p1 = true.
Proof.
  rewrite !prefixer_Write_buffer_run. simpl.
  rewrite prefixed_app, <- app_assoc. split.
  - intros Heq%app_inv_head%app_inv_head.
    destruct p1 as [|c p1]; [by right; right|].
    destruct (atLineStart (c :: p1)); [by right; right|].
    apply prefixed_true_false in Heq as [?|?]; auto.
  - intros Hcases. do 2 f_equal.
    destruct p1 as [|c p1]; [done|].
    destruct (atLineStart (c :: p1)); [done|].
    destruct Hcases as [?|[?|?]]; [| |done]; apply prefixed_true_false; auto.
Qed.

End PrefixerFacts.

Section PrefixerContract.
Import integration.
Context {S : Type}.

Lemma Write_lines_contract (pre : prefixer S) (lines : list (list ascii)) (n : Z) (s : S) :
  obeysContract (Write (writer pre)) →
  n ≤ (Write_lines pre lines n s).1.1 ≤ n + Z.of_nat (length (concat lines))
  ∧ ((Write_lines pre lines n s).1.2 = None
     → (Write_lines pre lines n s).1.1 = n + Z.of_nat (length (concat lines))).
Proof.
  intros Hwriter. revert n s.
  induction lines as [|line lines IH]; intros n s; simpl.
  { split; [lia|intros _; lia]. }
  rewrite length_app, Nat2Z.inj_add.
  assert (Hline : ∀ s1,
    n ≤ (match Write (writer pre) line s1 with
         | (m, Some err, s2) => (n + m, Some err, s2)
         | (m, None, s2) => Write_lines pre lines (n + m) s2
         end).1.1 ≤ n + (Z.of_nat (length line) + Z.of_nat (length (concat lines)))
    ∧ ((match Write (writer pre) line s1 with
        | (m, Some err, s2) => (n + m, Some err, s2)
        | (m, None, s2) => Write_lines pre lines (n + m) s2
        end).1.2 = None
       → (match Write (writer pre) line s1 with
          | (m, Some err, s2) => (n + m, Some err, s2)
          | (m, None, s2) => Write_lines pre lines (n + m) s2
          end).1.1 = n + (Z.of_nat (length line) + Z.of_nat (length (concat lines))))).
  { intros s1. destruct (Hwriter line s1) as [Hm Hall].
    destruct (Write (writer pre) line s1) as [[m [err|]] s2]; simpl in *.
    - split; [lia|done].
    - specialize (Hall eq_refl). destruct (IH (n + m) s2) as [Hn Hnone].
      split; [lia|]. intros Herr. rewrite (Hnone Herr). lia. }
  destruct (0 <? Z.of_nat (length line)); [|apply Hline].
  destruct (Write (writer pre) (prefix pre) s) as [[k [err|]] s1]; [|apply Hline].
  simpl. split; [lia|done].
Qed.

(** X17: a prefixer keeps the contract of [io.Writer] when the writer it
    wraps does: [Write] reports between 0 and [len(p)] bytes, the bytes of
    the prefixes not counted, and fewer than [len(p)] only together with an
    error. *)
Theorem prefixer_Write_keeps_writer_contract (wr : Writer S) (pre : list ascii) (b : bool) :
  obeysContract (Write wr) →
  obeysContract (prefixer_Write (mkPrefixer wr pre b)).
Proof.
  intros Hwriter p s. unfold prefixer_Write.
  destruct (Write_lines_contract (mkPrefixer wr pre b) (SplitAfter p) 0 s Hwriter)
    as [Hn Hnone].
  rewrite SplitAfter_concat in Hn, Hnone. split; [lia|].
  intros Herr. rewrite (Hnone Herr). lia.
Qed.

End PrefixerContract.

(** ** The workflow of a program test *)

Section WorkflowFacts.
Import integration.
Context {S Wd : Type}.
Variable LookPath : string → string * option error.
Variable mapRange : gmap string string → list (string * string).
Variable Run : Cmd S → Wd → option error * Wd.
Variable os_Stdout : Writer S.
Variable os_Stderr : Writer S.
Variable formatPrefix : string → string.

Lemma runAll_app (a b : list (Cmd S)) (w : Wd) :
  runAll Run (a ++ b) w
  = ((runAll Run a w).1 ++ (runAll Run b (runAll Run a w).2).1,
     (runAll Run b (runAll Run a w).2).2).
Proof.
  revert w. induction a as [|cmd a IH]; intros w; simpl.
  { by destruct (runAll Run b w). }
  destruct (Run cmd w) as [err w1]. rewrite IH.
  destruct (runAll Run a w1) as [errs w2]. simpl.
  by rewrite app_assoc.
Qed.

Lemma afterRunning_app (a b : list (Cmd S)) (h : Harness S Wd) :
  afterRunning Run (a ++ b) h = afterRunning Run b (afterRunning Run a h).
Proof.
  unfold afterRunning. simpl. rewrite runAll_app. simpl.
  by rewrite !app_assoc.
Qed.

Lemma afterRunning_nil (h : Harness S Wd) : afterRunning Run [] h = h.
Proof. destruct h. unfold afterRunning. simpl. by rewrite !app_nil_r. Qed.

Lemma runCmd_run (path : string) (args : list string) (wd : string)
    (stdout stderr : prefixer S) (h : Harness S Wd) :
  runCmd Run (path :: args) wd stdout stderr h
  = (Val tt, afterRunning Run [commandOf wd stdout stderr (path :: args)] h).
Proof.
  unfold runCmd, afterRunning, commandOf. simpl.
  destruct (Run _ (hworld h)) as [[e|] w1]; simpl; [done|].
  by rewrite app_nil_r.
Qed.

Lemma hforEach_run {A} (l : list A) (f : A → list string) (wd : string)
    (stdout stderr : prefixer S) (h : Harness S Wd) :
  (∀ x, f x ≠ []) →
  hforEach l (fun x => runCmd Run (f x) wd stdout stderr) h
  = (Val tt, afterRunning Run (map (fun x => commandOf wd stdout stderr (f x)) l) h).
Proof.
  intros Hf. revert h. induction l as [|x l IH]; intros h; simpl.
  { by rewrite afterRunning_nil. }
  unfold hbind. specialize (Hf x). destruct (f x) as [|path args] eqn:Hx; [done|].
  rewrite runCmd_run, IH.
  by rewrite <- afterRunning_app.
Qed.

Lemma hbind_val {A B} (m : H (S:=S) (Wd:=Wd) A) (f : A → H B) (a : A)
    (h h' : Harness S Wd) :
  m h = (Val a, h') → hbind m f h = f a h'.
Proof. intros Hrun. unfold hbind. by rewrite Hrun. Qed.

(** X18: when one of the three binaries is not found, the test reports the
    error of the first lookup that failed and returns: it runs no command
    and does not look at the program directory. *)
Theorem LumiProgramTest_stops_at_missing_binary (programDir : string)
    (options : LumiProgramTestOptions) (e : error) (h : Harness S Wd) :
  (LookPath "lumijs").2 = Some e
  ∨ ((LookPath "lumijs").2 = None ∧ (LookPath "lumi").2 = Some e)
  ∨ ((LookPath "lumijs").2 = None ∧ (LookPath "lumi").2 = None
     ∧ (LookPath "yarn").2 = Some e) →
  LumiProgramTest LookPath mapRange Run os_Stdout os_Stderr formatPrefix
    programDir options h
  = (Val tt, mkHarness (hworld h) (failures h ++ [e]) (commands h)).
Proof.
  unfold LumiProgramTest.
  destruct (LookPath "lumijs") as [lumijs [e1|]];
    destruct (LookPath "lumi") as [lumi [e2|]];
    destruct (LookPath "yarn") as [yarn [e3|]]; simpl;
    intros [Hcase|[[Hnone Hcase]|(Hnone & Hnone' & Hcase)]];
    by simplify_eq.
Qed.

(** X19: with the three binaries found, a program directory whose path is
    shorter than thirty bytes makes the test panic at the slice expression,
    before it runs any command or reports anything. *)
Theorem LumiProgramTest_panics_on_short_directory (programDir : string)
    (options : LumiProgramTestOptions) (h : Harness S Wd) :
  (LookPath "lumijs").2 = None →
  (LookPath "lumi").2 = None →
  (LookPath "yarn").2 = None →
  (String.length programDir < 30)%nat →
  LumiProgramTest LookPath mapRange Run os_Stdout os_Stderr formatPrefix
    programDir options h
  = (Panic "slice bounds out of range", h).
Proof.
  unfold LumiProgramTest, lastThirty.
  destruct (LookPath "lumijs") as [lumijs [e1|]];
    destruct (LookPath "lumi") as [lumi [e2|]];
    destruct (LookPath "yarn") as [yarn [e3|]]; cbn [fst snd]; try done.
  intros _ _ _ Hshort.
  do 3 (rewrite (hbind_val _ _ true h h) by done; cbn [negb]).
  unfold hbind.
  by replace (Z.of_nat (String.length programDir) <? 30) with true
    by (symmetry; apply Z.ltb_lt; lia).
Qed.

(** X20: with the three binaries found and a path of at least thirty bytes,
    the test runs the whole workflow in order, whatever each command
    returns: [yarn link] for every dependency, [lumijs --verbose],
    [lumi env init], [lumi config] for every entry of the configuration in
    the order [range] visits them, then plan, deploy, plan, deploy, destroy
    and [env rm]; every command runs in the program directory with the two
    prefixers made from the last thirty bytes of its path, and the errors
    the commands return are the ones reported. *)
Theorem LumiProgramTest_runs_whole_workflow (programDir : string)
    (options : LumiProgramTestOptions) (h : Harness S Wd) :
  (LookPath "lumijs").2 = None →
  (LookPath "lumi").2 = None →
  (LookPath "yarn").2 = None →
  (30 ≤ String.length programDir)%nat →
  LumiProgramTest LookPath mapRange Run os_Stdout os_Stderr formatPrefix
    programDir options h
  = (Val tt,
     afterRunning Run
       (map (commandOf programDir
               (newPrefixer os_Stdout (formatPrefix (lastBytes programDir)))
               (newPrefixer os_Stderr (formatPrefix (lastBytes programDir))))
          (workflow (LookPath "lumijs").1 (LookPath "lumi").1 (LookPath "yarn").1
             (Dependencies options) (mapRange (Config options))))
       h).
Proof.
  unfold LumiProgramTest, lastThirty, workflow.
  destruct (LookPath "lumijs") as [lumijs [e1|]];
    destruct (LookPath "lumi") as [lumi [e2|]];
    destruct (LookPath "yarn") as [yarn [e3|]]; cbn [fst snd]; try done.
  intros _ _ _ Hlong.
  replace (Z.of_nat (String.length programDir) <? 30) with false
    by (symmetry; apply Z.ltb_ge; lia).
  fold (lastBytes programDir).
  do 3 (rewrite (hbind_val _ _ true h h) by done; cbn [negb]).
  rewrite (hbind_val _ _ (lastBytes programDir) h h) by done. cbv zeta.
  erewrite hbind_val
    by (by apply (hforEach_run _ (fun dependency => [yarn; "link"; dependency]))).
  do 2 (erewrite hbind_val by apply runCmd_run).
  erewrite hbind_val
    by (by apply (hforEach_run _
                    (fun kv : string * string => [lumi; "config"; kv.1; kv.2]))).
  do 5 (erewrite hbind_val by apply runCmd_run).
  rewrite runCmd_run. f_equal.
  rewrite <- !afterRunning_app. f_equal.
  by rewrite !map_app, !map_map.
Qed.

End WorkflowFacts.

(** * The further properties at the samples *)

Lemma Create_returns_arn_of_active_table_witness :
  ∃ input resp pending last,
    calls (Create sampleNewUniqueHex calmCtx (sampleTable 5 5 None) 0%nat)
    = CallCreateTable input resp None :: pending ++ [last]
    ∧ responseArn resp = Some "table/orders"
    ∧ Forall (notYet "orders" true) pending
    ∧ reportsActive "orders" last
    ∧ (length pending < longTries calmCtx)%nat.
Proof.
  apply (Create_returns_arn_of_active_table sampleNewUniqueHex calmCtx
           (sampleTable 5 5 None) 0%nat "table/orders").
  - left. simpl. by eexists.
  - reflexivity.
Defined.

Lemma Create_error_returns_no_identifier_witness :
  "" = ""
  ∧ ∃ input resp err rest,
      calls (Create sampleNewUniqueHex deniedCtx (sampleTable 5 5 None) 0%nat)
      = CallCreateTable input resp err :: rest
      ∧ (err = Some accessDenied ∧ rest = []
         ∨ err = None ∧ is_Some (responseArn resp)
           ∧ ∃ w1, rest = calls (waitForTableState deniedCtx "orders" true w1)
                   ∧ outcome (waitForTableState deniedCtx "orders" true w1)
                     = Val (Some accessDenied)).
Proof.
  apply (Create_error_returns_no_identifier sampleNewUniqueHex deniedCtx
           (sampleTable 5 5 None) 0%nat "" accessDenied).
  - left. simpl. by eexists.
  - reflexivity.
Defined.

Lemma Create_request_of_checked_description_witness :
  ∃ input resp err rest,
    calls (Create sampleNewUniqueHex calmCtx ordersBefore 0%nat)
    = CallCreateTable input resp err :: rest
    ∧ requestWithinLimits input.
Proof.
  do 4 eexists. split; [reflexivity|].
  eapply (Create_request_of_checked_description sampleNewUniqueHex calmCtx
            ordersBefore 0%nat).
  - left. simpl. by eexists.
  - unfold capacitiesOf. simpl.
    repeat first [apply Forall_nil_2 | apply Forall_cons_2];
      split; vm_compute; discriminate.
  - reflexivity.
  - reflexivity.
Defined.

Lemma Create_key_schema_reads_back_witness :
  ∃ input resp err rest,
    calls (Create sampleNewUniqueHex calmCtx ordersBefore 0%nat)
    = CallCreateTable input resp err :: rest
    ∧ getHashRangeKeys (cti_KeySchema input) = Val ("id", None)
    ∧ Forall2 (fun gsi ix =>
                 getHashRangeKeys (ix_KeySchema ix)
                 = Val (GSI.HashKey gsi, GSI.RangeKey gsi))
        [sampleIndex "byUser" 5 5; sampleIndex "byDate" 5 5]
        (cti_GlobalSecondaryIndexes input).
Proof.
  do 4 eexists. split; [reflexivity|].
  eapply (Create_key_schema_reads_back sampleNewUniqueHex calmCtx ordersBefore 0%nat).
  - left. simpl. by eexists.
  - reflexivity.
Defined.

Lemma Get_reads_back_created_table_witness :
  outcome (Get sampleParseResourceName keepingCtx "table/orders"
             (world (Create sampleNewUniqueHex keepingCtx fractionAfter None)))
  = Val (Some (readBack "orders" fractionAfter), None).
Proof.
  eapply (Get_reads_back_created_table sampleParseResourceName keepingCtx
            sampleNewUniqueHex fractionAfter "table/orders" None
            (world (Create sampleNewUniqueHex keepingCtx fractionAfter None))
            (world (Create sampleNewUniqueHex keepingCtx fractionAfter None))
            keepingCtx).
  - left. simpl. by eexists.
  - unfold capacitiesOf. simpl.
    repeat first [apply Forall_nil_2 | apply Forall_cons_2];
      split; vm_compute; discriminate.
  - reflexivity.
  - reflexivity.
  - reflexivity.
Defined.

Lemma Check_collects_every_violation_witness :
  (Check ordersBefore).2 = None
  ∧ (∀ field, errorsOn (Check ordersBefore).1 field = violationsOn ordersBefore field)
  ∧ ((Check ordersBefore).1 = [] ↔ validTable ordersBefore).
Proof.
  apply (Check_collects_every_violation ordersBefore).
  unfold capacitiesOf. simpl.
  repeat first [apply Forall_nil_2 | apply Forall_cons_2]; discriminate.
Defined.

Lemma Update_same_indexes_issue_no_index_request_witness :
  Forall (fun e => ¬ isIndexCall e)
    (calls (Update sampleParseResourceName calmCtx "table/orders" ordersBefore
              ordersScaled
              (changedExactly [Table_ReadCapacity; Table_GlobalSecondaryIndexes])
              0%nat)).
Proof.
  apply (Update_same_indexes_issue_no_index_request sampleParseResourceName calmCtx).
  reflexivity.
Defined.

Lemma Update_succeeds_after_active_witness :
  endsActive "orders"
    (calls (Update sampleParseResourceName calmCtx "table/orders" ordersBefore
              ordersAfter
              (changedExactly [Table_ReadCapacity; Table_GlobalSecondaryIndexes])
              0%nat)).
Proof.
  apply (Update_succeeds_after_active sampleParseResourceName calmCtx "table/orders"
           "orders");
    reflexivity.
Defined.

Lemma capacity_outside_code_points_is_not_compared_witness :
  HashValue (mkGlobalSecondaryIndexHash (sampleIndex "byUser" 55296 5))
  = HashValue (mkGlobalSecondaryIndexHash (sampleIndex "byUser" 57343 5))
  ∧ ("byUser" ∉ names (Updates (indexDiff surrogateBefore surrogateAfter)))
  ∧ ∀ (id : string) (diff : ObjectDiff) (w : nat),
      Forall (fun e => ¬ updatesIndexCapacity "byUser" e)
        (calls (Update sampleParseResourceName calmCtx id surrogateBefore
                  surrogateAfter diff w)).
Proof.
  apply (capacity_outside_code_points_is_not_compared sampleParseResourceName calmCtx
           surrogateBefore surrogateAfter "byUser").
  - reflexivity.
  - reflexivity.
  - right. unfold rendersAsReplacement. vm_compute. split; right; right; left; done.
  - left. reflexivity.
Defined.

Lemma Delete_succeeds_after_absence_witness :
  ∃ busy res pending last,
    calls (Delete sampleParseResourceName goneCtx "table/orders" 0%nat)
    = busy ++ CallDeleteTable "orders" res :: pending ++ [last]
    ∧ Forall (busyDelete "orders") busy
    ∧ acceptedOrAbsent res
    ∧ Forall (notYet "orders" false) pending
    ∧ reached "orders" false last
    ∧ (length busy < longTries goneCtx)%nat
    ∧ (length pending < longTries goneCtx)%nat.
Proof.
  apply (Delete_succeeds_after_absence sampleParseResourceName goneCtx "table/orders"
           "orders" 0%nat);
    reflexivity.
Defined.

Lemma prefixer_Write_keeps_writer_contract_witness :
  integration.obeysContract
    (integration.prefixer_Write
       (integration.mkPrefixer integration.bufferWriter
          (list_ascii_of_string "[ minimal ] ") false)).
Proof.
  apply prefixer_Write_keeps_writer_contract.
  intros q s. simpl. lia.
Defined.

Lemma LumiProgramTest_stops_at_missing_binary_witness :
  integration.LumiProgramTest integration.onlyLumijs integration.sampleMapRange
    integration.sampleRun integration.bufferWriter integration.bufferWriter
    integration.sampleFormatPrefix integration.sampleDir integration.sampleOptions
    integration.freshHarness
  = (Val tt, integration.mkHarness 0%nat [integration.notInPath] []).
Proof.
  apply (LumiProgramTest_stops_at_missing_binary integration.onlyLumijs
           integration.sampleMapRange integration.sampleRun integration.bufferWriter
           integration.bufferWriter integration.sampleFormatPrefix
           integration.sampleDir integration.sampleOptions integration.notInPath
           integration.freshHarness).
  right. left. split; reflexivity.
Defined.

Lemma LumiProgramTest_panics_on_short_directory_witness :
  integration.LumiProgramTest integration.allFound integration.sampleMapRange
    integration.sampleRun integration.bufferWriter integration.bufferWriter
    integration.sampleFormatPrefix "examples/minimal" integration.sampleOptions
    integration.freshHarness
  = (Panic "slice bounds out of range", integration.freshHarness).
Proof.
  apply (LumiProgramTest_panics_on_short_directory integration.allFound
           integration.sampleMapRange integration.sampleRun integration.bufferWriter
           integration.bufferWriter integration.sampleFormatPrefix
           "examples/minimal" integration.sampleOptions integration.freshHarness);
    [reflexivity..|].
  simpl. lia.
Defined.

Lemma LumiProgramTest_runs_whole_workflow_witness :
  integration.LumiProgramTest integration.allFound integration.sampleMapRange
    integration.sampleRun integration.bufferWriter integration.bufferWriter
    integration.sampleFormatPrefix integration.sampleDir integration.sampleOptions
    integration.freshHarness
  = (Val tt,
     integration.afterRunning integration.sampleRun
       (map (integration.commandOf integration.sampleDir
               (integration.newPrefixer integration.bufferWriter
                  "[ examples/scenarios/aws/minimal ] ")
               (integration.newPrefixer integration.bufferWriter
                  "[ examples/scenarios/aws/minimal ] "))
          (integration.workflow "/usr/bin/lumijs" "/usr/bin/lumi" "/usr/bin/yarn"
             ["@lumi/lumi"; "@lumi/aws"] [("aws:config:region", "us-east-2")]))
       integration.freshHarness).
Proof.
  apply (LumiProgramTest_runs_whole_workflow integration.allFound
           integration.sampleMapRange integration.sampleRun integration.bufferWriter
           integration.bufferWriter integration.sampleFormatPrefix
           integration.sampleDir integration.sampleOptions integration.freshHarness);
    [reflexivity..|].
  simpl. lia.
Defined.

(** The sample run: two links, the compile, the environment, one
    configuration entry and the six closing commands, of which the two
    deploys fail; the failures do not stop the workflow. *)
Example LumiProgramTest_sample_run :
  (let h := (integration.LumiProgramTest integration.allFound integration.sampleMapRange
               integration.sampleRun integration.bufferWriter integration.bufferWriter
               integration.sampleFormatPrefix integration.sampleDir
               integration.sampleOptions integration.freshHarness).2 in
   (length (integration.commands h), length (integration.failures h),
    integration.hworld h))
  = (11%nat, 2%nat, 11%nat).
Proof. vm_compute. reflexivity. Qed.

(** Two lines and an unfinished third through a prefixer. *)
Example prefixer_Write_sample :
  integration.prefixer_Write
    (integration.newPrefixer integration.bufferWriter "> ")
    (list_ascii_of_string "a
b
c") []
  = (5, None, list_ascii_of_string "> a
> b
> c").
Proof. reflexivity. Qed.

(** A capacity beyond the int64 range passes [Check], and [Create] requests
    the smallest int64 for it. *)
Example Create_request_beyond_int64 :
  Check (sampleTable 10000000000000000000 5 None) = ([], None)
  ∧ ∃ input resp err rest,
      calls (Create sampleNewUniqueHex calmCtx
               (sampleTable 10000000000000000000 5 None) 0%nat)
      = CallCreateTable input resp err :: rest
      ∧ cti_ProvisionedThroughput input
        = Some {| pt_ReadCapacityUnits := Some (-9223372036854775808);
                  pt_WriteCapacityUnits := Some 5 |}.
Proof. split; [reflexivity|]. do 4 eexists. split; reflexivity. Qed.
